(** * Chloroaromatics: Gaussian input generation and log scraping

    A shallow embedding of [geometry_file_generator.py],
    [scrape_frequency_logs.py] and [frequency_file_generator.py],
    followed by the properties the specification states about them and
    by further properties of the code.

    Conventions of the embedding.
    - A Python [int] is a [Z]; a tuple or list of ints is a [list Z].
    - A Python [str] is a [string]; its characters are the code points
      below 256 (all the literals of the program are ASCII).
    - A [for] loop over a sequence is a [fold_left] of its body over that
      sequence; [continue] returns the loop state unchanged.
    - Output (directories created, files written, lines printed) is an
      ordered trace of events; an event is an operation that went
      through.  Whether the operating system makes a directory and
      opens a file for writing is its answer, a parameter of the model
      ([host] for the geometry generator, [filesystem] for the frequency
      generator); it answers alike throughout a run.  Printing does not
      fail.
    - A Python exception is a value of [pyresult]; one that is not
      caught ends the call, and the events so far remain. *)

From Stdlib Require Import ZArith List String Ascii Bool Lia Permutation.
From Stdlib Require Import DecimalString.
Import ListNotations.

Open Scope string_scope.
Open Scope Z_scope.

(* ================================================================== *)
(** * The Python built-ins the program uses *)

Module Py.

(** The one-character string ["\n"]. *)
Definition nl : string := String "010"%char EmptyString.

(** [str(n)] for an int. *)
Definition str (n : Z) : string := NilZero.string_of_int (Z.to_int n).

(** [sep.join(parts)]. *)
Definition join (sep : string) (parts : list string) : string :=
  String.concat sep parts.

(** [x in t] for a tuple of ints: some element equals [x]. *)
Definition contains (x : Z) (t : list Z) : bool :=
  existsb (fun e => x =? e) t.

(** [range(a, b)]. *)
Definition range (a b : Z) : list Z :=
  map (fun k => a + Z.of_nat k) (seq 0 (Z.to_nat (b - a))).

(** [t.append(x)]: the list after the call. *)
Definition append {A} (t : list A) (x : A) : list A := List.app t [x].

(** [len(t)]. *)
Definition len {A} (t : list A) : Z := Z.of_nat (List.length t).

(** [t[i]] for [0 <= i < len(t)]; the program never indexes outside. *)
Definition item (t : list string) (i : Z) : string :=
  nth (Z.to_nat i) t "".

(** [s.startswith(p)] and [s.endswith(p)]. *)
Definition startswith (s p : string) : bool := String.prefix p s.

Definition endswith (s p : string) : bool :=
  let n := String.length s in
  let m := String.length p in
  (m <=? n)%nat && String.eqb (String.substring (n - m) m s) p.

(** [os.path.join(a, b)] of [posixpath]. *)
Definition os_path_join (a b : string) : string :=
  if startswith b "/" then b
  else if String.eqb a "" || endswith a "/" then a ++ b
  else a ++ "/" ++ b.

(** [os.environ.get(key, default)]. *)
Definition environ_get (environ : string -> option string)
           (key default : string) : string :=
  match environ key with
  | Some v => v
  | None => default
  end.

(** What the program does to the outside world, in order. *)
Inductive event : Type :=
| MakeDirs (path : string)
| WriteFile (path content : string)
| Print (line : string).

(** [OSError] stands for the class and its subclasses
    ([FileNotFoundError], [PermissionError], ...), with the message. *)
Inductive exception : Type :=
| UnboundLocalError (name : string)
| OSError (message : string).

Inductive pyresult (A : Type) : Type :=
| Ok (value : A)
| Raised (e : exception).

Arguments Ok {A} value.
Arguments Raised {A} e.

(** What the operating system answers to the geometry generator: the
    message of the [OSError] when it refuses, [None] when the operation
    goes through.  [os.makedirs] of the empty path, for one, is always
    refused. *)
Record host : Type := mkHost {
  makedirs_refused : string -> option string; (* os.makedirs(.., exist_ok=True) *)
  open_refused : string -> option string      (* open(.., "w") and the write *)
}.

End Py.

(* ================================================================== *)
(** * geometry_file_generator.py *)

Module Geometry.
Import Py.

(** [GAUSSIAN_HEADER.format(filename=.., title=.., charge=..,
    multiplicity=..)]. *)
Definition GAUSSIAN_HEADER (filename title charge multiplicity : string)
  : string :=
  "%mem=8GB" ++ nl ++
  "%nprocshare=4" ++ nl ++
  "%chk=geometry_chks/" ++ filename ++ ".chk" ++ nl ++
  "# opt am1" ++ nl ++
  nl ++
  title ++ nl ++
  nl ++
  charge ++ " " ++ multiplicity ++ nl.

Definition C_ATOMS : list string :=
  [ "C  -3.20928   0.19943  0.00000";
    "C  -2.01150   0.93555  0.00000";
    "C  -0.77511   0.26630  0.00000";
    "C  -0.73650  -1.13907  0.00000";
    "C  -1.93429  -1.87519  0.00000";
    "C  -3.17067  -1.20594  0.00000" ].

Definition SUBSTITUENT_COORDS : list string :=
  [ "-4.67483  -2.13035  0.00000";
    "-4.76193   1.03987 -0.00000";
    " 0.81614  -1.97951  0.00000";
    "-1.88580  -3.64003  0.00000";
    "-2.05998   2.70040 -0.00000";
    " 0.72905   1.19071  0.00000" ].

Definition CHLORINE_POSITIONS : list (list Z) :=
  [ [1];
    [1; 2]; [1; 3]; [1; 4];
    [1; 2; 3]; [1; 2; 4]; [1; 3; 5];
    [1; 2; 3; 4]; [1; 2; 3; 5]; [1; 2; 4; 5];
    [1; 2; 3; 4; 5];
    [1; 2; 3; 4; 5; 6] ].

(** ** generate_gjf_files *)

(** Lines 57-58. *)
Definition gjf_position_string (position_list : list Z) : string :=
  join "" (map str position_list).

Definition gjf_filename_base (position_list : list Z) : string :=
  gjf_position_string position_list ++ "ClBz".

(** Line 59. *)
Definition gjf_title (position_list : list Z) : string :=
  str (len position_list) ++ "-Chloro-Benzene (" ++
  gjf_position_string position_list ++ ")".

(** Lines 66-83: the carbons, then one record per site. *)
Definition gjf_all_atoms (position_list : list Z) : list string :=
  fold_left
    (fun all_atoms i =>
       let is_chlorine := contains (i + 1) position_list in
       let coords := item SUBSTITUENT_COORDS i in
       if is_chlorine
       then append all_atoms ("Cl " ++ coords)
       else append all_atoms ("H  " ++ coords))
    (range 0 6) C_ATOMS.

(** Lines 86-88. *)
Definition gjf_content_of (position_list : list Z) : string :=
  let charge := "0" in
  let multiplicity := "1" in
  GAUSSIAN_HEADER (gjf_filename_base position_list)
                  (gjf_title position_list) charge multiplicity
  ++ join nl (gjf_all_atoms position_list)
  ++ nl ++ nl.

(** The whole function: the events it causes, and the pair it returns
    or the exception of line 94 or 97 that ends it. *)
Definition generate_gjf_files (os : host)
           (environ : string -> option string) (position_list : list Z)
  : list event * pyresult (string * string) :=
  let gjf_content := gjf_content_of position_list in
  let OUTPUT_DIR := environ_get environ "GJF_OUTPUT_DIR" "geometry_input" in
  match makedirs_refused os OUTPUT_DIR with
  | Some e => ([], Raised (OSError e))
  | None =>
      let filepath :=
        os_path_join OUTPUT_DIR (gjf_filename_base position_list ++ ".gjf") in
      match open_refused os filepath with
      | Some e => ([MakeDirs OUTPUT_DIR], Raised (OSError e))
      | None =>
          ([ MakeDirs OUTPUT_DIR;
             WriteFile filepath gjf_content;
             Print ("--- Wrote GJF file: " ++ filepath ++ " ---") ],
           Ok (filepath, gjf_content))
      end
  end.

(** ** The local variables of the two intermediate generators that
    outlive one loop iteration, together with the events so far. *)
Record frame : Type := mkFrame {
  results : list (string * string);
  filepath : option string;      (* [None]: not yet bound *)
  trace : list event
}.

(** ** generate_anion_intermediates *)

(** Lines 128-135. *)
Definition anion_pattern (original_positions : list Z) (removed : Z)
  : string :=
  let pattern_parts :=
    fold_left
      (fun pattern_parts i =>
         if contains i original_positions then
           if i =? removed
           then append pattern_parts "_"
           else append pattern_parts (str i)
         else pattern_parts)
      (range 1 7) [] in
  join "" pattern_parts.

(** Lines 140 and 147-157. *)
Definition anion_all_atoms (original_positions : list Z) (removed : Z)
  : list string :=
  let new_positions :=
    filter (fun p => negb (p =? removed)) original_positions in
  fold_left
    (fun all_atoms i =>
       let is_chlorine := contains (i + 1) new_positions in
       let coords := item SUBSTITUENT_COORDS i in
       if is_chlorine then append all_atoms ("Cl " ++ coords)
       else if i =? removed - 1 then all_atoms
       else append all_atoms ("H  " ++ coords))
    (range 0 6) C_ATOMS.

(** Lines 127-163: the path and the deck that one iteration makes. *)
Definition anion_entry (OUTPUT_DIR : string)
           (original_positions : list Z) (removed : Z) : string * string :=
  let pattern := anion_pattern original_positions removed in
  let filename_base := pattern ++ "ClBzAnionIntermediate" in
  let title :=
    "Anion Intermediate (removed " ++ str removed ++ ") " ++ pattern in
  let charge := "-1" in
  let multiplicity := "0" in
  let all_atoms := anion_all_atoms original_positions removed in
  let gjf_content :=
    GAUSSIAN_HEADER filename_base title charge multiplicity
    ++ join nl all_atoms ++ nl ++ nl in
  let filepath := os_path_join OUTPUT_DIR (filename_base ++ ".gjf") in
  (filepath, gjf_content).

(** Lines 164-168: what one iteration does with them. *)
Definition anion_iteration (OUTPUT_DIR : string)
           (original_positions : list Z) (st : frame) (removed : Z)
  : frame :=
  let (filepath, gjf_content) :=
    anion_entry OUTPUT_DIR original_positions removed in
  {| results := append (results st) (filepath, gjf_content);
     filepath := Some filepath;
     trace := List.app (trace st)
              [ WriteFile filepath gjf_content;
                Print ("--- Wrote Anion Radical GJF: " ++ filepath ++ " ---") ]
  |}.

(** Lines 118-168: the frame when the loop is over, the directory
    having been made and every file having opened. *)
Definition anion_loop (environ : string -> option string)
           (position_list : list Z) : frame :=
  let OUTPUT_DIR := environ_get environ "GJF_OUTPUT_DIR" "geometry_input" in
  let original_positions := position_list in
  fold_left (anion_iteration OUTPUT_DIR original_positions)
            original_positions
            {| results := []; filepath := None;
               trace := [MakeDirs OUTPUT_DIR] |}.

(** The loop with the answers of the operating system: it ends at the
    first file that does not open, with the frame of the rounds before
    that one. *)
Fixpoint anion_rounds (os : host) (OUTPUT_DIR : string)
         (original_positions todo : list Z) (st : frame)
  : frame * option exception :=
  match todo with
  | [] => (st, None)
  | removed :: todo' =>
      match open_refused os
              (fst (anion_entry OUTPUT_DIR original_positions removed)) with
      | Some e => (st, Some (OSError e))
      | None =>
          anion_rounds os OUTPUT_DIR original_positions todo'
            (anion_iteration OUTPUT_DIR original_positions st removed)
      end
  end.

(** The whole function: [os.makedirs] at line 121, the loop, and
    [return filepath] at line 170. *)
Definition generate_anion_intermediates (os : host)
           (environ : string -> option string) (position_list : list Z)
  : list event * pyresult string :=
  let OUTPUT_DIR := environ_get environ "GJF_OUTPUT_DIR" "geometry_input" in
  match makedirs_refused os OUTPUT_DIR with
  | Some e => ([], Raised (OSError e))
  | None =>
      let original_positions := position_list in
      let (st, raised) :=
        anion_rounds os OUTPUT_DIR original_positions original_positions
          {| results := []; filepath := None;
             trace := [MakeDirs OUTPUT_DIR] |} in
      (trace st,
       match raised with
       | Some e => Raised e
       | None =>
           match filepath st with
           | Some p => Ok p
           | None => Raised (UnboundLocalError "filepath")
           end
       end)
  end.

(** ** generate_neutral_radicals_intermediates *)

(** Lines 194-201. *)
Definition radical_pattern (original_positions : list Z) (removed : Z)
  : string :=
  let pattern_parts :=
    fold_left
      (fun pattern_parts i =>
         if contains i original_positions then
           if i =? removed
           then append pattern_parts "_"
           else append pattern_parts (str i)
         else pattern_parts)
      (range 1 7) [] in
  join "" pattern_parts.

(** Lines 206 and 213-223. *)
Definition radical_all_atoms (original_positions : list Z) (removed : Z)
  : list string :=
  let new_positions :=
    filter (fun p => negb (p =? removed)) original_positions in
  fold_left
    (fun all_atoms i =>
       let is_chlorine := contains (i + 1) new_positions in
       let coords := item SUBSTITUENT_COORDS i in
       if is_chlorine then append all_atoms ("Cl " ++ coords)
       else if i =? removed - 1 then all_atoms
       else append all_atoms ("H  " ++ coords))
    (range 0 6) C_ATOMS.

(** Lines 193-229: the path and the deck that one iteration makes. *)
Definition radical_entry (OUTPUT_DIR : string)
           (original_positions : list Z) (removed : Z) : string * string :=
  let pattern := radical_pattern original_positions removed in
  let filename_base := pattern ++ "ClBzNeutralRadical" in
  let title :=
    "Neutral Radical (removed " ++ str removed ++ ") " ++ pattern in
  let charge := "0" in
  let multiplicity := "2" in
  let all_atoms := radical_all_atoms original_positions removed in
  let gjf_content :=
    GAUSSIAN_HEADER filename_base title charge multiplicity
    ++ join nl all_atoms ++ nl ++ nl in
  let filepath := os_path_join OUTPUT_DIR (filename_base ++ ".gjf") in
  (filepath, gjf_content).

(** Lines 230-234: what one iteration does with them. *)
Definition radical_iteration (OUTPUT_DIR : string)
           (original_positions : list Z) (st : frame) (removed : Z)
  : frame :=
  let (filepath, gjf_content) :=
    radical_entry OUTPUT_DIR original_positions removed in
  {| results := append (results st) (filepath, gjf_content);
     filepath := Some filepath;
     trace := List.app (trace st)
              [ WriteFile filepath gjf_content;
                Print ("--- Wrote Neutral Radical GJF: " ++ filepath ++ " ---") ]
  |}.

(** Lines 184-234: the frame when the loop is over, the directory
    having been made and every file having opened. *)
Definition radical_loop (environ : string -> option string)
           (position_list : list Z) : frame :=
  let OUTPUT_DIR := environ_get environ "GJF_OUTPUT_DIR" "geometry_input" in
  let original_positions := position_list in
  fold_left (radical_iteration OUTPUT_DIR original_positions)
            original_positions
            {| results := []; filepath := None;
               trace := [MakeDirs OUTPUT_DIR] |}.

(** The loop with the answers of the operating system: it ends at the
    first file that does not open, with the frame of the rounds before
    that one. *)
Fixpoint radical_rounds (os : host) (OUTPUT_DIR : string)
         (original_positions todo : list Z) (st : frame)
  : frame * option exception :=
  match todo with
  | [] => (st, None)
  | removed :: todo' =>
      match open_refused os
              (fst (radical_entry OUTPUT_DIR original_positions removed)) with
      | Some e => (st, Some (OSError e))
      | None =>
          radical_rounds os OUTPUT_DIR original_positions todo'
            (radical_iteration OUTPUT_DIR original_positions st removed)
      end
  end.

(** The whole function: [os.makedirs] at line 187, the loop, and
    [return filepath] at line 236. *)
Definition generate_neutral_radicals_intermediates (os : host)
           (environ : string -> option string) (position_list : list Z)
  : list event * pyresult string :=
  let OUTPUT_DIR := environ_get environ "GJF_OUTPUT_DIR" "geometry_input" in
  match makedirs_refused os OUTPUT_DIR with
  | Some e => ([], Raised (OSError e))
  | None =>
      let original_positions := position_list in
      let (st, raised) :=
        radical_rounds os OUTPUT_DIR original_positions original_positions
          {| results := []; filepath := None;
             trace := [MakeDirs OUTPUT_DIR] |} in
      (trace st,
       match raised with
       | Some e => Raised e
       | None =>
           match filepath st with
           | Some p => Ok p
           | None => Raised (UnboundLocalError "filepath")
           end
       end)
  end.

End Geometry.

(* ================================================================== *)
(** * The fragment of Python's [re] the scraper uses

  Patterns are syntax trees; matching is the backtracking search of
  [re]: alternatives are tried in order, repetitions are greedy, and
  the first success wins.  The scraper's patterns have one capturing
  group, and every repeated item consumes a character. *)

Module Re.

Inductive regex : Type :=
| Lit (s : string)           (* literal text *)
| Cls (p : ascii -> bool)    (* one character of a class *)
| Cat (r1 r2 : regex)        (* r1 r2 *)
| Opt (r : regex)            (* r?  *)
| Star (r : regex)           (* r*  *)
| Plus (r : regex)           (* r+  *)
| Grp (r : regex).           (* (r), capturing group 1 *)

(** [\s] on a [str] pattern: the characters with [str.isspace()]. *)
Definition is_space (c : ascii) : bool :=
  let n := nat_of_ascii c in
  ((9 <=? n) && (n <=? 13) || (28 <=? n) && (n <=? 32)
   || (n =? 133) || (n =? 160))%nat.

(** [\d]: the decimal digits; below code point 256 these are 0-9. *)
Definition is_digit (c : ascii) : bool :=
  let n := nat_of_ascii c in
  ((48 <=? n) && (n <=? 57))%nat.

(** [.] without [re.DOTALL]: anything but a newline. *)
Definition is_dot (c : ascii) : bool :=
  negb (Ascii.eqb c "010"%char).

(** [[abc]]: one of the listed characters. *)
Fixpoint one_of (set : string) (c : ascii) : bool :=
  match set with
  | EmptyString => false
  | String a set' => Ascii.eqb c a || one_of set' c
  end.

(** [s] without its prefix [p], when it has that prefix. *)
Fixpoint strip_prefix (p s : string) : option string :=
  match p with
  | EmptyString => Some s
  | String a p' =>
      match s with
      | EmptyString => None
      | String b s' => if Ascii.eqb a b then strip_prefix p' s' else None
      end
  end.

(** The text between the start of [s] and the start of its suffix [s']. *)
Definition consumed (s s' : string) : string :=
  String.substring 0 (String.length s - String.length s') s.

Section Matcher.
Context {A : Type}.

(** What remains to be matched after a sub-pattern: it receives the
    rest of the text and the capture of group 1, if any. *)
Definition cont : Type := string -> option string -> option A.

(** Greedy repetition of [body]: one more round if that leads to a
    match, none otherwise.  A round has to consume a character. *)
Fixpoint star (body : string -> option string -> cont -> option A)
         (fuel : nat) (s : string) (g : option string) (k : cont)
  : option A :=
  match fuel with
  | O => k s g
  | S fuel' =>
      match body s g
              (fun s' g' =>
                 if (String.length s' <? String.length s)%nat
                 then star body fuel' s' g' k
                 else None) with
      | Some a => Some a
      | None => k s g
      end
  end.

Fixpoint run (r : regex) (s : string) (g : option string) (k : cont)
  : option A :=
  match r with
  | Lit p =>
      match strip_prefix p s with
      | Some s' => k s' g
      | None => None
      end
  | Cls p =>
      match s with
      | String c s' => if p c then k s' g else None
      | EmptyString => None
      end
  | Cat r1 r2 => run r1 s g (fun s1 g1 => run r2 s1 g1 k)
  | Opt r1 =>
      match run r1 s g k with
      | Some a => Some a
      | None => k s g
      end
  | Star r1 => star (run r1) (String.length s) s g k
  | Plus r1 =>
      run r1 s g (fun s1 g1 => star (run r1) (String.length s1) s1 g1 k)
  | Grp r1 => run r1 s g (fun s1 _ => k s1 (Some (consumed s s1)))
  end.

End Matcher.

(** A match object: [m.group(0)] and [m.group(1)] ([None] when the group
    took no part in the match). *)
Record match_obj : Type := mkMatch {
  group0 : string;
  group1 : option string
}.

(** [pattern.match(s)]: a match that starts at the first character. *)
Definition match_here (r : regex) (s : string) : option match_obj :=
  run r s None (fun s' g => Some (mkMatch (consumed s s') g)).

(** [pattern.search(s)]: the leftmost match. *)
Fixpoint search (r : regex) (s : string) : option match_obj :=
  match match_here r s with
  | Some m => Some m
  | None =>
      match s with
      | EmptyString => None
      | String _ s' => search r s'
      end
  end.

(** The scan behind [finditer] and [findall]: the text is read left to
    right; [skip] counts the characters still covered by the match found
    last, where no new match may start.  After an empty match the scan
    goes on at the next character; no pattern of the scraper matches the
    empty string. *)
Fixpoint scan (r : regex) (s : string) (skip : nat) : list match_obj :=
  match skip with
  | S skip' =>
      match s with
      | EmptyString => []
      | String _ s' => scan r s' skip'
      end
  | O =>
      match match_here r s with
      | Some m =>
          m :: match s with
               | EmptyString => []
               | String _ s' =>
                   scan r s' (Nat.pred (String.length (group0 m)))
               end
      | None =>
          match s with
          | EmptyString => []
          | String _ s' => scan r s' 0%nat
          end
      end
  end.

(** [list(pattern.finditer(s))]. *)
Definition finditer (r : regex) (s : string) : list match_obj :=
  scan r s 0%nat.

(** [pattern.findall(s)] for a pattern with one group: the text of the
    group in each match, the empty string where it took no part. *)
Definition findall (r : regex) (s : string) : list string :=
  map (fun m => match group1 m with Some t => t | None => "" end)
      (finditer r s).

(** Every character of [s] satisfies [P]. *)
Definition all_chars (P : ascii -> Prop) (s : string) : Prop :=
  Forall P (list_ascii_of_string s).

(** Every character a pattern can consume satisfies [P]. *)
Fixpoint over_alphabet (P : ascii -> Prop) (r : regex) : Prop :=
  match r with
  | Lit s => all_chars P s
  | Cls p => forall c, p c = true -> P c
  | Cat r1 r2 => over_alphabet P r1 /\ over_alphabet P r2
  | Opt r1 | Star r1 | Plus r1 | Grp r1 => over_alphabet P r1
  end.

(** What a successful sub-match has done: it has consumed a prefix [w]
    of the text, made of characters that satisfy [P], and the
    continuation has succeeded on the rest. *)
Definition consumes {A : Type} (P : ascii -> Prop) (s : string)
           (k : string -> option string -> option A) (a : A) : Prop :=
  exists w s' g', s = w ++ s' /\ all_chars P w /\ k s' g' = Some a.

End Re.

(* ================================================================== *)
(** * scrape_frequency_logs.py *)

Module Scrape.
Import Py Re.

Definition DG_MARKER : string :=
  "Sum of electronic and thermal Free Energies=".

Definition ALPHA_MARKER : string := "Alpha virt. eigenvalues --".

(** An optional sign, digits, an optional fraction (a dot and any
    digits), an optional exponent ([E] or [e], optional sign, digits):
    [[+-]? \d+ (?: \. \d* )? (?: [Ee] [+-]? \d+ )?]. *)
Definition NUMBER_RE : regex :=
  Cat (Opt (Cls (one_of "+-")))
 (Cat (Plus (Cls is_digit))
 (Cat (Opt (Cat (Lit ".") (Star (Cls is_digit))))
      (Opt (Cat (Cls (one_of "Ee"))
           (Cat (Opt (Cls (one_of "+-")))
                (Plus (Cls is_digit))))))).

(** What follows the marker in [DG_RE]: any white space, then the
    number as group 1. *)
Definition DG_TAIL : regex :=
  Cat (Star (Cls is_space)) (Grp NUMBER_RE).

(** The marker, then [DG_TAIL]. *)
Definition DG_RE : regex := Cat (Lit DG_MARKER) DG_TAIL.

(** The marker, then the rest of the line as group 1. *)
Definition ALPHA_LINE_RE : regex :=
  Cat (Lit ALPHA_MARKER) (Grp (Star (Cls is_dot))).

(** [t[-1]] of a non-empty list. *)
Definition last_item {A} (t : list A) (d : A) : A := List.last t d.

(** Group 1 of [ALPHA_LINE_RE] takes part in every match, so that the
    [None] branch under [last] is never taken. *)
Definition extract_values (text : string) : option string * option string :=
  let dgs := findall DG_RE text in
  let dG :=
    match dgs with
    | [] => None
    | _ :: _ => Some (last_item dgs "")
    end in
  let alpha_matches := finditer ALPHA_LINE_RE text in
  let lumo :=
    match alpha_matches with
    | [] => None
    | m0 :: _ =>
        let last :=
          match group1 (last_item alpha_matches m0) with
          | Some t => t
          | None => ""
          end in
        match search NUMBER_RE last with
        | Some num_match => Some (group0 num_match)
        | None => None
        end
    end in
  (dG, lumo).

(** [sub in s] for strings. *)
Fixpoint str_contains (sub s : string) : bool :=
  String.prefix sub s ||
  match s with
  | EmptyString => false
  | String _ s' => str_contains sub s'
  end.

(** The text of [s] before the last [c], when [c] occurs in [s]. *)
Fixpoint before_last (c : ascii) (s : string) : option string :=
  match s with
  | EmptyString => None
  | String a s' =>
      match before_last c s' with
      | Some t => Some (String a t)
      | None => if Ascii.eqb a c then Some EmptyString else None
      end
  end.

(** [s.rsplit(c, 1)[0]] for a one-character separator. *)
Definition rsplit1_head (c : ascii) (s : string) : string :=
  match before_last c s with
  | Some t => t
  | None => s
  end.

Fixpoint lstrip (chars s : string) : string :=
  match s with
  | EmptyString => EmptyString
  | String a s' => if one_of chars a then lstrip chars s' else s
  end.

Fixpoint rstrip (chars s : string) : string :=
  match s with
  | EmptyString => EmptyString
  | String a s' =>
      match rstrip chars s' with
      | EmptyString => if one_of chars a then EmptyString
                       else String a EmptyString
      | t => String a t
      end
  end.

(** [s.strip(chars)]. *)
Definition strip (chars s : string) : string :=
  rstrip chars (lstrip chars s).

Definition derive_name_from_stem (stem : string) : string :=
  let left :=
    if str_contains "_" stem
    then rsplit1_head "_"%char stem
    else stem in
  let left := strip " _" left in
  if String.eqb left "" then stem else left.

End Scrape.

Import Py Geometry Re Scrape.

(* ================================================================== *)
(** * The vocabulary of the specification *)

Module Spec.
Import Py Geometry.

(** A Position is a site number from 1 to 6. *)
Definition Position (p : Z) : Prop := 1 <= p <= 6.

(** An IsomerSpec is a duplicate-free list of Positions. *)
Definition IsomerSpec (spec : list Z) : Prop :=
  NoDup spec /\ Forall Position spec.

(** The element symbol of an atom record: its text before the first
    blank. *)
Fixpoint element (record : string) : string :=
  match record with
  | EmptyString => EmptyString
  | String c record' =>
      if Ascii.eqb c " "%char then EmptyString
      else String c (element record')
  end.

(** How many records of a geometry carry the element [e]. *)
Definition count_element (e : string) (atoms : list string) : nat :=
  List.length (filter (fun record => String.eqb (element record) e) atoms).

(** The coordinates stored for a site (sites are numbered from 1). *)
Definition site_coords (site : Z) : string :=
  item SUBSTITUENT_COORDS (site - 1).

(** The record of a site that bears chlorine, and of one that bears
    hydrogen. *)
Definition Cl_record (site : Z) : string := "Cl " ++ site_coords site.
Definition H_record (site : Z) : string := "H  " ++ site_coords site.

(** The sites 1 to 6, in table order. *)
Definition sites : list Z := [1; 2; 3; 4; 5; 6].

(** A process environment in which no variable is set. *)
Definition no_env : string -> option string := fun _ => None.

(** An operating system with nothing in the way: it makes every
    directory but the one with the empty path, and opens every file. *)
Definition posix_host : host :=
  {| makedirs_refused := fun path =>
       if String.eqb path ""
       then Some "[Errno 2] No such file or directory"
       else None;
     open_refused := fun _ => None |}.

(** The operating system makes the directory [dir] and opens the files
    [paths]. *)
Definition accepts (os : host) (dir : string) (paths : list string) : Prop :=
  makedirs_refused os dir = None /\
  forall path, In path paths -> open_refused os path = None.

(** The result of a call that makes [dir] and then writes [path]: the
    [value] if the operating system lets both through, the [OSError] of
    the first refusal otherwise. *)
Definition through {A : Type} (os : host) (dir path : string) (value : A)
  : pyresult A :=
  match makedirs_refused os dir with
  | Some e => Raised (OSError e)
  | None =>
      match open_refused os path with
      | Some e => Raised (OSError e)
      | None => Ok value
      end
  end.

(** The output directory in force. *)
Definition output_dir (environ : string -> option string) : string :=
  environ_get environ "GJF_OUTPUT_DIR" "geometry_input".

(** The file events of a trace. *)
Definition writes (t : list event) : list (string * string) :=
  flat_map (fun e => match e with
                     | WriteFile path content => [(path, content)]
                     | _ => []
                     end) t.

(** The digit of a site. *)
Definition digit (site : Z) : string :=
  String (ascii_of_nat (48 + Z.to_nat site)) EmptyString.

(** Intermediate name, in the words of the specification: for the site
    indices 1 to 6, the digit if the index is in the original spec and
    retained, the placeholder if it is the removed one, nothing if it
    is absent from the original spec. *)
Definition name_mark (spec : list Z) (removed site : Z) : string :=
  if contains site spec
  then if site =? removed then "_" else digit site
  else "".

Definition intermediate_name (spec : list Z) (removed : Z) : string :=
  String.concat "" (map (name_mark spec removed) sites).

(** The two electronic states an intermediate is derived for, and what
    each of them fixes. *)
Inductive ElectronicState : Type := Anion | NeutralRadical.

Definition state_charge (st : ElectronicState) : string :=
  match st with Anion => "-1" | NeutralRadical => "0" end.

Definition state_multiplicity (st : ElectronicState) : string :=
  match st with Anion => "0" | NeutralRadical => "2" end.

Definition state_suffix (st : ElectronicState) : string :=
  match st with
  | Anion => "ClBzAnionIntermediate"
  | NeutralRadical => "ClBzNeutralRadical"
  end.

Definition state_title (st : ElectronicState) : string :=
  match st with
  | Anion => "Anion Intermediate"
  | NeutralRadical => "Neutral Radical"
  end.

(** The geometry of an intermediate, in the words of the
    specification: the carbons, then for the site indices 1 to 6 a
    chlorine if the index is in the reduced set, nothing if it is the
    removed one, a hydrogen otherwise. *)
Definition intermediate_site (spec : list Z) (removed site : Z)
  : list string :=
  let reduced := filter (fun q => negb (q =? removed)) spec in
  if contains site reduced then [Cl_record site]
  else if site =? removed then []
  else [H_record site].

Definition intermediate_atoms (spec : list Z) (removed : Z) : list string :=
  (C_ATOMS ++ flat_map (intermediate_site spec removed) sites)%list.

(** The one derivation with the state as a parameter: path and deck of
    the intermediate that removes [removed]. *)
Definition derive_intermediate (st : ElectronicState) (dir : string)
           (spec : list Z) (removed : Z) : string * string :=
  let name := intermediate_name spec removed ++ state_suffix st in
  let title :=
    state_title st ++ " (removed " ++ str removed ++ ") "
    ++ intermediate_name spec removed in
  (os_path_join dir (name ++ ".gjf"),
   GAUSSIAN_HEADER name title (state_charge st) (state_multiplicity st)
   ++ join nl (intermediate_atoms spec removed) ++ nl ++ nl).

(** Reading a base name back: the digits before ["ClBz"]. *)
Definition digit_value (c : ascii) : option Z :=
  let n := nat_of_ascii c in
  if ((48 <=? n) && (n <=? 57))%nat then Some (Z.of_nat (n - 48)) else None.

Fixpoint digits_of (s : string) : option (list Z) :=
  match s with
  | EmptyString => Some []
  | String c s' =>
      match digit_value c, digits_of s' with
      | Some d, Some ds => Some (d :: ds)
      | _, _ => None
      end
  end.

Definition name_positions (name : string) : option (list Z) :=
  match String.index 0 "ClBz" name with
  | Some n => digits_of (String.substring 0 n name)
  | None => None
  end.

(** [sub] occurs in [s]. *)
Definition occurs (sub s : string) : Prop :=
  exists pre post, s = pre ++ sub ++ post.

(** [s] holds no newline. *)
Definition no_newline (s : string) : Prop :=
  all_chars (fun c => c <> "010"%char) s.

(** [post] starts where a line ends: it is empty or starts with a
    newline. *)
Definition at_line_end (post : string) : Prop :=
  post = "" \/ exists post', post = nl ++ post'.

(** Nowhere in [pre] is [marker] followed by newline-free text up to the
    end of [pre]: a marker that comes right after [pre] is the first one
    on its line. *)
Definition first_on_line (marker pre : string) : Prop :=
  forall a e, pre = a ++ marker ++ e -> ~ no_newline e.

(** [s] is made of decimal digits, of white space. *)
Definition all_digits (s : string) : Prop :=
  all_chars (fun c => is_digit c = true) s.

Definition all_spaces (s : string) : Prop :=
  all_chars (fun c => is_space c = true) s.

(** A sign: nothing, a plus or a minus. *)
Definition is_sign (s : string) : Prop := s = "" \/ s = "+" \/ s = "-".

(** A decimal token: a sign, digits, a dot, digits. *)
Definition decimal (sign int frac : string) : string :=
  sign ++ int ++ "." ++ frac.

(** [rest] does not start with a character of the class [p]. *)
Definition stops (p : ascii -> bool) (rest : string) : Prop :=
  match rest with
  | EmptyString => True
  | String c _ => p c = false
  end.

(** [rest] carries a number no further: it starts neither with a digit
    nor with an exponent letter. *)
Definition ends_number (rest : string) : Prop :=
  stops (fun c => is_digit c || one_of "Ee" c) rest.

End Spec.

Import Spec.

(* ================================================================== *)
(** * geometry_file_generator.py, the module-level code

    The code under [if __name__ == "__main__"], with the table it
    iterates over as a parameter; the program runs it on
    [CHLORINE_POSITIONS].  An exception of a generator is not caught: it
    ends the run. *)

Module GeometryMain.
Import Py Geometry.

(** [s * n] for a string and a count. *)
Definition repeat_str (s : string) (n : nat) : string :=
  String.concat "" (List.repeat s n).

(** The list [generated_files] and what has been done so far. *)
Record run_state : Type := mkRun {
  generated_files : list string;
  output : list event
}.

(** Lines 248-253, 260-265 and 272-277: the summary after a phase. *)
Definition summary (generated_files : list string) : list event :=
  List.app
    [ Print (repeat_str "-" 50);
      Print ("Successfully simulated the creation of "
             ++ str (len generated_files) ++ " GJF files.");
      Print "File names generated (e.g., for use in a SLURM Job Array):" ]
    (List.app (map (fun f => Print ("- " ++ f)) generated_files)
              [ Print (repeat_str "-" 50) ]).

(** Lines 244-246, 256-258 and 268-270: one generator over the table,
    up to the first call that raises. *)
Fixpoint intermediates_phase
         (generate : list Z -> list event * pyresult string)
         (table : list (list Z)) (st : run_state)
  : run_state * option exception :=
  match table with
  | [] => (st, None)
  | positions :: table' =>
      let (events, returned) := generate positions in
      match returned with
      | Ok filepath =>
          intermediates_phase generate table'
            {| generated_files := append (generated_files st) filepath;
               output := List.app (output st) events |}
      | Raised e =>
          ({| generated_files := generated_files st;
              output := List.app (output st) events |}, Some e)
      end
  end.

(** Lines 244-246: the base isomers; the path is the first component
    of what [generate_gjf_files] returns. *)
Definition base_phase (os : host) (environ : string -> option string)
           (table : list (list Z)) (st : run_state)
  : run_state * option exception :=
  intermediates_phase
    (fun positions =>
       let (events, returned) := generate_gjf_files os environ positions in
       (events,
        match returned with
        | Ok (filepath, _) => Ok filepath
        | Raised e => Raised e
        end))
    table st.

Definition with_summary (st : run_state) : run_state :=
  {| generated_files := generated_files st;
     output := List.app (output st) (summary (generated_files st)) |}.

(** Lines 239-277. *)
Definition main_on (os : host) (environ : string -> option string)
           (table : list (list Z)) : run_state * pyresult unit :=
  let st0 :=
    {| generated_files := [];
       output := [ Print ("Starting GJF file generation for all 12 unique "
                          ++ "chlorobenzene isomers...") ] |} in
  match base_phase os environ table st0 with
  | (st1, Some e) => (st1, Raised e)
  | (st1, None) =>
      let st1 := with_summary st1 in
      match intermediates_phase (generate_anion_intermediates os environ)
                                table st1 with
      | (st2, Some e) => (st2, Raised e)
      | (st2, None) =>
          let st3 := with_summary st2 in
          match intermediates_phase
                  (generate_neutral_radicals_intermediates os environ)
                  table st3 with
          | (st4, Some e) => (st4, Raised e)
          | (st4, None) => (with_summary st4, Ok tt)
          end
      end
  end.

Definition main (os : host) (environ : string -> option string)
  : run_state * pyresult unit :=
  main_on os environ CHLORINE_POSITIONS.

End GeometryMain.

(* ================================================================== *)
(** * frequency_file_generator.py

    The directory the function reads and the files it opens are outside
    the program: what the operating system answers is a parameter.  A
    [WriteFile] event is a write that went through. *)

Module Frequency.
Import Py.

Definition GEOMETRY_COMPLETED_DIR : string := "geometry_inputs_completed".
Definition FREQUENCY_OUTPUT_DIR : string := "frequency_inputs".
Definition GEOMETRY_CHK_DIR : string := "geometry_chks".
Definition FREQUENCY_CHK_DIR : string := "frequency_chks".

(** [FREQUENCY_HEADER.format(geometry_chks=.., frequency_chks=..,
    filename=..)]. *)
Definition FREQUENCY_HEADER (geometry_chks frequency_chks filename : string)
  : string :=
  "%mem=8GB" ++ nl ++
  "%nprocshare=4" ++ nl ++
  "%oldchk=" ++ geometry_chks ++ "/" ++ filename ++ ".chk" ++ nl ++
  "%chk=" ++ frequency_chks ++ "/" ++ filename ++ "_Freq.chk" ++ nl ++
  "# opt freq 6-311++g(d,p) guess=read geom=allcheck m062x" ++ nl ++
  nl ++
  filename ++ nl ++
  nl.

(** What the operating system answers.  An error carries the text of
    the exception. *)
Record filesystem : Type := mkFs {
  makedirs_error : string -> option string;   (* os.makedirs(.., exist_ok=True) *)
  isdir : string -> bool;                     (* os.path.isdir *)
  listdir : string -> list string + string;   (* os.listdir, or an OSError *)
  open_error : string -> option string        (* open(.., "w") and write *)
}.

(** [s1 <= s2] for strings: by code points, a prefix first. *)
Fixpoint str_le (s1 s2 : string) : bool :=
  match s1, s2 with
  | EmptyString, _ => true
  | String _ _, EmptyString => false
  | String a s1', String b s2' =>
      if (nat_of_ascii a <? nat_of_ascii b)%nat then true
      else if (nat_of_ascii a =? nat_of_ascii b)%nat then str_le s1' s2'
      else false
  end.

(** [sorted(files)]: the ascending arrangement of the names. *)
Fixpoint insert_sorted (x : string) (l : list string) : list string :=
  match l with
  | [] => [x]
  | h :: t => if str_le x h then x :: h :: t else h :: insert_sorted x t
  end.

Fixpoint sorted (files : list string) : list string :=
  match files with
  | [] => []
  | x :: rest => insert_sorted x (sorted rest)
  end.

(** [s.rfind(c)] for a one-character [c]: [None] stands for -1. *)
Fixpoint rfind_char (c : ascii) (s : string) : option nat :=
  match s with
  | EmptyString => None
  | String a s' =>
      match rfind_char c s' with
      | Some n => Some (S n)
      | None => if Ascii.eqb a c then Some O else None
      end
  end.

Definition rfind (c : ascii) (s : string) : Z :=
  match rfind_char c s with
  | Some n => Z.of_nat n
  | None => -1
  end.

(** [p[i:j]] for [0 <= i <= j]. *)
Definition slice (p : string) (i j : Z) : string :=
  String.substring (Z.to_nat i) (Z.to_nat (j - i)) p.

(** The loop of [genericpath._splitext] that skips leading dots: whether
    it meets a character that is not a dot before [dotIndex]. *)
Fixpoint name_before_dot (fuel : nat) (p : string)
         (filenameIndex dotIndex : Z) : bool :=
  match fuel with
  | O => false
  | S fuel' =>
      if filenameIndex <? dotIndex then
        if negb (String.eqb (slice p filenameIndex (filenameIndex + 1)) ".")
        then true
        else name_before_dot fuel' p (filenameIndex + 1) dotIndex
      else false
  end.

(** [os.path.splitext(p)] of [posixpath]. *)
Definition splitext (p : string) : string * string :=
  let sepIndex := rfind "/"%char p in
  let dotIndex := rfind "."%char p in
  if (dotIndex >? sepIndex)
     && name_before_dot (Z.to_nat (dotIndex - (sepIndex + 1))) p
                        (sepIndex + 1) dotIndex
  then (slice p 0 dotIndex, slice p dotIndex (Z.of_nat (String.length p)))
  else (p, "").

(** The check mark of the progress line, in UTF-8. *)
Definition check_mark : string :=
  String "226"%char (String "156"%char (String "147"%char EmptyString)).

(** Lines 56-66: the path and the deck for one file name. *)
Definition frequency_entry (filename : string) : string * string :=
  let base_name := fst (splitext filename) in
  let frequency_content :=
    FREQUENCY_HEADER GEOMETRY_CHK_DIR FREQUENCY_CHK_DIR base_name in
  let output_filepath :=
    os_path_join FREQUENCY_OUTPUT_DIR (base_name ++ "_OptFreq.gjf") in
  (output_filepath, frequency_content).

(** Lines 48-73: one round of the loop on [generated_count] and the
    events so far. *)
Definition frequency_iteration (fs : filesystem)
           (st : Z * list event) (filename : string) : Z * list event :=
  let (generated_count, events) := st in
  let filepath := os_path_join GEOMETRY_COMPLETED_DIR filename in
  if isdir fs filepath then st
  else
    let (output_filepath, frequency_content) := frequency_entry filename in
    match open_error fs output_filepath with
    | None =>
        (generated_count + 1,
         List.app events
           [ WriteFile output_filepath frequency_content;
             Print (check_mark ++ " Generated: " ++ output_filepath) ])
    | Some e =>
        (generated_count,
         List.app events
           [ Print ("ERROR: Could not write '" ++ output_filepath ++ "': "
                    ++ e) ])
    end.

(** Lines 45-79: the loop and the summary. *)
Definition frequency_loop (fs : filesystem) (files : list string)
           (events : list event) : Z * list event :=
  let (generated_count, events) :=
    fold_left (frequency_iteration fs) (sorted files) (0, events) in
  (generated_count,
   List.app events
     [ Print (GeometryMain.repeat_str "-" 60);
       Print ("Successfully generated " ++ str generated_count
              ++ " frequency input file(s).");
       Print ("Files saved to: " ++ FREQUENCY_OUTPUT_DIR ++ "/");
       Print (GeometryMain.repeat_str "-" 60) ]).

(** The whole function: its events, and the text of the [OSError] of
    [os.makedirs] when that ends it. *)
Definition generate_frequency_files (fs : filesystem)
  : list event * option string :=
  match makedirs_error fs FREQUENCY_OUTPUT_DIR with
  | Some e => ([], Some e)
  | None =>
      let events := [MakeDirs FREQUENCY_OUTPUT_DIR] in
      if negb (isdir fs GEOMETRY_COMPLETED_DIR) then
        (List.app events
           [ Print ("ERROR: Directory '" ++ GEOMETRY_COMPLETED_DIR
                    ++ "' not found.") ], None)
      else
        match listdir fs GEOMETRY_COMPLETED_DIR with
        | inr e =>
            (List.app events
               [ Print ("ERROR: Could not read directory '"
                        ++ GEOMETRY_COMPLETED_DIR ++ "': " ++ e) ], None)
        | inl files =>
            match files with
            | [] =>
                (List.app events
                   [ Print ("WARNING: No files found in '"
                            ++ GEOMETRY_COMPLETED_DIR ++ "'") ], None)
            | _ :: _ => (snd (frequency_loop fs files events), None)
            end
        end
  end.

End Frequency.

Import GeometryMain Frequency.

(* ================================================================== *)
(** * Further vocabulary *)

Module Extra.
Import Py Geometry Re Scrape Spec.

(** The character is not a digit position mark: used for the names the
    generators make, which hold neither a dot nor a slash. *)
Definition plain_char (c : ascii) : Prop :=
  c <> "."%char /\ c <> "/"%char.

(** A file name base without dot and slash, and not empty. *)
Definition plain_name (s : string) : Prop :=
  all_chars plain_char s /\ s <> "".

(** A single-digit position. *)
Definition one_digit (p : Z) : Prop := 0 <= p <= 9.

(** The characters a number token is made of. *)
Definition number_char (c : ascii) : Prop :=
  is_digit c = true \/ one_of "+-.Ee" c = true.

(** [s] holds no digit. *)
Definition no_digit (s : string) : Prop :=
  all_chars (fun c => is_digit c = false) s.

(** The pattern cannot match the empty string. *)
Fixpoint never_empty (r : regex) : bool :=
  match r with
  | Lit s => negb (String.eqb s "")
  | Cls _ => true
  | Cat r1 r2 => never_empty r1 || never_empty r2
  | Opt _ | Star _ => false
  | Plus r1 | Grp r1 => never_empty r1
  end.

(** A successful sub-match that has consumed at least one character. *)
Definition consumes_some {A : Type} (P : ascii -> Prop) (s : string)
           (k : string -> option string -> option A) (a : A) : Prop :=
  exists w s' g',
    s = w ++ s' /\ w <> "" /\ all_chars P w /\ k s' g' = Some a.

(** A file name without directory part. *)
Definition no_slash (s : string) : Prop :=
  all_chars (fun c => c <> "/"%char) s.

(** A file name made of dots only, the empty one included. *)
Definition only_dots (s : string) : Prop :=
  all_chars (fun c => c = "."%char) s.

(** The listed entry is one the frequency generator writes a deck for:
    it is not a directory and its output file opens. *)
Definition written (fs : filesystem) (filename : string) : bool :=
  negb (isdir fs (os_path_join GEOMETRY_COMPLETED_DIR filename)) &&
  match open_error fs (fst (frequency_entry filename)) with
  | None => true
  | Some _ => false
  end.

(** A file system for examples: every directory can be made, the input
    directory exists and lists [files], the entries [dirs] of it are
    directories, and the output files [locked] cannot be opened. *)
Definition example_fs (files dirs locked : list string) : filesystem :=
  {| makedirs_error := fun _ => None;
     isdir := fun p =>
       String.eqb p GEOMETRY_COMPLETED_DIR ||
       existsb (fun d => String.eqb p (os_path_join GEOMETRY_COMPLETED_DIR d))
               dirs;
     listdir := fun _ => inl files;
     open_error := fun p =>
       if existsb (String.eqb p) locked then Some "Permission denied"
       else None |}.

(** [removed] is the least position listed in [spec]. *)
Definition least_listed (spec : list Z) (removed : Z) : Prop :=
  In removed spec /\ Position removed /\
  forall p, In p spec -> Position p -> removed <= p.

(** The same, decided. *)
Definition least_listedb (spec : list Z) (removed : Z) : bool :=
  contains removed spec &&
  existsb (Z.eqb removed) sites &&
  forallb (fun i => negb (contains i spec) || (removed <=? i)) sites.

(** All the files the intermediates of a table are written to, by one
    generator. *)
Definition table_entries (entry : list Z -> Z -> string * string)
           (table : list (list Z)) : list (string * string) :=
  flat_map (fun spec => map (entry spec) spec) table.

(** The path and the deck of a base isomer. *)
Definition base_entry (dir : string) (spec : list Z) : string * string :=
  (os_path_join dir (gjf_filename_base spec ++ ".gjf"), gjf_content_of spec).

(** All the decks of a run over a table, in the order of writing: the
    base isomers, the anion intermediates, the neutral radicals. *)
Definition run_decks (dir : string) (table : list (list Z))
  : list (string * string) :=
  (map (base_entry dir) table
   ++ table_entries (anion_entry dir) table
   ++ table_entries (radical_entry dir) table)%list.

End Extra.

Import Extra.

(* ================================================================== *)
(** * Facts about the built-ins *)

Section Builtins.

Lemma range_0_6 : range 0 6 = [0; 1; 2; 3; 4; 5].
Proof. reflexivity. Qed.

Lemma range_1_7 : range 1 7 = [1; 2; 3; 4; 5; 6].
Proof. reflexivity. Qed.

Lemma contains_In (x : Z) (t : list Z) : contains x t = true <-> In x t.
Proof.
  unfold contains. rewrite existsb_exists. split.
  - intros [e [He Hx]]. apply Z.eqb_eq in Hx. now subst.
  - intros H. exists x. split; [assumption | apply Z.eqb_refl].
Qed.

Lemma contains_false (x : Z) (t : list Z) :
  contains x t = false <-> ~ In x t.
Proof.
  rewrite <- contains_In. destruct (contains x t); split; intros H;
    try reflexivity; try discriminate; try (intros E; discriminate).
  exfalso. now apply H.
Qed.

(** A loop that only appends to its accumulator emits, item by item,
    what [g] says. *)
Lemma fold_left_emit {A B : Type} (body : list B -> A -> list B)
      (g : A -> list B) :
  (forall acc i, body acc i = (acc ++ g i)%list) ->
  forall l init, fold_left body l init = (init ++ flat_map g l)%list.
Proof.
  intros Hbody l. induction l as [| i l IH]; intros init; simpl.
  - now rewrite app_nil_r.
  - rewrite IH, Hbody. now rewrite <- app_assoc.
Qed.

(** The positions left once [removed] is taken out do not hold it. *)
Lemma removed_not_in_rest (t : list Z) (removed : Z) :
  contains removed (filter (fun p => negb (p =? removed)) t) = false.
Proof.
  apply contains_false. intros H. apply filter_In in H.
  destruct H as [_ H]. rewrite Z.eqb_refl in H. discriminate.
Qed.

Lemma contains_rest (t : list Z) (removed x : Z) :
  x <> removed ->
  contains x (filter (fun p => negb (p =? removed)) t) = contains x t.
Proof.
  intros Hx.
  destruct (contains x t) eqn:E.
  - apply contains_In. apply contains_In in E. apply filter_In. split; auto.
    apply negb_true_iff. now apply Z.eqb_neq.
  - apply contains_false. apply contains_false in E. intros H.
    apply filter_In in H. tauto.
Qed.

End Builtins.

(* ================================================================== *)
(** * Strings *)

Section Strings.

Lemma append_empty_r (s : string) : s ++ "" = s.
Proof. induction s as [| c s IH]; simpl; [reflexivity | now rewrite IH]. Qed.

Lemma append_assoc (s1 s2 s3 : string) : (s1 ++ s2) ++ s3 = s1 ++ s2 ++ s3.
Proof. induction s1 as [| c s1 IH]; simpl; [reflexivity | now rewrite IH]. Qed.


Lemma length_append (s1 s2 : string) :
  String.length (s1 ++ s2) = (String.length s1 + String.length s2)%nat.
Proof. induction s1 as [| c s1 IH]; simpl; [reflexivity | now rewrite IH]. Qed.

Lemma append_cancel_l (p s1 s2 : string) : p ++ s1 = p ++ s2 -> s1 = s2.
Proof.
  induction p as [| c p IH]; simpl; intros H; [assumption |].
  inversion H. auto.
Qed.

Lemma append_same_length (a1 b1 a2 b2 : string) :
  String.length a1 = String.length a2 ->
  a1 ++ b1 = a2 ++ b2 -> a1 = a2 /\ b1 = b2.
Proof.
  revert a2. induction a1 as [| c a1 IH]; intros [| c2 a2] Hlen H;
    try discriminate Hlen.
  - auto.
  - simpl in H. inversion H as [[Hc Hrest]].
    destruct (IH a2) as [-> ->]; auto.
Qed.

Lemma append_cancel_r (s1 s2 p : string) : s1 ++ p = s2 ++ p -> s1 = s2.
Proof.
  intros H. apply (append_same_length s1 p s2 p); [| exact H].
  apply (f_equal String.length) in H. rewrite !length_append in H.
  lia.
Qed.

(** Two ways of cutting the same text: one cut lies before the other. *)
Lemma append_eq_append (a b c d : string) :
  a ++ b = c ++ d ->
  (exists e, c = a ++ e /\ b = e ++ d) \/ (exists e, a = c ++ e /\ d = e ++ b).
Proof.
  revert c. induction a as [| x a IH]; intros c H.
  - left. exists c. auto.
  - destruct c as [| y c].
    + right. exists (String x a). auto.
    + simpl in H. inversion H as [[Hxy Hrest]]. subst y.
      destruct (IH c Hrest) as [[e [-> ->]] | [e [-> ->]]].
      * left. exists e. auto.
      * right. exists e. auto.
Qed.

Lemma all_chars_append (P : ascii -> Prop) (s1 s2 : string) :
  all_chars P (s1 ++ s2) <-> all_chars P s1 /\ all_chars P s2.
Proof.
  unfold all_chars. induction s1 as [| c s1 IH]; simpl.
  - split; [intros H; split; [constructor | exact H] | tauto].
  - split.
    + intros H. inversion H; subst. apply IH in H3. destruct H3.
      split; [constructor |]; assumption.
    + intros [H1 H2]. inversion H1; subst. constructor; [assumption |].
      apply IH. split; assumption.
Qed.

Lemma all_chars_cons (P : ascii -> Prop) (c : ascii) (s : string) :
  all_chars P (String c s) <-> P c /\ all_chars P s.
Proof.
  unfold all_chars. simpl. split.
  - intros H. inversion H. auto.
  - intros [H1 H2]. constructor; assumption.
Qed.

Lemma strip_prefix_append (p s : string) : strip_prefix p (p ++ s) = Some s.
Proof.
  induction p as [| c p IH]; simpl; [reflexivity |].
  now rewrite Ascii.eqb_refl.
Qed.

Lemma strip_prefix_Some (p s s' : string) :
  strip_prefix p s = Some s' -> s = p ++ s'.
Proof.
  revert s. induction p as [| c p IH]; simpl; intros s H.
  - now inversion H.
  - destruct s as [| b s]; [discriminate |].
    destruct (Ascii.eqb_spec c b) as [-> | Hne]; [| discriminate].
    now rewrite (IH _ H).
Qed.

Lemma substring_all (w s : string) :
  String.substring 0 (String.length w) (w ++ s) = w.
Proof.
  induction w as [| c w IH]; simpl.
  - now destruct s.
  - now rewrite IH.
Qed.

Lemma consumed_append (w s : string) : consumed (w ++ s) s = w.
Proof.
  unfold consumed. rewrite length_append.
  replace (String.length w + String.length s - String.length s)%nat
    with (String.length w) by lia.
  apply substring_all.
Qed.

End Strings.

(* ================================================================== *)
(** * The geometries *)

Section Geometries.

Lemma Position_cases (p : Z) :
  Position p -> p = 1 \/ p = 2 \/ p = 3 \/ p = 4 \/ p = 5 \/ p = 6.
Proof. unfold Position. lia. Qed.

Lemma Position_sites (p : Z) : Position p <-> In p sites.
Proof.
  split.
  - intros H. apply Position_cases in H. simpl. intuition.
  - simpl. unfold Position. intuition lia.
Qed.

(** The base geometry in closed form: the carbons, then one record per
    site, in site order. *)
Lemma gjf_all_atoms_sites (spec : list Z) :
  gjf_all_atoms spec =
  (C_ATOMS ++
   map (fun site => if contains site spec then Cl_record site
                    else H_record site) sites)%list.
Proof.
  unfold gjf_all_atoms.
  rewrite (fold_left_emit _
             (fun i => [if contains (i + 1) spec
                        then "Cl " ++ item SUBSTITUENT_COORDS i
                        else "H  " ++ item SUBSTITUENT_COORDS i])).
  - rewrite range_0_6. reflexivity.
  - intros acc i. unfold append.
    now destruct (contains (i + 1) spec).
Qed.

Lemma element_Cl_record (site : Z) : element (Cl_record site) = "Cl".
Proof. reflexivity. Qed.

Lemma element_H_record (site : Z) : element (H_record site) = "H".
Proof. reflexivity. Qed.

Lemma count_Cl_records (in_spec : Z -> bool) (l : list Z) :
  count_element "Cl"
    (map (fun site => if in_spec site then Cl_record site
                      else H_record site) l)
  = List.length (filter in_spec l).
Proof.
  unfold count_element. induction l as [| site l IH]; simpl.
  - reflexivity.
  - destruct (in_spec site).
    + rewrite element_Cl_record. simpl. now rewrite IH.
    + rewrite element_H_record. simpl. exact IH.
Qed.

Lemma count_H_records (in_spec : Z -> bool) (l : list Z) :
  count_element "H"
    (map (fun site => if in_spec site then Cl_record site
                      else H_record site) l)
  = List.length (filter (fun site => negb (in_spec site)) l).
Proof.
  unfold count_element. induction l as [| site l IH]; simpl.
  - reflexivity.
  - destruct (in_spec site).
    + rewrite element_Cl_record. simpl. exact IH.
    + rewrite element_H_record. simpl. now rewrite IH.
Qed.

Lemma filter_split_length {A : Type} (f : A -> bool) (l : list A) :
  (List.length (filter f l)
   + List.length (filter (fun x => negb (f x)) l))%nat = List.length l.
Proof.
  induction l as [| a l IH]; simpl.
  - reflexivity.
  - destruct (f a); simpl; lia.
Qed.

(** The sites that a spec lists are as many as its entries. *)
Lemma listed_sites_length (spec : list Z) :
  IsomerSpec spec ->
  List.length (filter (fun site => contains site spec) sites)
  = List.length spec.
Proof.
  intros [Hnd Hpos]. apply Permutation_length.
  apply NoDup_Permutation.
  - apply NoDup_filter. unfold sites.
    repeat (constructor; [simpl; intuition lia |]). constructor.
  - exact Hnd.
  - intros x. rewrite filter_In, contains_In, <- Position_sites.
    rewrite Forall_forall in Hpos. split; [tauto | auto].
Qed.

Lemma eqb_site_index (i removed : Z) :
  (i =? removed - 1) = (i + 1 =? removed).
Proof.
  destruct (Z.eqb_spec i (removed - 1)), (Z.eqb_spec (i + 1) removed);
    try reflexivity; lia.
Qed.

(** The emission of one site, by its index counted from 0 as the loops
    count, agrees with the specification's, counted from 1. *)
Lemma site_emission (spec : list Z) (removed i : Z) (acc : list string) :
  (if contains (i + 1) (filter (fun p => negb (p =? removed)) spec)
   then append acc ("Cl " ++ item SUBSTITUENT_COORDS i)
   else if i =? removed - 1 then acc
        else append acc ("H  " ++ item SUBSTITUENT_COORDS i))
  = (acc ++ intermediate_site spec removed (i + 1))%list.
Proof.
  unfold intermediate_site, append, Cl_record, H_record, site_coords.
  rewrite Z.add_simpl_r, eqb_site_index.
  destruct (contains (i + 1) _); [reflexivity |].
  destruct (i + 1 =? removed); [now rewrite app_nil_r | reflexivity].
Qed.

Lemma flat_map_shift {B : Type} (g : Z -> list B) :
  flat_map (fun i => g (i + 1)) (range 0 6) = flat_map g sites.
Proof. reflexivity. Qed.

Lemma anion_all_atoms_spec (spec : list Z) (removed : Z) :
  anion_all_atoms spec removed = intermediate_atoms spec removed.
Proof.
  unfold anion_all_atoms, intermediate_atoms.
  rewrite (fold_left_emit _ _ (fun acc i => site_emission spec removed i acc)).
  now rewrite flat_map_shift.
Qed.

Lemma radical_all_atoms_spec (spec : list Z) (removed : Z) :
  radical_all_atoms spec removed = intermediate_atoms spec removed.
Proof.
  unfold radical_all_atoms, intermediate_atoms.
  rewrite (fold_left_emit _ _ (fun acc i => site_emission spec removed i acc)).
  now rewrite flat_map_shift.
Qed.

(** An intermediate's geometry is the base geometry without the record
    of the removed site. *)
Lemma intermediate_atoms_kept (spec : list Z) (removed : Z) :
  intermediate_atoms spec removed =
  (C_ATOMS ++
   map (fun site => if contains site spec then Cl_record site
                    else H_record site)
       (filter (fun site => negb (site =? removed)) sites))%list.
Proof.
  unfold intermediate_atoms. f_equal.
  induction sites as [| site l IH]; simpl; [reflexivity |].
  rewrite IH. unfold intermediate_site.
  destruct (Z.eqb_spec site removed) as [-> | Hne]; simpl.
  - now rewrite removed_not_in_rest.
  - rewrite (contains_rest _ _ _ Hne). now destruct (contains site spec).
Qed.

Lemma kept_sites_length (removed : Z) :
  Position removed ->
  List.length (filter (fun site => negb (site =? removed)) sites) = 5%nat.
Proof.
  intros H. apply Position_cases in H.
  repeat (destruct H as [-> | H]; [reflexivity |]). now subst.
Qed.

Lemma intermediate_atoms_length (spec : list Z) (removed : Z) :
  Position removed ->
  List.length (intermediate_atoms spec removed) = 11%nat.
Proof.
  intros H. rewrite intermediate_atoms_kept, length_app, length_map.
  now rewrite (kept_sites_length _ H).
Qed.

Lemma intermediate_atoms_carbons (spec : list Z) (removed : Z) :
  firstn 6 (intermediate_atoms spec removed) = C_ATOMS.
Proof. now rewrite intermediate_atoms_kept. Qed.

(** No carbon record is the record of a substituent site. *)
Lemma carbon_not_site_record (record : string) (site : Z) :
  In record C_ATOMS ->
  record <> Cl_record site /\ record <> H_record site.
Proof.
  intros H. assert (E : element record = "C").
  { simpl in H. repeat (destruct H as [<- | H]; [reflexivity |]).
    contradiction. }
  split; intros ->; [rewrite element_Cl_record in E
                    | rewrite element_H_record in E]; discriminate.
Qed.

(** Two sites with the same coordinates are the same site. *)
Lemma site_coords_inj (s1 s2 : Z) :
  Position s1 -> Position s2 -> site_coords s1 = site_coords s2 -> s1 = s2.
Proof.
  intros H1 H2. apply Position_cases in H1, H2.
  repeat (destruct H1 as [-> | H1]);
    repeat (destruct H2 as [-> | H2]); try subst;
    intros E; try reflexivity; vm_compute in E; discriminate.
Qed.

Lemma site_record_coords (in1 in2 : bool) (s1 s2 : Z) :
  (if in1 then Cl_record s1 else H_record s1)
  = (if in2 then Cl_record s2 else H_record s2) ->
  site_coords s1 = site_coords s2.
Proof.
  unfold Cl_record, H_record.
  destruct in1, in2; simpl; intros E; now inversion E.
Qed.

(** The site that was removed has no record in the intermediate. *)
Lemma removed_site_absent (spec : list Z) (removed : Z) :
  Position removed ->
  ~ In (Cl_record removed) (intermediate_atoms spec removed) /\
  ~ In (H_record removed) (intermediate_atoms spec removed).
Proof.
  intros Hpos. rewrite intermediate_atoms_kept.
  assert (Hsite : forall (b : bool),
             ~ In (if b then Cl_record removed else H_record removed)
                  (map (fun site => if contains site spec then Cl_record site
                                    else H_record site)
                       (filter (fun site => negb (site =? removed)) sites))).
  { intros b Hin. apply in_map_iff in Hin. destruct Hin as [site [E Hin]].
    apply filter_In in Hin. destruct Hin as [Hin Hne].
    apply site_record_coords in E.
    apply site_coords_inj in E; [| now apply Position_sites | assumption].
    subst. rewrite Z.eqb_refl in Hne. discriminate. }
  split; intros Hin; apply in_app_or in Hin; destruct Hin as [Hc | Hs].
  - now apply (carbon_not_site_record _ removed) in Hc.
  - exact (Hsite true Hs).
  - now apply (carbon_not_site_record _ removed) in Hc.
  - exact (Hsite false Hs).
Qed.

(* ------------------------------------------------------------------ *)
(** ** The two loops *)

Lemma writes_app (t1 t2 : list event) :
  writes (t1 ++ t2) = (writes t1 ++ writes t2)%list.
Proof. unfold writes. apply flat_map_app. Qed.

(** Both loops are handled alike: the iteration is unfolded and the
    path and deck it computes are named. *)
Ltac open_iteration iteration entry :=
  unfold iteration;
  match goal with
  | |- context [entry ?dir ?spec ?removed] =>
      destruct (entry dir spec removed) as [path deck]
  end;
  simpl; unfold append.

Ltac loop_append iteration entry :=
  let IH := fresh "IH" in
  let st := fresh "st" in
  intros l; induction l as [| removed l IH]; intros st; simpl;
  [ now rewrite app_nil_r
  | rewrite IH; open_iteration iteration entry;
    now rewrite ?writes_app, <- app_assoc ].

Ltac loop_last iteration entry :=
  let IH := fresh "IH" in
  let st := fresh "st" in
  intros l; induction l as [| removed l IH]; intros st; [reflexivity |];
  simpl fold_left; rewrite IH; destruct l; [| reflexivity];
  simpl last; now open_iteration iteration entry.

Lemma anion_loop_results (dir : string) (spec : list Z) :
  forall l st,
    results (fold_left (anion_iteration dir spec) l st)
    = (results st ++ map (anion_entry dir spec) l)%list.
Proof. loop_append anion_iteration anion_entry. Qed.

Lemma radical_loop_results (dir : string) (spec : list Z) :
  forall l st,
    results (fold_left (radical_iteration dir spec) l st)
    = (results st ++ map (radical_entry dir spec) l)%list.
Proof. loop_append radical_iteration radical_entry. Qed.

Lemma anion_loop_writes (dir : string) (spec : list Z) :
  forall l st,
    writes (trace (fold_left (anion_iteration dir spec) l st))
    = (writes (trace st) ++ map (anion_entry dir spec) l)%list.
Proof. loop_append anion_iteration anion_entry. Qed.

Lemma radical_loop_writes (dir : string) (spec : list Z) :
  forall l st,
    writes (trace (fold_left (radical_iteration dir spec) l st))
    = (writes (trace st) ++ map (radical_entry dir spec) l)%list.
Proof. loop_append radical_iteration radical_entry. Qed.

(** After the loop [filepath] holds the path of the last iteration, and
    is still unbound when there was none. *)
Lemma anion_loop_filepath (dir : string) (spec : list Z) :
  forall l st,
    filepath (fold_left (anion_iteration dir spec) l st)
    = match l with
      | [] => filepath st
      | _ :: _ => Some (fst (anion_entry dir spec (last l 0)))
      end.
Proof. loop_last anion_iteration anion_entry. Qed.

Lemma radical_loop_filepath (dir : string) (spec : list Z) :
  forall l st,
    filepath (fold_left (radical_iteration dir spec) l st)
    = match l with
      | [] => filepath st
      | _ :: _ => Some (fst (radical_entry dir spec (last l 0)))
      end.
Proof. loop_last radical_iteration radical_entry. Qed.

(* ------------------------------------------------------------------ *)
(** ** Names *)

Lemma join_empty_cons (x : string) (xs : list string) :
  join "" (x :: xs) = x ++ join "" xs.
Proof.
  unfold join. destruct xs as [| y ys]; simpl.
  - now rewrite append_empty_r.
  - reflexivity.
Qed.

Lemma join_empty_app (xs ys : list string) :
  join "" (xs ++ ys) = join "" xs ++ join "" ys.
Proof.
  induction xs as [| x xs IH].
  - reflexivity.
  - rewrite <- app_comm_cons, !join_empty_cons, IH. now rewrite append_assoc.
Qed.

Lemma str_digit (p : Z) : 0 <= p <= 9 -> str p = digit p.
Proof.
  intros H.
  assert (E : p = 0 \/ p = 1 \/ p = 2 \/ p = 3 \/ p = 4 \/ p = 5 \/ p = 6
              \/ p = 7 \/ p = 8 \/ p = 9) by lia.
  repeat (destruct E as [-> | E]; [reflexivity |]). now subst.
Qed.

(** What one round of the naming loop adds for a site. *)
Lemma name_emission (spec : list Z) (removed i : Z) (parts : list string) :
  (if contains i spec
   then if i =? removed then append parts "_" else append parts (str i)
   else parts)
  = (parts ++ (fun i => if contains i spec
                        then [if i =? removed then "_" else str i]
                        else []) i)%list.
Proof.
  cbv beta. unfold append.
  destruct (contains i spec); [| now rewrite app_nil_r].
  now destruct (i =? removed).
Qed.

Lemma names_joined (spec : list Z) (removed : Z) (l : list Z) :
  Forall Position l ->
  join "" (flat_map (fun i => if contains i spec
                              then [if i =? removed then "_" else str i]
                              else []) l)
  = String.concat "" (map (name_mark spec removed) l).
Proof.
  induction 1 as [| i l Hi Hl IH]; [reflexivity |].
  cbn [flat_map map]. rewrite join_empty_app, IH.
  fold (join "" (name_mark spec removed i :: map (name_mark spec removed) l)).
  rewrite join_empty_cons. f_equal.
  unfold name_mark. destruct (contains i spec); [| reflexivity].
  destruct (i =? removed); [reflexivity |].
  rewrite join_empty_cons. unfold join. simpl. rewrite append_empty_r.
  apply str_digit. unfold Position in Hi. lia.
Qed.

Lemma sites_Position : Forall Position sites.
Proof. apply Forall_forall. intros p. apply Position_sites. Qed.

Lemma anion_pattern_spec (spec : list Z) (removed : Z) :
  anion_pattern spec removed = intermediate_name spec removed.
Proof.
  unfold anion_pattern, intermediate_name.
  rewrite (fold_left_emit _ _ (fun parts i => name_emission spec removed i parts)).
  rewrite range_1_7. apply (names_joined spec removed sites sites_Position).
Qed.

Lemma radical_pattern_spec (spec : list Z) (removed : Z) :
  radical_pattern spec removed = intermediate_name spec removed.
Proof.
  unfold radical_pattern, intermediate_name.
  rewrite (fold_left_emit _ _ (fun parts i => name_emission spec removed i parts)).
  rewrite range_1_7. apply (names_joined spec removed sites sites_Position).
Qed.

(** Each loop entry is the parametrised derivation at its state. *)
Lemma anion_entry_spec (dir : string) (spec : list Z) (removed : Z) :
  anion_entry dir spec removed = derive_intermediate Anion dir spec removed.
Proof.
  unfold anion_entry, derive_intermediate.
  now rewrite anion_pattern_spec, anion_all_atoms_spec.
Qed.

Lemma radical_entry_spec (dir : string) (spec : list Z) (removed : Z) :
  radical_entry dir spec removed
  = derive_intermediate NeutralRadical dir spec removed.
Proof.
  unfold radical_entry, derive_intermediate.
  now rewrite radical_pattern_spec, radical_all_atoms_spec.
Qed.

(** How a call of [generate_gjf_files] ends, and what it has done. *)
Lemma gjf_call (os : host) (environ : string -> option string)
      (spec : list Z) :
  let path :=
    os_path_join (output_dir environ) (gjf_filename_base spec ++ ".gjf") in
  snd (generate_gjf_files os environ spec)
  = through os (output_dir environ) path (path, gjf_content_of spec).
Proof.
  unfold generate_gjf_files, through. fold (output_dir environ).
  destruct (makedirs_refused os (output_dir environ)); [reflexivity |].
  destruct (open_refused os _); reflexivity.
Qed.

Lemma gjf_writes (os : host) (environ : string -> option string)
      (spec : list Z) :
  let path :=
    os_path_join (output_dir environ) (gjf_filename_base spec ++ ".gjf") in
  writes (fst (generate_gjf_files os environ spec))
  = match through os (output_dir environ) path tt with
    | Ok _ => [(path, gjf_content_of spec)]
    | Raised _ => []
    end.
Proof.
  unfold generate_gjf_files, through. fold (output_dir environ).
  destruct (makedirs_refused os (output_dir environ)); [reflexivity |].
  destruct (open_refused os _); reflexivity.
Qed.

Lemma anion_results (environ : string -> option string) (spec : list Z) :
  results (anion_loop environ spec)
  = map (anion_entry (output_dir environ) spec) spec.
Proof. unfold anion_loop. now rewrite anion_loop_results. Qed.

Lemma radical_results (environ : string -> option string) (spec : list Z) :
  results (radical_loop environ spec)
  = map (radical_entry (output_dir environ) spec) spec.
Proof. unfold radical_loop. now rewrite radical_loop_results. Qed.

(** When every file opens the loop runs through, and only then. *)
Lemma anion_rounds_open (os : host) (dir : string) (spec : list Z) :
  forall todo st,
    (forall r, In r todo ->
               open_refused os (fst (anion_entry dir spec r)) = None) ->
    anion_rounds os dir spec todo st
    = (fold_left (anion_iteration dir spec) todo st, None).
Proof.
  induction todo as [| r todo IH]; intros st Hopen; [reflexivity |].
  cbn [anion_rounds fold_left].
  rewrite (Hopen r (or_introl eq_refl)). apply IH.
  intros q Hq. apply Hopen. now right.
Qed.

Lemma anion_rounds_through (os : host) (dir : string) (spec : list Z) :
  forall todo st st',
    anion_rounds os dir spec todo st = (st', None) ->
    forall r, In r todo ->
              open_refused os (fst (anion_entry dir spec r)) = None.
Proof.
  induction todo as [| q todo IH]; intros st st' H r Hr; [contradiction |].
  cbn [anion_rounds] in H.
  destruct (open_refused os (fst (anion_entry dir spec q))) eqn:E;
    [discriminate |].
  destruct Hr as [<- | Hr]; [exact E | exact (IH _ _ H r Hr)].
Qed.

(** What ends the loop early is the [OSError] of a file, and no file
    has been written if it is the first one. *)
Lemma anion_rounds_raised (os : host) (dir : string) (spec : list Z) :
  forall todo st st' x,
    anion_rounds os dir spec todo st = (st', Some x) ->
    exists e, x = OSError e.
Proof.
  induction todo as [| q todo IH]; intros st st' x H; [discriminate |].
  cbn [anion_rounds] in H.
  destruct (open_refused os (fst (anion_entry dir spec q))) as [e |].
  - injection H as _ <-. now exists e.
  - exact (IH _ _ _ H).
Qed.

(** A call that the operating system lets through. *)
Lemma anion_call (os : host) (environ : string -> option string)
      (spec : list Z) :
  accepts os (output_dir environ)
          (map (fun r => fst (anion_entry (output_dir environ) spec r)) spec) ->
  generate_anion_intermediates os environ spec
  = (trace (anion_loop environ spec),
     match filepath (anion_loop environ spec) with
     | Some p => Ok p
     | None => Raised (UnboundLocalError "filepath")
     end).
Proof.
  intros [Hdir Hopen]. unfold generate_anion_intermediates, anion_loop.
  fold (output_dir environ). rewrite Hdir.
  rewrite anion_rounds_open; [reflexivity |].
  intros r Hr. apply Hopen.
  now apply (in_map (fun r => fst (anion_entry (output_dir environ) spec r))).
Qed.

Lemma anion_writes (os : host) (environ : string -> option string)
      (spec : list Z) :
  accepts os (output_dir environ)
          (map (fun r => fst (anion_entry (output_dir environ) spec r)) spec) ->
  writes (fst (generate_anion_intermediates os environ spec))
  = map (anion_entry (output_dir environ) spec) spec.
Proof.
  intros H. rewrite (anion_call os environ spec H).
  unfold anion_loop. cbn [fst]. now rewrite anion_loop_writes.
Qed.

Lemma anion_return (os : host) (environ : string -> option string)
      (spec : list Z) :
  accepts os (output_dir environ)
          (map (fun r => fst (anion_entry (output_dir environ) spec r)) spec) ->
  snd (generate_anion_intermediates os environ spec)
  = match spec with
    | [] => Raised (UnboundLocalError "filepath")
    | _ :: _ => Ok (fst (anion_entry (output_dir environ) spec (last spec 0)))
    end.
Proof.
  intros H. rewrite (anion_call os environ spec H).
  unfold anion_loop. cbn [snd]. rewrite anion_loop_filepath. now destruct spec.
Qed.

(** How a call ends, whatever the operating system answers. *)
Lemma anion_ends (os : host) (environ : string -> option string)
      (spec : list Z) :
  let dir := output_dir environ in
  let paths := map (fun r => fst (anion_entry dir spec r)) spec in
  ((exists path, snd (generate_anion_intermediates os environ spec) = Ok path)
   <-> spec <> [] /\ accepts os dir paths) /\
  (snd (generate_anion_intermediates os environ spec) = Raised (UnboundLocalError "filepath")
   <-> spec = [] /\ makedirs_refused os dir = None).
Proof.
  intros dir paths. subst paths dir. split; split.
  - intros [path Hok]. unfold generate_anion_intermediates in Hok.
    fold (output_dir environ) in Hok.
    destruct (makedirs_refused os (output_dir environ)) eqn:Hdir;
      [discriminate |].
    destruct (anion_rounds os (output_dir environ) spec spec _)
      as [st raised] eqn:Hrounds.
    destruct raised as [x |]; [discriminate |]. cbn [snd] in Hok.
    split.
    + intros ->. cbn [anion_rounds] in Hrounds.
      injection Hrounds as <-. discriminate.
    + split; [exact Hdir |]. intros p Hp. apply in_map_iff in Hp.
      destruct Hp as [r [<- Hr]].
      exact (anion_rounds_through os _ spec spec _ _ Hrounds r Hr).
  - intros [Hne Hacc]. rewrite (anion_return os environ spec Hacc).
    destruct spec; [congruence | eauto].
  - intros Hraised. unfold generate_anion_intermediates in Hraised.
    fold (output_dir environ) in Hraised.
    destruct (makedirs_refused os (output_dir environ)) eqn:Hdir;
      [discriminate |].
    destruct (anion_rounds os (output_dir environ) spec spec _)
      as [st raised] eqn:Hrounds.
    destruct raised as [x |]; cbn [snd] in Hraised.
    + destruct (anion_rounds_raised os _ spec spec _ _ _ Hrounds)
        as [e ->].
      discriminate.
    + split; [| reflexivity]. destruct spec as [| r l]; [reflexivity |].
      exfalso. remember (r :: l) as todo eqn:Htodo.
      pose proof (anion_rounds_open os (output_dir environ) todo todo
                    {| results := []; filepath := None;
                       trace := [MakeDirs (output_dir environ)] |}
                    (anion_rounds_through os _ _ _ _ _ Hrounds)) as Hopen.
      rewrite Hrounds in Hopen. injection Hopen as ->.
      rewrite anion_loop_filepath in Hraised. subst todo.
      discriminate.
  - intros [-> Hdir]. unfold generate_anion_intermediates.
    fold (output_dir environ).
    now rewrite Hdir.
Qed.

(** A directory that cannot be made ends the call before anything is
    done. *)
Lemma anion_no_directory (os : host) (environ : string -> option string)
      (spec : list Z) (e : string) :
  makedirs_refused os (output_dir environ) = Some e ->
  generate_anion_intermediates os environ spec = ([], Raised (OSError e)).
Proof.
  intros H. unfold generate_anion_intermediates. fold (output_dir environ). now rewrite H.
Qed.

(** When every file opens the loop runs through, and only then. *)
Lemma radical_rounds_open (os : host) (dir : string) (spec : list Z) :
  forall todo st,
    (forall r, In r todo ->
               open_refused os (fst (radical_entry dir spec r)) = None) ->
    radical_rounds os dir spec todo st
    = (fold_left (radical_iteration dir spec) todo st, None).
Proof.
  induction todo as [| r todo IH]; intros st Hopen; [reflexivity |].
  cbn [radical_rounds fold_left].
  rewrite (Hopen r (or_introl eq_refl)). apply IH.
  intros q Hq. apply Hopen. now right.
Qed.

Lemma radical_rounds_through (os : host) (dir : string) (spec : list Z) :
  forall todo st st',
    radical_rounds os dir spec todo st = (st', None) ->
    forall r, In r todo ->
              open_refused os (fst (radical_entry dir spec r)) = None.
Proof.
  induction todo as [| q todo IH]; intros st st' H r Hr; [contradiction |].
  cbn [radical_rounds] in H.
  destruct (open_refused os (fst (radical_entry dir spec q))) eqn:E;
    [discriminate |].
  destruct Hr as [<- | Hr]; [exact E | exact (IH _ _ H r Hr)].
Qed.

(** What ends the loop early is the [OSError] of a file, and no file
    has been written if it is the first one. *)
Lemma radical_rounds_raised (os : host) (dir : string) (spec : list Z) :
  forall todo st st' x,
    radical_rounds os dir spec todo st = (st', Some x) ->
    exists e, x = OSError e.
Proof.
  induction todo as [| q todo IH]; intros st st' x H; [discriminate |].
  cbn [radical_rounds] in H.
  destruct (open_refused os (fst (radical_entry dir spec q))) as [e |].
  - injection H as _ <-. now exists e.
  - exact (IH _ _ _ H).
Qed.

(** A call that the operating system lets through. *)
Lemma radical_call (os : host) (environ : string -> option string)
      (spec : list Z) :
  accepts os (output_dir environ)
          (map (fun r => fst (radical_entry (output_dir environ) spec r)) spec) ->
  generate_neutral_radicals_intermediates os environ spec
  = (trace (radical_loop environ spec),
     match filepath (radical_loop environ spec) with
     | Some p => Ok p
     | None => Raised (UnboundLocalError "filepath")
     end).
Proof.
  intros [Hdir Hopen]. unfold generate_neutral_radicals_intermediates, radical_loop.
  fold (output_dir environ). rewrite Hdir.
  rewrite radical_rounds_open; [reflexivity |].
  intros r Hr. apply Hopen.
  now apply (in_map (fun r => fst (radical_entry (output_dir environ) spec r))).
Qed.

Lemma radical_writes (os : host) (environ : string -> option string)
      (spec : list Z) :
  accepts os (output_dir environ)
          (map (fun r => fst (radical_entry (output_dir environ) spec r)) spec) ->
  writes (fst (generate_neutral_radicals_intermediates os environ spec))
  = map (radical_entry (output_dir environ) spec) spec.
Proof.
  intros H. rewrite (radical_call os environ spec H).
  unfold radical_loop. cbn [fst]. now rewrite radical_loop_writes.
Qed.

Lemma radical_return (os : host) (environ : string -> option string)
      (spec : list Z) :
  accepts os (output_dir environ)
          (map (fun r => fst (radical_entry (output_dir environ) spec r)) spec) ->
  snd (generate_neutral_radicals_intermediates os environ spec)
  = match spec with
    | [] => Raised (UnboundLocalError "filepath")
    | _ :: _ => Ok (fst (radical_entry (output_dir environ) spec (last spec 0)))
    end.
Proof.
  intros H. rewrite (radical_call os environ spec H).
  unfold radical_loop. cbn [snd]. rewrite radical_loop_filepath. now destruct spec.
Qed.

(** How a call ends, whatever the operating system answers. *)
Lemma radical_ends (os : host) (environ : string -> option string)
      (spec : list Z) :
  let dir := output_dir environ in
  let paths := map (fun r => fst (radical_entry dir spec r)) spec in
  ((exists path, snd (generate_neutral_radicals_intermediates os environ spec) = Ok path)
   <-> spec <> [] /\ accepts os dir paths) /\
  (snd (generate_neutral_radicals_intermediates os environ spec) = Raised (UnboundLocalError "filepath")
   <-> spec = [] /\ makedirs_refused os dir = None).
Proof.
  intros dir paths. subst paths dir. split; split.
  - intros [path Hok]. unfold generate_neutral_radicals_intermediates in Hok.
    fold (output_dir environ) in Hok.
    destruct (makedirs_refused os (output_dir environ)) eqn:Hdir;
      [discriminate |].
    destruct (radical_rounds os (output_dir environ) spec spec _)
      as [st raised] eqn:Hrounds.
    destruct raised as [x |]; [discriminate |]. cbn [snd] in Hok.
    split.
    + intros ->. cbn [radical_rounds] in Hrounds.
      injection Hrounds as <-. discriminate.
    + split; [exact Hdir |]. intros p Hp. apply in_map_iff in Hp.
      destruct Hp as [r [<- Hr]].
      exact (radical_rounds_through os _ spec spec _ _ Hrounds r Hr).
  - intros [Hne Hacc]. rewrite (radical_return os environ spec Hacc).
    destruct spec; [congruence | eauto].
  - intros Hraised. unfold generate_neutral_radicals_intermediates in Hraised.
    fold (output_dir environ) in Hraised.
    destruct (makedirs_refused os (output_dir environ)) eqn:Hdir;
      [discriminate |].
    destruct (radical_rounds os (output_dir environ) spec spec _)
      as [st raised] eqn:Hrounds.
    destruct raised as [x |]; cbn [snd] in Hraised.
    + destruct (radical_rounds_raised os _ spec spec _ _ _ Hrounds)
        as [e ->].
      discriminate.
    + split; [| reflexivity]. destruct spec as [| r l]; [reflexivity |].
      exfalso. remember (r :: l) as todo eqn:Htodo.
      pose proof (radical_rounds_open os (output_dir environ) todo todo
                    {| results := []; filepath := None;
                       trace := [MakeDirs (output_dir environ)] |}
                    (radical_rounds_through os _ _ _ _ _ Hrounds)) as Hopen.
      rewrite Hrounds in Hopen. injection Hopen as ->.
      rewrite radical_loop_filepath in Hraised. subst todo.
      discriminate.
  - intros [-> Hdir]. unfold generate_neutral_radicals_intermediates.
    fold (output_dir environ).
    now rewrite Hdir.
Qed.

(** A directory that cannot be made ends the call before anything is
    done. *)
Lemma radical_no_directory (os : host) (environ : string -> option string)
      (spec : list Z) (e : string) :
  makedirs_refused os (output_dir environ) = Some e ->
  generate_neutral_radicals_intermediates os environ spec = ([], Raised (OSError e)).
Proof.
  intros H. unfold generate_neutral_radicals_intermediates. fold (output_dir environ). now rewrite H.
Qed.

(* ------------------------------------------------------------------ *)
(** ** The paths of the intermediates of one isomer differ *)

Lemma name_mark_cases (spec : list Z) (removed site : Z) :
  Position site ->
  name_mark spec removed site = "" \/
  exists c, name_mark spec removed site = String c "" /\ c <> "/"%char.
Proof.
  intros H. unfold name_mark.
  destruct (contains site spec); [| now left]. right.
  destruct (site =? removed); [exists "_"%char; split; [reflexivity | discriminate] |].
  apply Position_cases in H.
  repeat (destruct H as [-> | H];
          [eexists; split; [reflexivity | discriminate] |]).
  subst. eexists; split; [reflexivity | discriminate].
Qed.

Lemma name_mark_length (spec : list Z) (r1 r2 site : Z) :
  Position site ->
  String.length (name_mark spec r1 site)
  = String.length (name_mark spec r2 site).
Proof.
  intros H. unfold name_mark.
  destruct (contains site spec); [| reflexivity].
  now destruct (site =? r1), (site =? r2).
Qed.

Lemma marks_equal (spec : list Z) (r1 r2 : Z) (l : list Z) :
  Forall Position l ->
  join "" (map (name_mark spec r1) l) = join "" (map (name_mark spec r2) l) ->
  forall site, In site l -> name_mark spec r1 site = name_mark spec r2 site.
Proof.
  induction 1 as [| s l Hs Hl IH]; intros Heq site Hin; [contradiction |].
  cbn [map] in Heq. rewrite !join_empty_cons in Heq.
  apply append_same_length in Heq; [| now apply name_mark_length].
  destruct Heq as [Hhead Htail].
  destruct Hin as [<- | Hin]; [exact Hhead | now apply IH].
Qed.

Lemma intermediate_name_inj (spec : list Z) (r1 r2 : Z) :
  In r1 spec -> Position r1 ->
  intermediate_name spec r1 = intermediate_name spec r2 -> r1 = r2.
Proof.
  intros Hin Hpos Heq.
  pose proof (marks_equal spec r1 r2 sites sites_Position Heq r1
                (proj1 (Position_sites r1) Hpos)) as H.
  unfold name_mark in H. apply contains_In in Hin.
  rewrite Hin, Z.eqb_refl in H.
  destruct (Z.eqb_spec r1 r2) as [E | _]; [exact E |].
  exfalso. apply Position_cases in Hpos.
  repeat (destruct Hpos as [-> | Hpos]; [discriminate H |]).
  subst. discriminate H.
Qed.

Lemma name_not_absolute (spec : list Z) (removed : Z) (tail : string) :
  startswith tail "/" = false ->
  startswith (intermediate_name spec removed ++ tail) "/" = false.
Proof.
  intros Htail. unfold intermediate_name.
  fold (join "" (map (name_mark spec removed) sites)).
  induction sites_Position as [| s l Hs Hl IH]; [exact Htail |].
  cbn [map]. rewrite join_empty_cons, append_assoc.
  destruct (name_mark_cases spec removed s Hs) as [-> | [c [-> Hc]]];
    [exact IH |].
  unfold startswith. cbn [String.append String.prefix].
  destruct (ascii_dec "/" c); [congruence | reflexivity].
Qed.

Lemma os_path_join_inj (dir b1 b2 : string) :
  startswith b1 "/" = false -> startswith b2 "/" = false ->
  os_path_join dir b1 = os_path_join dir b2 -> b1 = b2.
Proof.
  unfold os_path_join. intros -> ->.
  destruct (String.eqb dir "" || endswith dir "/"); intros H.
  - now apply append_cancel_l in H.
  - now do 2 apply append_cancel_l in H.
Qed.

Lemma derived_paths_differ (st : ElectronicState) (dir : string)
      (spec : list Z) :
  IsomerSpec spec ->
  NoDup (map fst (map (derive_intermediate st dir spec) spec)).
Proof.
  intros [Hnd Hpos]. rewrite Forall_forall in Hpos. rewrite map_map.
  apply NoDup_map_NoDup_ForallPairs; [| exact Hnd].
  intros r1 r2 Hr1 Hr2 Heq. unfold derive_intermediate in Heq.
  cbn [fst] in Heq. rewrite !append_assoc in Heq.
  apply os_path_join_inj in Heq;
    try (apply name_not_absolute; now destruct st).
  apply append_cancel_r in Heq.
  now apply (intermediate_name_inj spec r1 r2 Hr1 (Hpos r1 Hr1)).
Qed.

(** What the atom list of an intermediate looks like when the removed
    entry is a Position. *)
Lemma intermediate_shape (spec : list Z) (removed : Z) :
  Position removed ->
  List.length (intermediate_atoms spec removed) = 11%nat /\
  firstn 6 (intermediate_atoms spec removed) = C_ATOMS /\
  List.length (skipn 6 (intermediate_atoms spec removed)) = 5%nat /\
  ~ In (Cl_record removed) (intermediate_atoms spec removed) /\
  ~ In (H_record removed) (intermediate_atoms spec removed).
Proof.
  intros H. pose proof (removed_site_absent spec removed H) as [HCl HH].
  repeat split; auto using intermediate_atoms_length, intermediate_atoms_carbons.
  rewrite length_skipn, (intermediate_atoms_length _ _ H). reflexivity.
Qed.



(** C2. For an IsomerSpec of size k the deck that [generate_gjf_files]
    writes holds 12 atom records: the 6 fixed carbon records first, then
    one record per site in the order 1..6, a "Cl" record exactly at the
    sites the spec lists and an "H" record at the others, each with the
    coordinates of the site table unchanged; k of the last six are "Cl"
    and 6-k are "H".  That deck is the one file of the call when the
    operating system lets it through; otherwise nothing is written. *)
Theorem base_isomer_geometry
        (os : host) (environ : string -> option string)
        (spec : list Z) (k : nat) :
  IsomerSpec spec -> List.length spec = k ->
  let atoms := gjf_all_atoms spec in
  (exists path header,
      writes (fst (generate_gjf_files os environ spec))
      = match through os (output_dir environ) path tt with
        | Ok _ => [(path, header ++ join nl atoms ++ nl ++ nl)]
        | Raised _ => []
        end) /\
  List.length atoms = 12%nat /\
  firstn 6 atoms = C_ATOMS /\
  (forall site, Position site ->
     (In site spec ->
      nth (Z.to_nat (site + 5)) atoms "" = "Cl " ++ site_coords site) /\
     (~ In site spec ->
      nth (Z.to_nat (site + 5)) atoms "" = "H  " ++ site_coords site)) /\
  count_element "Cl" (skipn 6 atoms) = k /\
  count_element "H" (skipn 6 atoms) = (6 - k)%nat.
Proof.
  intros Hspec Hlen atoms.
  split.
  { exists (os_path_join (output_dir environ)
                         (gjf_filename_base spec ++ ".gjf")).
    eexists. unfold generate_gjf_files, through.
    fold (output_dir environ).
    destruct (makedirs_refused os (output_dir environ)); [reflexivity |].
    destruct (open_refused os _); reflexivity. }
  subst atoms. rewrite gjf_all_atoms_sites.
  split; [reflexivity |]. split; [reflexivity |].
  pose proof (listed_sites_length spec Hspec) as Hlisted.
  pose proof (filter_split_length (fun site => contains site spec) sites)
    as Hsplit.
  split; [| split].
  - intros site Hsite. apply Position_cases in Hsite.
    split; intros Hin.
    + apply contains_In in Hin.
      repeat (destruct Hsite as [-> | Hsite];
              [simpl; now rewrite Hin |]).
      subst. simpl. now rewrite Hin.
    + apply contains_false in Hin.
      repeat (destruct Hsite as [-> | Hsite];
              [simpl; now rewrite Hin |]).
      subst. simpl. now rewrite Hin.
  - change (skipn 6 (C_ATOMS ++ ?l)%list) with l.
    rewrite count_Cl_records. congruence.
  - change (skipn 6 (C_ATOMS ++ ?l)%list) with l.
    rewrite count_H_records.
    change (List.length sites) with 6%nat in Hsplit. cbv beta in Hsplit.
    rewrite Hlisted, Hlen in Hsplit. rewrite <- Hsplit. lia.
Qed.

Lemma base_isomer_geometry_witness :
  count_element "Cl" (skipn 6 (gjf_all_atoms [1; 3; 5])) = 3%nat /\
  count_element "H" (skipn 6 (gjf_all_atoms [1; 3; 5])) = 3%nat.
Proof.
  assert (Hspec : IsomerSpec [1; 3; 5]).
  { split.
    - repeat (constructor; [simpl; intuition lia |]). constructor.
    - unfold Position. repeat constructor; lia. }
  exact (proj2 (proj2 (proj2 (proj2
           (base_isomer_geometry posix_host no_env [1; 3; 5] 3 Hspec eq_refl))))).
Defined.

(** C3, as the code has it. For a position list with the single
    Position p, either intermediate generator yields exactly one
    intermediate; its atom list holds the 6 carbon records followed by
    the "H" records of the five sites other than p, 11 records in all,
    none of them a "Cl" record. *)
Theorem single_substituent_intermediate
        (environ : string -> option string) (p : Z) :
  Position p ->
  let dir := output_dir environ in
  let others := filter (fun site => negb (site =? p)) sites in
  (results (anion_loop environ [p]) = [anion_entry dir [p] p] /\
   anion_all_atoms [p] p = (C_ATOMS ++ map H_record others)%list) /\
  (results (radical_loop environ [p]) = [radical_entry dir [p] p] /\
   radical_all_atoms [p] p = (C_ATOMS ++ map H_record others)%list) /\
  List.length others = 5%nat /\
  List.length (C_ATOMS ++ map H_record others) = 11%nat /\
  count_element "Cl" (C_ATOMS ++ map H_record others) = 0%nat /\
  count_element "H" (C_ATOMS ++ map H_record others) = 5%nat.
Proof.
  intros Hp dir others.
  assert (Hatoms : intermediate_atoms [p] p
                   = (C_ATOMS ++ map H_record others)%list).
  { rewrite intermediate_atoms_kept. f_equal. subst others.
    apply map_ext_in. intros site Hin. apply filter_In in Hin.
    destruct Hin as [_ Hne]. simpl. rewrite orb_false_r.
    apply negb_true_iff in Hne. now rewrite Hne. }
  split; [| split].
  - split; [apply anion_results | now rewrite anion_all_atoms_spec].
  - split; [apply radical_results | now rewrite radical_all_atoms_spec].
  - subst others. apply Position_cases in Hp.
    repeat (destruct Hp as [-> | Hp]; [repeat split; reflexivity |]).
    subst. repeat split; reflexivity.
Qed.

Lemma single_substituent_intermediate_witness :
  anion_all_atoms [1] 1
  = (C_ATOMS ++ map H_record [2; 3; 4; 5; 6])%list.
Proof.
  assert (Hp : Position 1) by (unfold Position; lia).
  exact (proj2 (proj1 (single_substituent_intermediate no_env 1 Hp))).
Defined.

(** C3, as the claim has it, fails: the one intermediate of the position
    list (1) does not consist of the 6 carbon records only. *)
Lemma single_substituent_not_bare_ring :
  ~ (anion_all_atoms [1] 1 = C_ATOMS) /\
  ~ (radical_all_atoms [1] 1 = C_ATOMS).
Proof. split; intros H; vm_compute in H; discriminate. Qed.

(** C4. For a position list and a removed entry p of it, the name of the
    intermediate is made by going through the site indices 1..6: the
    digit for an index of the list other than p, an underscore for p,
    nothing for an index that is not in the list; the state suffix comes
    after it.  So (1,2,3,4,5) with Position 3 removed gives the anion
    file name base "12_45ClBzAnionIntermediate".  The file of that name
    is among those written when the operating system lets the call
    through. *)
Theorem intermediate_naming
        (os : host) (environ : string -> option string)
        (spec : list Z) (p : Z) :
  In p spec ->
  let dir := output_dir environ in
  let name := intermediate_name spec p in
  anion_pattern spec p = name /\
  radical_pattern spec p = name /\
  fst (anion_entry dir spec p)
  = os_path_join dir ((name ++ "ClBzAnionIntermediate") ++ ".gjf") /\
  fst (radical_entry dir spec p)
  = os_path_join dir ((name ++ "ClBzNeutralRadical") ++ ".gjf") /\
  (accepts os dir (map (fun r => fst (anion_entry dir spec r)) spec) ->
   In (fst (anion_entry dir spec p))
      (map fst
         (writes (fst (generate_anion_intermediates os environ spec))))) /\
  (accepts os dir (map (fun r => fst (radical_entry dir spec r)) spec) ->
   In (fst (radical_entry dir spec p))
      (map fst
         (writes
            (fst (generate_neutral_radicals_intermediates os environ
                    spec))))) /\
  anion_pattern [1; 2; 3; 4; 5] 3 ++ "ClBzAnionIntermediate"
  = "12_45ClBzAnionIntermediate".
Proof.
  intros Hin dir name. subst name.
  split; [apply anion_pattern_spec |].
  split; [apply radical_pattern_spec |].
  split; [unfold anion_entry; simpl; now rewrite anion_pattern_spec |].
  split; [unfold radical_entry; simpl; now rewrite radical_pattern_spec |].
  split; [intros Hacc; rewrite (anion_writes os environ spec Hacc);
          now apply in_map, in_map |].
  split; [intros Hacc; rewrite (radical_writes os environ spec Hacc);
          now apply in_map, in_map |].
  reflexivity.
Qed.

Lemma intermediate_naming_witness :
  fst (anion_entry "geometry_input" [1; 2; 3; 4; 5] 3)
  = "geometry_input/12_45ClBzAnionIntermediate.gjf".
Proof.
  assert (Hin : In 3 [1; 2; 3; 4; 5]) by (simpl; auto).
  exact (proj1 (proj2 (proj2
           (intermediate_naming posix_host no_env [1; 2; 3; 4; 5] 3
                                Hin)))).
Defined.

(** C5. For every position list and removed entry the anion and the
    neutral-radical derivation build the same atom list and the same name
    pattern, and each is the one parametrised derivation at its state:
    the two decks have the same text except for the file-name suffix
    ("ClBzAnionIntermediate" or "ClBzNeutralRadical"), the head of the
    title, and the charge and multiplicity line ("-1 0" or "0 2"). *)
Theorem intermediates_differ_by_state
        (environ : string -> option string) (spec : list Z) (removed : Z) :
  let dir := output_dir environ in
  let name := intermediate_name spec removed in
  let body := join nl (intermediate_atoms spec removed) ++ nl ++ nl in
  let deck (suffix title_head charge_line : string) :=
    "%mem=8GB" ++ nl ++ "%nprocshare=4" ++ nl ++
    "%chk=geometry_chks/" ++ name ++ suffix ++ ".chk" ++ nl ++
    "# opt am1" ++ nl ++ nl ++
    title_head ++ " (removed " ++ str removed ++ ") " ++ name ++ nl ++ nl ++
    charge_line ++ nl ++ body in
  anion_all_atoms spec removed = radical_all_atoms spec removed /\
  anion_all_atoms spec removed = intermediate_atoms spec removed /\
  anion_pattern spec removed = radical_pattern spec removed /\
  anion_entry dir spec removed = derive_intermediate Anion dir spec removed /\
  radical_entry dir spec removed
  = derive_intermediate NeutralRadical dir spec removed /\
  anion_entry dir spec removed
  = (os_path_join dir (name ++ "ClBzAnionIntermediate" ++ ".gjf"),
     deck "ClBzAnionIntermediate" "Anion Intermediate" "-1 0") /\
  radical_entry dir spec removed
  = (os_path_join dir (name ++ "ClBzNeutralRadical" ++ ".gjf"),
     deck "ClBzNeutralRadical" "Neutral Radical" "0 2") /\
  results (anion_loop environ spec)
  = map (derive_intermediate Anion dir spec) spec /\
  results (radical_loop environ spec)
  = map (derive_intermediate NeutralRadical dir spec) spec.
Proof.
  intros dir name body deck.
  split; [now rewrite anion_all_atoms_spec, radical_all_atoms_spec |].
  split; [apply anion_all_atoms_spec |].
  split; [now rewrite anion_pattern_spec, radical_pattern_spec |].
  split; [apply anion_entry_spec |].
  split; [apply radical_entry_spec |].
  split; [| split; [| split]].
  - rewrite anion_entry_spec. unfold derive_intermediate, GAUSSIAN_HEADER.
    subst deck body name. cbn [state_suffix state_title state_charge
                               state_multiplicity].
    now rewrite !append_assoc.
  - rewrite radical_entry_spec. unfold derive_intermediate, GAUSSIAN_HEADER.
    subst deck body name. cbn [state_suffix state_title state_charge
                               state_multiplicity].
    now rewrite !append_assoc.
  - rewrite anion_results. apply map_ext. intros r. apply anion_entry_spec.
  - rewrite radical_results. apply map_ext. intros r. apply radical_entry_spec.
Qed.

(** C6. For each of the 12 position lists of [CHLORINE_POSITIONS], the
    digits read from the base isomer's name, the text before "ClBz", are
    the list itself; the list (1,3,5) has the name "135ClBz".  The call
    returns the path made of that name, unless an [OSError] ends it. *)
Theorem base_name_round_trip
        (os : host) (environ : string -> option string) (spec : list Z) :
  In spec CHLORINE_POSITIONS ->
  (let path :=
     os_path_join (output_dir environ) (gjf_filename_base spec ++ ".gjf") in
   snd (generate_gjf_files os environ spec)
   = through os (output_dir environ) path (path, gjf_content_of spec)) /\
  name_positions (gjf_filename_base spec) = Some spec /\
  gjf_filename_base [1; 3; 5] = "135ClBz".
Proof.
  intros Hin. split; [apply gjf_call |]. split; [| reflexivity].
  unfold CHLORINE_POSITIONS in Hin. simpl in Hin.
  repeat (destruct Hin as [<- | Hin]; [reflexivity |]). contradiction.
Qed.

Lemma base_name_round_trip_witness :
  name_positions (gjf_filename_base [1; 3; 5]) = Some [1; 3; 5].
Proof.
  assert (Hin : In [1; 3; 5] CHLORINE_POSITIONS).
  { unfold CHLORINE_POSITIONS. simpl. auto 10. }
  exact (proj1 (proj2 (base_name_round_trip posix_host no_env [1; 3; 5] Hin))).
Defined.

(** C9. For a non-empty position list each intermediate generator,
    when the operating system lets the call through, returns one string:
    the path of the deck it has written last.  It has written one deck
    per entry of the list, and has accumulated their (path, deck) pairs
    in [results]; that list is not what it returns. *)
Theorem only_last_path_returned
        (os : host) (environ : string -> option string) (spec : list Z) :
  spec <> [] ->
  let dir := output_dir environ in
  (accepts os dir (map (fun r => fst (anion_entry dir spec r)) spec) ->
   let run := generate_anion_intermediates os environ spec in
   snd run = Ok (fst (anion_entry dir spec (last spec 0))) /\
   writes (fst run) = map (anion_entry dir spec) spec /\
   List.length (writes (fst run)) = List.length spec /\
   snd run = Ok (fst (last (writes (fst run)) ("", ""))) /\
   results (anion_loop environ spec) = writes (fst run)) /\
  (accepts os dir (map (fun r => fst (radical_entry dir spec r)) spec) ->
   let run := generate_neutral_radicals_intermediates os environ spec in
   snd run = Ok (fst (radical_entry dir spec (last spec 0))) /\
   writes (fst run) = map (radical_entry dir spec) spec /\
   List.length (writes (fst run)) = List.length spec /\
   snd run = Ok (fst (last (writes (fst run)) ("", ""))) /\
   results (radical_loop environ spec) = writes (fst run)).
Proof.
  intros Hne dir.
  assert (Hlast : forall (B : Type) (f : Z -> B) (d : B),
             last (map f spec) d = f (last spec 0)).
  { intros B f d. destruct (exists_last Hne) as [l [r ->]].
    rewrite map_app. cbn [map]. now rewrite !last_last. }
  split; intros Hacc run; subst run.
  - assert (Ha : snd (generate_anion_intermediates os environ spec)
                 = Ok (fst (anion_entry dir spec (last spec 0)))).
    { rewrite (anion_return os environ spec Hacc).
      destruct spec; [congruence | reflexivity]. }
    rewrite Ha, (anion_writes os environ spec Hacc), anion_results.
    rewrite length_map, Hlast. auto.
  - assert (Hr : snd (generate_neutral_radicals_intermediates os environ spec)
                 = Ok (fst (radical_entry dir spec (last spec 0)))).
    { rewrite (radical_return os environ spec Hacc).
      destruct spec; [congruence | reflexivity]. }
    rewrite Hr, (radical_writes os environ spec Hacc), radical_results.
    rewrite length_map, Hlast. auto.
Qed.

Lemma only_last_path_returned_witness :
  snd (generate_anion_intermediates posix_host no_env [1; 2; 3])
  = Ok (fst (anion_entry "geometry_input" [1; 2; 3] 3)) /\
  List.length
    (writes (fst (generate_anion_intermediates posix_host no_env [1; 2; 3])))
  = 3%nat.
Proof.
  assert (Hne : [1; 2; 3] <> []) by discriminate.
  assert (Hacc : accepts posix_host (output_dir no_env)
                   (map (fun r => fst (anion_entry (output_dir no_env)
                                          [1; 2; 3] r)) [1; 2; 3])).
  { split; [reflexivity | intros path _; reflexivity]. }
  pose proof (proj1 (only_last_path_returned posix_host no_env [1; 2; 3]
                       Hne) Hacc) as [Hret [_ [Hlen _]]].
  split; [exact Hret | exact Hlen].
Defined.

(** C10. On the empty position list each intermediate generator writes
    no file and does not return normally, whatever the operating system
    answers: when the output directory has been made the loop does
    nothing, [filepath] is still unbound at the [return] and the call
    raises [UnboundLocalError]; when the directory cannot be made the
    [OSError] of [os.makedirs] has ended the call before, for every
    list.  A call returns normally exactly when the list is not empty
    and the operating system makes the directory and opens the files;
    it raises [UnboundLocalError] exactly when the list is empty and the
    directory has been made. *)
Theorem empty_spec_raises
        (os : host) (environ : string -> option string) :
  let dir := output_dir environ in
  (writes (fst (generate_anion_intermediates os environ [])) = [] /\
   (forall path, snd (generate_anion_intermediates os environ []) <> Ok path) /\
   (makedirs_refused os dir = None ->
    generate_anion_intermediates os environ []
    = ([MakeDirs dir], Raised (UnboundLocalError "filepath"))) /\
   (forall e spec,
       makedirs_refused os dir = Some e ->
       generate_anion_intermediates os environ spec
       = ([], Raised (OSError e))) /\
   (forall spec,
       (exists path, snd (generate_anion_intermediates os environ spec)
                     = Ok path)
       <-> spec <> [] /\
           accepts os dir (map (fun r => fst (anion_entry dir spec r)) spec)) /\
   (forall spec,
       snd (generate_anion_intermediates os environ spec)
       = Raised (UnboundLocalError "filepath")
       <-> spec = [] /\ makedirs_refused os dir = None)) /\
  (writes (fst (generate_neutral_radicals_intermediates os environ [])) = [] /\
   (forall path,
       snd (generate_neutral_radicals_intermediates os environ [])
       <> Ok path) /\
   (makedirs_refused os dir = None ->
    generate_neutral_radicals_intermediates os environ []
    = ([MakeDirs dir], Raised (UnboundLocalError "filepath"))) /\
   (forall e spec,
       makedirs_refused os dir = Some e ->
       generate_neutral_radicals_intermediates os environ spec
       = ([], Raised (OSError e))) /\
   (forall spec,
       (exists path,
           snd (generate_neutral_radicals_intermediates os environ spec)
           = Ok path)
       <-> spec <> [] /\
           accepts os dir
                   (map (fun r => fst (radical_entry dir spec r)) spec)) /\
   (forall spec,
       snd (generate_neutral_radicals_intermediates os environ spec)
       = Raised (UnboundLocalError "filepath")
       <-> spec = [] /\ makedirs_refused os dir = None)).
Proof.
  intros dir. subst dir. split.
  - split; [| split; [| split; [| split; [| split]]]].
    + unfold generate_anion_intermediates. fold (output_dir environ).
      now destruct (makedirs_refused os (output_dir environ)).
    + intros path H.
      destruct (proj1 (proj1 (anion_ends os environ [])) (ex_intro _ path H))
        as [Hne _].
      now apply Hne.
    + intros Hdir. unfold generate_anion_intermediates.
      fold (output_dir environ). now rewrite Hdir.
    + intros e spec. apply anion_no_directory.
    + intros spec. exact (proj1 (anion_ends os environ spec)).
    + intros spec. exact (proj2 (anion_ends os environ spec)).
  - split; [| split; [| split; [| split; [| split]]]].
    + unfold generate_neutral_radicals_intermediates.
      fold (output_dir environ).
      now destruct (makedirs_refused os (output_dir environ)).
    + intros path H.
      destruct (proj1 (proj1 (radical_ends os environ []))
                      (ex_intro _ path H)) as [Hne _].
      now apply Hne.
    + intros Hdir. unfold generate_neutral_radicals_intermediates.
      fold (output_dir environ). now rewrite Hdir.
    + intros e spec. apply radical_no_directory.
    + intros spec. exact (proj1 (radical_ends os environ spec)).
    + intros spec. exact (proj2 (radical_ends os environ spec)).
Qed.

End Geometries.

(* ================================================================== *)
(** * The matcher *)

Section MatcherFacts.

Context {A : Type}.
Variable P : ascii -> Prop.

Lemma consumes_nothing s g (k : string -> option string -> option A) a :
  k s g = Some a -> consumes P s k a.
Proof.
  intros H. exists "", s, g. repeat split; [constructor | assumption].
Qed.

Lemma consumes_then s (k1 k : string -> option string -> option A) a :
  consumes P s k1 a ->
  (forall s1 g1, k1 s1 g1 = Some a -> consumes P s1 k a) ->
  consumes P s k a.
Proof.
  intros [w1 [s1 [g1 [-> [Hw1 Hk1]]]]] Hnext.
  destruct (Hnext _ _ Hk1) as [w2 [s2 [g2 [-> [Hw2 Hk]]]]].
  exists (w1 ++ w2), s2, g2. rewrite append_assoc.
  repeat split; [apply all_chars_append; split |]; assumption.
Qed.

Lemma star_sound
      (body : string -> option string ->
              (string -> option string -> option A) -> option A) :
  (forall s g k a, body s g k = Some a -> consumes P s k a) ->
  forall n s g k a, star body n s g k = Some a -> consumes P s k a.
Proof.
  intros Hbody n. induction n as [| n IH]; intros s g k a; simpl.
  - apply consumes_nothing.
  - destruct (body s g _) as [a0 |] eqn:E.
    + intros Ha. inversion Ha; subst a0. clear Ha.
      apply Hbody in E. apply (consumes_then _ _ _ _ E).
      intros s1 g1. destruct (String.length s1 <? String.length s)%nat;
        [apply IH | discriminate].
    + apply consumes_nothing.
Qed.

Lemma run_sound (r : regex) :
  over_alphabet P r ->
  forall s g (k : string -> option string -> option A) a,
    run r s g k = Some a -> consumes P s k a.
Proof.
  induction r as [p | p | r1 IH1 r2 IH2 | r1 IH1 | r1 IH1 | r1 IH1 | r1 IH1];
    simpl; intros Hr s g k a.
  - destruct (strip_prefix p s) as [s' |] eqn:E; [| discriminate].
    intros Hk. apply strip_prefix_Some in E. subst s.
    exists p, s', g. auto.
  - destruct s as [| c s']; [discriminate |].
    destruct (p c) eqn:E; [| discriminate].
    intros Hk. exists (String c ""), s', g.
    repeat split; [| assumption].
    apply all_chars_cons. split; [auto | constructor].
  - destruct Hr as [Hr1 Hr2]. intros H.
    apply (IH1 Hr1) in H. apply (consumes_then _ _ _ _ H).
    intros s1 g1. apply (IH2 Hr2).
  - destruct (run r1 s g k) as [a0 |] eqn:E.
    + intros Ha. inversion Ha; subst a0. now apply (IH1 Hr) in E.
    + apply consumes_nothing.
  - apply star_sound. apply (IH1 Hr).
  - intros H. apply (IH1 Hr) in H. apply (consumes_then _ _ _ _ H).
    intros s1 g1. apply star_sound. apply (IH1 Hr).
  - intros H. apply (IH1 Hr) in H.
    destruct H as [w [s' [g' [-> [Hw Hk]]]]].
    exists w, s', (Some (consumed (w ++ s') s')). auto.
Qed.

(** The equations of [run], one per form of pattern. *)
Lemma run_Lit p s g (k : string -> option string -> option A) :
  run (Lit p) s g k
  = match strip_prefix p s with Some s' => k s' g | None => None end.
Proof. reflexivity. Qed.

Lemma run_Cls_nil p g (k : string -> option string -> option A) :
  run (Cls p) "" g k = None.
Proof. reflexivity. Qed.

Lemma run_Cls_cons p c s g (k : string -> option string -> option A) :
  run (Cls p) (String c s) g k = if p c then k s g else None.
Proof. reflexivity. Qed.

Lemma run_Cat r1 r2 s g (k : string -> option string -> option A) :
  run (Cat r1 r2) s g k = run r1 s g (fun s1 g1 => run r2 s1 g1 k).
Proof. reflexivity. Qed.

Lemma run_Opt r1 s g (k : string -> option string -> option A) :
  run (Opt r1) s g k
  = match run r1 s g k with Some a => Some a | None => k s g end.
Proof. reflexivity. Qed.

Lemma run_Star r1 s g (k : string -> option string -> option A) :
  run (Star r1) s g k = star (run r1) (String.length s) s g k.
Proof. reflexivity. Qed.

Lemma run_Plus r1 s g (k : string -> option string -> option A) :
  run (Plus r1) s g k
  = run r1 s g (fun s1 g1 => star (run r1) (String.length s1) s1 g1 k).
Proof. reflexivity. Qed.

Lemma run_Grp r1 s g (k : string -> option string -> option A) :
  run (Grp r1) s g k
  = run r1 s g (fun s1 _ => k s1 (Some (consumed s s1))).
Proof. reflexivity. Qed.

End MatcherFacts.

(* ================================================================== *)
(** * The scan of finditer and findall *)

Section ScanFacts.

Variable r : regex.

(** The characters a match covers are skipped. *)
Lemma scan_skip (w s : string) :
  scan r (w ++ s) (String.length w) = scan r s 0%nat.
Proof. induction w as [| c w IH]; simpl; [reflexivity | exact IH]. Qed.

(** Where the pattern matches at no position, the scan finds nothing. *)
Lemma scan_nothing (s : string) :
  (forall a b, s = a ++ b -> match_here r b = None) ->
  forall skip, scan r s skip = [].
Proof.
  induction s as [| c s IH]; intros Hnone skip.
  - destruct skip; simpl; [| reflexivity].
    now rewrite (Hnone "" "" eq_refl).
  - assert (Hs : forall a b, s = a ++ b -> match_here r b = None).
    { intros a b ->. apply (Hnone (String c a)). reflexivity. }
    destruct skip; simpl; [| now apply IH].
    rewrite (Hnone "" (String c s) eq_refl). now apply IH.
Qed.

(** As long as every match that starts inside [pre] also ends inside it,
    the scan of [pre ++ target] arrives at [target] with nothing left to
    skip. *)
Lemma scan_prefix (pre target : string) :
  (forall a c b m,
      pre = a ++ String c b ->
      match_here r (String c b ++ target) = Some m ->
      (String.length (group0 m) <= String.length (String c b))%nat) ->
  forall skip, (skip <= String.length pre)%nat ->
  exists l, scan r (pre ++ target) skip = (l ++ scan r target 0%nat)%list.
Proof.
  induction pre as [| c pre IH]; intros Hin skip Hskip.
  - simpl in Hskip. assert (skip = 0%nat) as -> by lia. now exists [].
  - assert (Hpre : forall a c' b m,
               pre = a ++ String c' b ->
               match_here r (String c' b ++ target) = Some m ->
               (String.length (group0 m) <= String.length (String c' b))%nat).
    { intros a c' b m ->. apply (Hin (String c a)). reflexivity. }
    simpl in Hskip. destruct skip as [| skip].
    + cbn [String.append scan].
      destruct (match_here r (String c (pre ++ target))) as [m |] eqn:E.
      * pose proof (Hin "" c pre m eq_refl E) as Hlen. simpl in Hlen.
        destruct (IH Hpre (Nat.pred (String.length (group0 m)))) as [l Hl];
          [lia |].
        exists (m :: l). now rewrite Hl.
      * destruct (IH Hpre 0%nat) as [l Hl]; [lia |]. now exists l.
    + cbn [String.append scan]. apply (IH Hpre). lia.
Qed.

(** So the match at [target] is the last one found when no match starts
    after it. *)
Lemma scan_last (pre target rest : string) (m : match_obj) :
  (forall a c b m',
      pre = a ++ String c b ->
      match_here r (String c b ++ target) = Some m' ->
      (String.length (group0 m') <= String.length (String c b))%nat) ->
  match_here r target = Some m ->
  target = group0 m ++ rest ->
  group0 m <> "" ->
  (forall a b, rest = a ++ b -> match_here r b = None) ->
  exists l, finditer r (pre ++ target) = (l ++ [m])%list.
Proof.
  intros Hin Hm Htarget Hne Hrest. unfold finditer.
  destruct (scan_prefix pre target Hin 0%nat) as [l Hl]; [lia |].
  exists l. rewrite Hl. f_equal.
  destruct (group0 m) as [| c w] eqn:Eg; [congruence |].
  subst target. cbn [String.append scan]. cbn [String.append] in Hm. rewrite Hm, Eg.
  cbn [String.length Nat.pred]. rewrite scan_skip.
  now rewrite (scan_nothing rest Hrest).
Qed.

End ScanFacts.

(* ================================================================== *)
(** * Patterns that start with a marker *)

Section Markers.

(** The marker is [String c0 M']; its first character does not come back
    in it.  [P] holds of all the characters that the rest of the pattern
    can consume. *)
Variable P : ascii -> Prop.
Variable c0 : ascii.
Variable M' : string.
Variable tail : regex.
Hypothesis marker_start_unique : all_chars (fun c => c <> c0) M'.
Hypothesis tail_alphabet : over_alphabet P tail.

Lemma marked_match (s : string) (m : match_obj) :
  match_here (Cat (Lit (String c0 M')) tail) s = Some m ->
  exists w s',
    s = String c0 M' ++ w ++ s' /\ all_chars P w /\
    group0 m = String c0 M' ++ w.
Proof.
  unfold match_here. cbn [run].
  destruct (strip_prefix (String c0 M') s) as [s1 |] eqn:E; [| discriminate].
  intros H. apply strip_prefix_Some in E.
  apply (run_sound P tail tail_alphabet) in H.
  destruct H as [w [s' [g' [-> [Hw Hk]]]]]. inversion Hk. subst s.
  exists w, s'. repeat split; [assumption |].
  cbn [group0]. rewrite <- append_assoc. apply consumed_append.
Qed.

Lemma marked_absent (text : string) :
  ~ occurs (String c0 M') text ->
  forall a b, text = a ++ b ->
              match_here (Cat (Lit (String c0 M')) tail) b = None.
Proof.
  intros Hno a b ->.
  destruct (match_here _ b) as [m |] eqn:E; [| reflexivity].
  destruct (marked_match _ _ E) as [w [s' [-> _]]].
  exfalso. apply Hno. now exists a, (w ++ s').
Qed.

(** A match that starts before the marker at the end of [pre] ends
    before it too, unless what it takes after its own marker runs into
    that marker. *)
Lemma marked_within (pre rest : string) :
  (forall a f e', pre = a ++ String c0 M' ++ f ->
                  all_chars P (f ++ String c0 e') -> False) ->
  forall a c b m,
    pre = a ++ String c b ->
    match_here (Cat (Lit (String c0 M')) tail)
               (String c b ++ String c0 M' ++ rest) = Some m ->
    (String.length (group0 m) <= String.length (String c b))%nat.
Proof.
  intros Hrun a c b m Hpre Hm.
  destruct (marked_match _ _ Hm) as [w [s' [Hs [Hw ->]]]].
  rewrite <- (append_assoc (String c0 M') w s') in Hs.
  destruct (append_eq_append _ _ _ _ Hs) as [[e [He Hrest]] | [e [He _]]].
  - destruct e as [| x e'].
    + rewrite append_empty_r in He. rewrite He. lia.
    + exfalso. cbn [String.append] in Hrest. inversion Hrest; subst x.
      destruct (append_eq_append _ _ _ _ He) as [[f [Hf Hw']] | [f [Hf Hw']]].
      * apply (Hrun a f e'); [now rewrite Hpre, Hf | now rewrite <- Hw'].
      * destruct f as [| y f'].
        -- rewrite append_empty_r in Hf. cbn [String.append] in Hw'.
           apply (Hrun a "" e').
           ++ now rewrite Hpre, <- Hf, append_empty_r.
           ++ cbn [String.append]. now rewrite Hw'.
        -- cbn [String.append] in Hw'. inversion Hw'; subst y.
           cbn [String.append] in Hf. inversion Hf as [[Hc HM']].
           pose proof marker_start_unique as Hbad. rewrite HM' in Hbad.
           apply all_chars_append in Hbad. destruct Hbad as [_ Hbad].
           apply all_chars_cons in Hbad. destruct Hbad as [Hbad _].
           now apply Hbad.
  - rewrite He, !length_append. lia.
Qed.

(** The match at the marker after [pre] is the last of the scan when
    the marker does not occur after that match. *)
Lemma marked_last (pre post : string) (m : match_obj) :
  (forall a f e', pre = a ++ String c0 M' ++ f ->
                  all_chars P (f ++ String c0 e') -> False) ->
  match_here (Cat (Lit (String c0 M')) tail) (String c0 M' ++ post) = Some m ->
  (forall rest, String c0 M' ++ post = group0 m ++ rest ->
                ~ occurs (String c0 M') rest) ->
  exists l,
    finditer (Cat (Lit (String c0 M')) tail) (pre ++ String c0 M' ++ post)
    = (l ++ [m])%list.
Proof.
  intros Hrun Hm Hafter.
  destruct (marked_match _ _ Hm) as [w [s' [Hs [Hw Hg]]]].
  apply (scan_last _ pre (String c0 M' ++ post) s' m).
  - intros a c b m'. apply marked_within. exact Hrun.
  - exact Hm.
  - now rewrite Hg, append_assoc.
  - rewrite Hg. discriminate.
  - apply marked_absent. apply Hafter. now rewrite Hg, append_assoc.
Qed.

End Markers.

(* ================================================================== *)
(** * The log scraper *)

Section Scraper.

Lemma occurs_later (marker w rest : string) :
  occurs marker rest -> occurs marker (w ++ rest).
Proof.
  intros [x [y ->]]. exists (w ++ x), y. now rewrite append_assoc.
Qed.

(** ** dG *)

Lemma dg_marker_start_unique :
  all_chars (fun c => c <> "S"%char)
            "um of electronic and thermal Free Energies=".
Proof.
  unfold all_chars. simpl. repeat (constructor; [discriminate |]).
  constructor.
Qed.

Lemma dg_tail_alphabet : over_alphabet (fun c => c <> "S"%char) DG_TAIL.
Proof.
  assert (Hcls : forall p : ascii -> bool,
             p "S"%char = false -> forall c, p c = true -> c <> "S"%char).
  { intros p Hp c Hc ->. congruence. }
  cbn [over_alphabet DG_TAIL NUMBER_RE].
  repeat split; try (apply Hcls; reflexivity).
  unfold all_chars. simpl. repeat (constructor; [discriminate |]).
  constructor.
Qed.

Lemma dG_absent (text : string) :
  ~ occurs DG_MARKER text -> fst (extract_values text) = None.
Proof.
  intros Hno. unfold extract_values, findall, finditer. cbn [fst].
  rewrite (scan_nothing DG_RE text); [reflexivity |].
  exact (marked_absent (fun c => c <> "S"%char) _ _ DG_TAIL
           dg_tail_alphabet text Hno).
Qed.

(** ** LUMO *)

Lemma alpha_marker_start_unique :
  all_chars (fun c => c <> "A"%char) "lpha virt. eigenvalues --".
Proof.
  unfold all_chars. simpl. repeat (constructor; [discriminate |]).
  constructor.
Qed.

Lemma rest_of_line_alphabet :
  over_alphabet (fun c => c <> "010"%char) (Grp (Star (Cls is_dot))).
Proof.
  cbn [over_alphabet]. intros c H ->. discriminate.
Qed.

(** A greedy repetition of a class takes all the characters of the
    class that lie ahead, when the pattern can go on from there. *)
Lemma star_class {A : Type} (p : ascii -> bool) (w : string) :
  all_chars (fun c => p c = true) w ->
  forall rest n g (k : string -> option string -> option A) a,
    stops p rest ->
    (String.length w <= n)%nat ->
    k rest g = Some a ->
    star (run (Cls p)) n (w ++ rest) g k = Some a.
Proof.
  set (body := @run A (Cls p)).
  assert (Hcons : forall c s g k,
             body (String c s) g k = if p c then k s g else None)
    by reflexivity.
  assert (Hnil : forall g k, body "" g k = None) by reflexivity.
  clearbody body.
  induction w as [| c w IH]; intros Hw rest n g k a Hstop Hn Hk.
  - cbn [String.append]. destruct n as [| n]; [exact Hk |].
    cbn [star]. destruct rest as [| c rest].
    + now rewrite Hnil.
    + simpl in Hstop. now rewrite Hcons, Hstop.
  - apply all_chars_cons in Hw. destruct Hw as [Hc Hw].
    destruct n as [| n]; [simpl in Hn; lia |].
    cbn [String.append star]. rewrite Hcons, Hc.
    assert (Hlt : (String.length (w ++ rest)
                   <? String.length (String c (w ++ rest)))%nat = true).
    { apply Nat.ltb_lt. simpl. lia. }
    rewrite Hlt, (IH Hw rest n g k a Hstop); [reflexivity | | exact Hk].
    simpl in Hn. lia.
Qed.

(** The greedy dot takes a line to its end. *)
Lemma star_dot_line {A : Type} (line : string) :
  no_newline line ->
  forall post n g (k : string -> option string -> option A) a,
    at_line_end post ->
    (String.length line <= n)%nat ->
    k post g = Some a ->
    star (run (Cls is_dot)) n (line ++ post) g k = Some a.
Proof.
  intros Hline post n g k a Hend. apply star_class.
  - unfold no_newline, all_chars in *.
    eapply Forall_impl; [| exact Hline].
    intros c Hc. unfold is_dot. apply negb_true_iff.
    now apply Ascii.eqb_neq.
  - destruct Hend as [-> | [post' ->]]; reflexivity.
Qed.

Lemma rest_of_line_match (marker line post : string) :
  no_newline line -> at_line_end post ->
  match_here (Cat (Lit marker) (Grp (Star (Cls is_dot))))
             (marker ++ line ++ post)
  = Some {| group0 := marker ++ line; group1 := Some line |}.
Proof.
  intros Hline Hend. unfold match_here. cbn [run].
  rewrite strip_prefix_append.
  apply (star_dot_line line Hline post); [exact Hend | |].
  - rewrite length_append. lia.
  - rewrite <- append_assoc. now rewrite !consumed_append.
Qed.

Lemma lumo_absent (text : string) :
  ~ occurs ALPHA_MARKER text -> snd (extract_values text) = None.
Proof.
  intros Hno. unfold extract_values, finditer. cbn [snd].
  rewrite (scan_nothing ALPHA_LINE_RE text); [reflexivity |].
  exact (marked_absent (fun c => c <> "010"%char) _ _ _
           rest_of_line_alphabet text Hno).
Qed.

Lemma lumo_at_last_line (pre line post : string) :
  first_on_line ALPHA_MARKER pre ->
  no_newline line -> at_line_end post ->
  ~ occurs ALPHA_MARKER post ->
  snd (extract_values (pre ++ ALPHA_MARKER ++ line ++ post))
  = match search NUMBER_RE line with
    | Some num_match => Some (group0 num_match)
    | None => None
    end.
Proof.
  intros Hfirst Hline Hend Hno.
  pose proof (rest_of_line_match ALPHA_MARKER line post Hline Hend) as Hm.
  destruct (marked_last (fun c => c <> "010"%char) "A"%char
              "lpha virt. eigenvalues --" (Grp (Star (Cls is_dot)))
              alpha_marker_start_unique rest_of_line_alphabet
              pre (line ++ post)
              {| group0 := ALPHA_MARKER ++ line; group1 := Some line |})
    as [l Hl].
  - intros a f e' Hpre H. apply all_chars_append in H. destruct H as [H _].
    exact (Hfirst a f Hpre H).
  - exact Hm.
  - cbn [group0]. intros rest Hrest.
    change "Alpha virt. eigenvalues --" with ALPHA_MARKER in Hrest.
    rewrite append_assoc in Hrest.
    do 2 apply append_cancel_l in Hrest. now subst rest.
  - change (Cat (Lit "Alpha virt. eigenvalues --") (Grp (Star (Cls is_dot))))
      with ALPHA_LINE_RE in Hl.
    change "Alpha virt. eigenvalues --" with ALPHA_MARKER in Hl.
    unfold extract_values. cbn [snd]. rewrite Hl.
    destruct l as [| m0 l']; [reflexivity |].
    cbn [app]. unfold last_item.
    now rewrite app_comm_cons, last_last.
Qed.

(** ** Decimal tokens *)

Lemma digit_class (c : ascii) :
  is_digit c = true ->
  one_of "+-" c = false /\ is_space c = false /\ c <> "S"%char.
Proof.
  destruct c as [b0 b1 b2 b3 b4 b5 b6 b7].
  destruct b0, b1, b2, b3, b4, b5, b6, b7; vm_compute; intros H;
    try discriminate H; repeat split; discriminate.
Qed.

Lemma space_class (c : ascii) :
  is_space c = true -> one_of "+-" c = false /\ is_digit c = false.
Proof.
  destruct c as [b0 b1 b2 b3 b4 b5 b6 b7].
  destruct b0, b1, b2, b3, b4, b5, b6, b7; vm_compute; intros H;
    try discriminate H; split; reflexivity.
Qed.

Section Number.

Context {A : Type}.
Variables (int' frac rest : string) (d : ascii).
Variable k : string -> option string -> option A.
Variables (g : option string) (a : A).
Hypothesis first_digit : is_digit d = true.
Hypothesis int_digits : all_digits int'.
Hypothesis frac_digits : all_digits frac.
Hypothesis number_ends : ends_number rest.
Hypothesis goes_on : k rest g = Some a.

Lemma rest_stops_digit : stops is_digit rest.
Proof.
  unfold ends_number, stops in *. destruct rest as [| c r]; [exact I |].
  now apply orb_false_elim in number_ends.
Qed.

(** No exponent follows. *)
Lemma exponent_skipped :
  run (Opt (Cat (Cls (one_of "Ee"))
                (Cat (Opt (Cls (one_of "+-"))) (Plus (Cls is_digit)))))
      rest g k = Some a.
Proof.
  rewrite run_Opt, run_Cat.
  unfold ends_number, stops in number_ends.
  destruct rest as [| c r].
  - rewrite run_Cls_nil. exact goes_on.
  - rewrite run_Cls_cons. apply orb_false_elim in number_ends.
    destruct number_ends as [_ ->]. exact goes_on.
Qed.

(** The fraction is taken whole. *)
Lemma fraction_taken :
  run (Cat (Opt (Cat (Lit ".") (Star (Cls is_digit))))
           (Opt (Cat (Cls (one_of "Ee"))
                     (Cat (Opt (Cls (one_of "+-"))) (Plus (Cls is_digit))))))
      ("." ++ frac ++ rest) g k = Some a.
Proof.
  rewrite run_Cat, run_Opt, run_Cat, run_Lit, strip_prefix_append.
  rewrite run_Star, (star_class is_digit frac frac_digits rest _ g _ a).
  - reflexivity.
  - exact rest_stops_digit.
  - rewrite length_append. lia.
  - exact exponent_skipped.
Qed.

(** So are the digits before the dot. *)
Lemma integer_taken :
  run (Cat (Plus (Cls is_digit))
      (Cat (Opt (Cat (Lit ".") (Star (Cls is_digit))))
           (Opt (Cat (Cls (one_of "Ee"))
                     (Cat (Opt (Cls (one_of "+-"))) (Plus (Cls is_digit)))))))
      (String d int' ++ "." ++ frac ++ rest) g k = Some a.
Proof.
  rewrite run_Cat, run_Plus. cbn [String.append].
  rewrite run_Cls_cons, first_digit.
  apply (star_class is_digit int' int_digits).
  - reflexivity.
  - rewrite length_append. lia.
  - exact fraction_taken.
Qed.

(** And the whole decimal token, with its sign. *)
Lemma number_decimal (sign : string) :
  is_sign sign ->
  run NUMBER_RE (decimal sign (String d int') frac ++ rest) g k = Some a.
Proof.
  intros Hsign. unfold NUMBER_RE, decimal.
  rewrite run_Cat, run_Opt. rewrite !append_assoc.
  destruct Hsign as [-> | [-> | ->]]; cbn [String.append].
  - rewrite run_Cls_cons.
    destruct (digit_class d first_digit) as [-> _].
    exact integer_taken.
  - rewrite run_Cls_cons.
    change (one_of "+-" "+"%char) with true. cbv iota beta.
    change (String d (int' ++ String "." (frac ++ rest)))
      with (String d int' ++ "." ++ frac ++ rest).
    now rewrite integer_taken.
  - rewrite run_Cls_cons.
    change (one_of "+-" "-"%char) with true. cbv iota beta.
    change (String d (int' ++ String "." (frac ++ rest)))
      with (String d int' ++ "." ++ frac ++ rest).
    now rewrite integer_taken.
Qed.

End Number.

Lemma decimal_not_space (sign int' frac rest : string) (d : ascii) :
  is_sign sign -> is_digit d = true ->
  stops is_space (decimal sign (String d int') frac ++ rest).
Proof.
  intros [-> | [-> | ->]] Hd; [| reflexivity | reflexivity].
  cbn. now destruct (digit_class d Hd) as [_ [H _]].
Qed.

Lemma dg_decimal_match (ws sign int frac rest : string) :
  all_spaces ws -> is_sign sign -> all_digits int -> int <> "" ->
  all_digits frac -> ends_number rest ->
  match_here DG_RE (DG_MARKER ++ ws ++ decimal sign int frac ++ rest)
  = Some {| group0 := DG_MARKER ++ ws ++ decimal sign int frac;
            group1 := Some (decimal sign int frac) |}.
Proof.
  intros Hws Hsign Hint Hne Hfrac Hrest.
  destruct int as [| d int']; [congruence |].
  apply all_chars_cons in Hint. destruct Hint as [Hd Hint].
  unfold match_here, DG_RE, DG_TAIL.
  rewrite run_Cat, run_Lit, strip_prefix_append, run_Cat, run_Star.
  apply (star_class is_space ws Hws).
  - now apply decimal_not_space.
  - rewrite length_append. lia.
  - rewrite run_Grp. apply number_decimal; try assumption.
    rewrite <- !append_assoc. now rewrite !consumed_append.
Qed.

Lemma search_here (r : regex) (s : string) (m : match_obj) :
  match_here r s = Some m -> search r s = Some m.
Proof. intros H. destruct s; simpl; now rewrite H. Qed.

Lemma number_not_at_space (c : ascii) (s : string) :
  is_space c = true -> match_here NUMBER_RE (String c s) = None.
Proof.
  intros H. destruct (space_class c H) as [Hsign Hdigit].
  unfold match_here, NUMBER_RE.
  rewrite run_Cat, run_Opt, run_Cls_cons, Hsign.
  now rewrite run_Cat, run_Plus, run_Cls_cons, Hdigit.
Qed.

(** The first number of a text that starts with blanks and a decimal
    token is that token. *)
Lemma number_search (ws sign int frac rest : string) :
  all_spaces ws -> is_sign sign -> all_digits int -> int <> "" ->
  all_digits frac -> ends_number rest ->
  search NUMBER_RE (ws ++ decimal sign int frac ++ rest)
  = Some {| group0 := decimal sign int frac; group1 := None |}.
Proof.
  intros Hws Hsign Hint Hne Hfrac Hrest.
  induction ws as [| c ws IH].
  - change ("" ++ decimal sign int frac ++ rest)
      with (decimal sign int frac ++ rest).
    apply search_here. destruct int as [| d int']; [congruence |].
    apply all_chars_cons in Hint. destruct Hint as [Hd Hint].
    unfold match_here. apply number_decimal; try assumption.
    now rewrite consumed_append.
  - apply all_chars_cons in Hws. destruct Hws as [Hc Hws].
    cbn [String.append search].
    rewrite (number_not_at_space c _ Hc). exact (IH Hws).
Qed.

Lemma lumo_decimal (pre ws sign int frac rest post : string) :
  first_on_line ALPHA_MARKER pre ->
  no_newline (ws ++ decimal sign int frac ++ rest) ->
  at_line_end post ->
  ~ occurs ALPHA_MARKER post ->
  all_spaces ws -> is_sign sign -> all_digits int -> int <> "" ->
  all_digits frac -> ends_number rest ->
  snd (extract_values
         (pre ++ ALPHA_MARKER ++ (ws ++ decimal sign int frac ++ rest)
              ++ post))
  = Some (decimal sign int frac).
Proof.
  intros Hfirst Hline Hend Hno Hws Hsign Hint Hne Hfrac Hrest.
  rewrite (lumo_at_last_line pre _ post Hfirst Hline Hend Hno).
  now rewrite (number_search ws sign int frac rest).
Qed.

(** The pattern on some texts: an empty fraction, a sign that no digit
    follows, an exponent, an exponent cut short. *)
Example number_re_examples :
  map (fun s => option_map group0 (search NUMBER_RE s))
      ["-12.e"; "x -.5e3 1"; "+3E-2z"; "1e5.5"; "7.e+x"; "abc"]
  = [Some "-12."; Some "5e3"; Some "+3E-2"; Some "1e5"; Some "7."; None].
Proof. reflexivity. Qed.

Example dg_re_examples :
  findall DG_RE
    (DG_MARKER ++ "-1.5" ++ nl ++ DG_MARKER ++ " n/a" ++ nl
               ++ DG_MARKER ++ nl ++ "  2.0E+01.3")
  = ["-1.5"; "2.0E+01"].
Proof. reflexivity. Qed.

Example alpha_line_re_examples :
  map group1
      (finditer ALPHA_LINE_RE
         (" " ++ ALPHA_MARKER ++ " 1 " ++ ALPHA_MARKER ++ " 2" ++ nl
              ++ ALPHA_MARKER ++ nl ++ ALPHA_MARKER))
  = [Some (" 1 " ++ ALPHA_MARKER ++ " 2"); Some ""; Some ""].
Proof. reflexivity. Qed.

(** ** Deciding that a marker does not occur *)

Lemma prefix_append (sub post : string) : String.prefix sub (sub ++ post) = true.
Proof.
  induction sub as [| c sub IH]; simpl.
  - now destruct post.
  - destruct (ascii_dec c c); [exact IH | congruence].
Qed.

Lemma occurs_contains (sub s : string) :
  occurs sub s -> str_contains sub s = true.
Proof.
  intros [pre [post ->]]. induction pre as [| c pre IH].
  - cbn [String.append]. destruct (sub ++ post) eqn:E;
      cbn [str_contains]; rewrite <- E, prefix_append; reflexivity.
  - cbn [String.append str_contains]. rewrite IH. apply orb_true_r.
Qed.

Lemma not_contains_not_occurs (sub s : string) :
  str_contains sub s = false -> ~ occurs sub s.
Proof.
  intros H Hocc. apply occurs_contains in Hocc. congruence.
Qed.

Lemma fresh_first_on_line (marker pre : string) :
  ~ occurs marker pre -> first_on_line marker pre.
Proof. intros Hno a e -> _. apply Hno. now exists a, e. Qed.

(** ** Which occurrence of the dG marker decides *)

(** dG comes from the last occurrence of the marker at which the
    pattern matches. *)
Lemma dG_at_last_match (pre post : string) (m : match_obj) (tok : string) :
  match_here DG_RE (DG_MARKER ++ post) = Some m ->
  group1 m = Some tok ->
  (forall rest a x,
      DG_MARKER ++ post = group0 m ++ rest ->
      rest = a ++ DG_MARKER ++ x ->
      match_here DG_RE (DG_MARKER ++ x) = None) ->
  fst (extract_values (pre ++ DG_MARKER ++ post)) = Some tok.
Proof.
  intros Hm Hg Hlater.
  destruct (marked_match (fun c => c <> "S"%char) _ _ DG_TAIL
              dg_tail_alphabet _ _ Hm) as [w [rest [Hs [_ Hg0]]]].
  change (String "S" "um of electronic and thermal Free Energies=")
    with DG_MARKER in Hs, Hg0.
  assert (Htarget : DG_MARKER ++ post = group0 m ++ rest)
    by now rewrite Hg0, append_assoc.
  destruct (scan_last DG_RE pre (DG_MARKER ++ post) rest m) as [l Hl].
  - intros a c b m'.
    apply (marked_within (fun c => c <> "S"%char) "S"%char _ DG_TAIL
             dg_marker_start_unique dg_tail_alphabet pre post).
    intros a' f e' _ H. apply all_chars_append in H. destruct H as [_ H].
    apply all_chars_cons in H. destruct H as [H _]. now apply H.
  - exact Hm.
  - exact Htarget.
  - rewrite Hg0. discriminate.
  - intros a b Hrest.
    destruct (match_here DG_RE b) as [m' |] eqn:E; [| reflexivity].
    destruct (marked_match (fun c => c <> "S"%char) _ _ DG_TAIL
                dg_tail_alphabet _ _ E) as [w' [s' [Hb _]]].
    change (String "S" "um of electronic and thermal Free Energies=")
      with DG_MARKER in Hb.
    rewrite <- E. subst b. apply (Hlater rest a (w' ++ s') Htarget Hrest).
  - unfold extract_values, findall. cbn [fst]. rewrite Hl, map_app.
    cbn [map]. rewrite Hg.
    destruct (map _ l); reflexivity || (unfold last_item; cbn [app]).
    now rewrite app_comm_cons, last_last.
Qed.

Lemma dG_decimal_at_last_match (pre ws sign int frac rest : string) :
  all_spaces ws -> is_sign sign -> all_digits int -> int <> "" ->
  all_digits frac -> ends_number rest ->
  (forall a x, rest = a ++ DG_MARKER ++ x ->
               match_here DG_RE (DG_MARKER ++ x) = None) ->
  fst (extract_values
         (pre ++ DG_MARKER ++ ws ++ decimal sign int frac ++ rest))
  = Some (decimal sign int frac).
Proof.
  intros Hws Hsign Hint Hne Hfrac Hrest Hlater.
  apply (dG_at_last_match pre _ _ _
           (dg_decimal_match ws sign int frac rest
              Hws Hsign Hint Hne Hfrac Hrest) eq_refl).
  cbn [group0]. intros rest' a x H. rewrite !append_assoc in H.
  do 3 apply append_cancel_l in H. subst rest'. apply Hlater.
Qed.

(** dG is [None] when the pattern matches at no occurrence of the
    marker. *)
Lemma dG_no_match (text : string) :
  (forall a x, text = a ++ DG_MARKER ++ x ->
               match_here DG_RE (DG_MARKER ++ x) = None) ->
  fst (extract_values text) = None.
Proof.
  intros Hnone. unfold extract_values, findall, finditer. cbn [fst].
  rewrite (scan_nothing DG_RE text); [reflexivity |].
  intros a b Htext.
  destruct (match_here DG_RE b) as [m |] eqn:E; [| reflexivity].
  destruct (marked_match (fun c => c <> "S"%char) _ _ DG_TAIL
              dg_tail_alphabet _ _ E) as [w [s' [Hb _]]].
  change (String "S" "um of electronic and thermal Free Energies=")
    with DG_MARKER in Hb.
  rewrite <- E. subst b. now apply (Hnone a (w ++ s')).
Qed.




(** ** Names from file stems *)

Lemma no_char_before_last (c : ascii) (s : string) :
  str_contains (String c "") s = false -> before_last c s = None.
Proof.
  induction s as [| a s IH]; [reflexivity |].
  cbn [str_contains String.prefix before_last]. intros H.
  apply orb_false_elim in H. destruct H as [Ha Hs].
  rewrite (IH Hs).
  destruct (ascii_dec c a) as [-> | Hne].
  - destruct s; discriminate.
  - destruct (Ascii.eqb_spec a c); [congruence | reflexivity].
Qed.

Lemma before_last_split (c : ascii) (head tail : string) :
  str_contains (String c "") tail = false ->
  before_last c (head ++ String c tail) = Some head.
Proof.
  intros H. induction head as [| a head IH].
  - cbn [String.append before_last].
    now rewrite (no_char_before_last c tail H), Ascii.eqb_refl.
  - cbn [String.append before_last]. now rewrite IH.
Qed.

Lemma contains_char_split (c : ascii) (head tail : string) :
  str_contains (String c "") (head ++ String c tail) = true.
Proof.
  induction head as [| a head IH].
  - cbn [String.append str_contains String.prefix].
    destruct (ascii_dec c c); [| congruence]. now destruct tail.
  - cbn [String.append str_contains]. rewrite IH. apply orb_true_r.
Qed.

(** C8. [derive_name_from_stem] cuts a stem at its last underscore,
    strips blanks and underscores from both ends of what is left, and
    gives the whole stem back when nothing remains: "mol_run_Baz" gives
    "mol_run", "Baz", which has no underscore, gives "Baz", and "___"
    gives "___". *)
Theorem stem_truncation (head tail : string) :
  str_contains "_" tail = false ->
  derive_name_from_stem (head ++ "_" ++ tail)
  = (if String.eqb (strip " _" head) "" then head ++ "_" ++ tail
     else strip " _" head) /\
  derive_name_from_stem tail
  = (if String.eqb (strip " _" tail) "" then tail else strip " _" tail) /\
  derive_name_from_stem "mol_run_Baz" = "mol_run" /\
  derive_name_from_stem "Baz" = "Baz" /\
  derive_name_from_stem "___" = "___".
Proof.
  intros Htail. split; [| split; [| repeat split; reflexivity]].
  - unfold derive_name_from_stem, rsplit1_head.
    cbn [String.append].
    now rewrite contains_char_split, (before_last_split _ _ _ Htail).
  - unfold derive_name_from_stem. now rewrite Htail.
Qed.

Lemma stem_truncation_witness :
  derive_name_from_stem ("_a b__" ++ "_" ++ "Baz") = "a b".
Proof.
  assert (Htail : str_contains "_" "Baz" = false) by reflexivity.
  exact (proj1 (stem_truncation "_a b__" "Baz" Htail)).
Defined.

End Scraper.

(* ================================================================== *)
(** * More on the geometries *)

Section GeometryExtras.

Lemma intermediate_name_sites (spec : list Z) (removed : Z) :
  intermediate_name spec removed
  = name_mark spec removed 1 ++ name_mark spec removed 2
    ++ name_mark spec removed 3 ++ name_mark spec removed 4
    ++ name_mark spec removed 5 ++ name_mark spec removed 6.
Proof.
  unfold intermediate_name, sites.
  fold (join "" (map (name_mark spec removed) [1; 2; 3; 4; 5; 6])).
  cbn [map]. rewrite !join_empty_cons. unfold join. simpl String.concat.
  now rewrite append_empty_r.
Qed.

(** Membership of the two lists, site by site, in terms of one
    function. *)
Lemma collision_membership (spec1 spec2 : list Z) (r1 r2 : Z) :
  r1 < r2 ->
  In r1 spec1 -> ~ In r2 spec1 -> ~ In r1 spec2 -> In r2 spec2 ->
  (forall s, s <> r1 -> s <> r2 -> (In s spec1 <-> In s spec2)) ->
  (forall s, r1 < s < r2 -> ~ In s spec1) ->
  exists k : Z -> bool,
    (forall s, contains s spec1
               = (s =? r1) || negb (s =? r2)
                 && negb ((r1 <? s) && (s <? r2)) && k s) /\
    (forall s, contains s spec2
               = (s =? r2) || negb (s =? r1)
                 && negb ((r1 <? s) && (s <? r2)) && k s).
Proof.
  intros Hlt H11 H21 H12 H22 Hsame Hbetween.
  exists (fun s => contains s spec2).
  assert (Hc : forall s l, contains s l = true <-> In s l)
    by (intros; apply contains_In).
  split; intros s.
  - destruct (Z.eqb_spec s r1) as [-> | Hn1]; cbn [orb negb andb].
    { now apply Hc. }
    destruct (Z.eqb_spec s r2) as [-> | Hn2]; cbn [orb negb andb].
    { now apply contains_false. }
    destruct (Z.ltb_spec r1 s), (Z.ltb_spec s r2); cbn [orb negb andb];
      try (destruct (contains s spec2) eqn:E;
           [apply Hc; apply Hsame; auto; now apply Hc in E
           | apply contains_false; apply contains_false in E;
             rewrite Hsame; auto]).
    apply contains_false. apply Hbetween. lia.
  - destruct (Z.eqb_spec s r2) as [-> | Hn2]; cbn [orb negb andb].
    { now apply Hc. }
    destruct (Z.eqb_spec s r1) as [-> | Hn1]; cbn [orb negb andb].
    { now apply contains_false. }
    destruct (Z.ltb_spec r1 s), (Z.ltb_spec s r2); cbn [orb negb andb];
      try (now destruct (contains s spec2)).
    apply contains_false. rewrite <- Hsame; auto.
Qed.

Lemma colliding_names (spec1 spec2 : list Z) (r1 r2 : Z) :
  Position r1 -> Position r2 -> r1 < r2 ->
  In r1 spec1 -> ~ In r2 spec1 -> ~ In r1 spec2 -> In r2 spec2 ->
  (forall s, s <> r1 -> s <> r2 -> (In s spec1 <-> In s spec2)) ->
  (forall s, r1 < s < r2 -> ~ In s spec1) ->
  intermediate_name spec1 r1 = intermediate_name spec2 r2.
Proof.
  intros Hp1 Hp2 Hlt H11 H21 H12 H22 Hsame Hbetween.
  destruct (collision_membership spec1 spec2 r1 r2 Hlt H11 H21 H12 H22
              Hsame Hbetween) as [k [Hc1 Hc2]].
  rewrite !intermediate_name_sites. unfold name_mark.
  rewrite !Hc1, !Hc2. clear - Hp1 Hp2 Hlt.
  apply Position_cases in Hp1, Hp2.
  repeat (destruct Hp1 as [-> | Hp1]); try subst r1;
    repeat (destruct Hp2 as [-> | Hp2]); try subst r2;
    try (exfalso; lia);
    cbn [Z.eqb Z.ltb Z.compare Pos.eqb Pos.compare Pos.compare_cont
         orb andb negb];
    destruct (k 1), (k 2), (k 3), (k 4), (k 5), (k 6); reflexivity.
Qed.

Lemma other_site_has_hydrogen (spec : list Z) (removed site : Z) :
  Position site -> site <> removed -> ~ In site spec ->
  In (H_record site) (intermediate_atoms spec removed).
Proof.
  intros Hpos Hne Hnot. unfold intermediate_atoms.
  apply in_or_app. right. apply in_flat_map. exists site.
  split; [now apply Position_sites |].
  unfold intermediate_site.
  rewrite (contains_rest _ _ _ Hne).
  apply contains_false in Hnot. rewrite Hnot.
  destruct (Z.eqb_spec site removed); [contradiction | now left].
Qed.

(** X1. Two isomers can give an intermediate the same file: when the
    second list is the first with its removed position r1 replaced by a
    higher position r2, and the first lists nothing between the two, the
    intermediate of the first without r1 and that of the second without
    r2 get the same path from either generator, although their atom
    lists differ. *)
Theorem intermediate_paths_collide
        (dir : string) (spec1 spec2 : list Z) (r1 r2 : Z) :
  Position r1 -> Position r2 -> r1 < r2 ->
  In r1 spec1 -> ~ In r2 spec1 -> ~ In r1 spec2 -> In r2 spec2 ->
  (forall s, s <> r1 -> s <> r2 -> (In s spec1 <-> In s spec2)) ->
  (forall s, r1 < s < r2 -> ~ In s spec1) ->
  fst (anion_entry dir spec1 r1) = fst (anion_entry dir spec2 r2) /\
  fst (radical_entry dir spec1 r1) = fst (radical_entry dir spec2 r2) /\
  anion_all_atoms spec1 r1 <> anion_all_atoms spec2 r2 /\
  radical_all_atoms spec1 r1 <> radical_all_atoms spec2 r2.
Proof.
  intros Hp1 Hp2 Hlt H11 H21 H12 H22 Hsame Hbetween.
  pose proof (colliding_names spec1 spec2 r1 r2 Hp1 Hp2 Hlt H11 H21 H12 H22
                Hsame Hbetween) as Hname.
  assert (Hatoms : intermediate_atoms spec1 r1 <> intermediate_atoms spec2 r2).
  { intros E.
    apply (proj2 (removed_site_absent spec1 r1 Hp1)).
    rewrite E. apply other_site_has_hydrogen; auto. lia. }
  split; [| split; [| split]].
  - unfold anion_entry. cbn [fst]. now rewrite !anion_pattern_spec, Hname.
  - unfold radical_entry. cbn [fst]. now rewrite !radical_pattern_spec, Hname.
  - now rewrite !anion_all_atoms_spec.
  - now rewrite !radical_all_atoms_spec.
Qed.

Lemma intermediate_paths_collide_witness :
  fst (anion_entry "geometry_input" [1; 2] 2)
  = fst (anion_entry "geometry_input" [1; 3] 3).
Proof.
  apply (intermediate_paths_collide "geometry_input" [1; 2] [1; 3] 2 3).
  - unfold Position. lia.
  - unfold Position. lia.
  - lia.
  - simpl. auto.
  - simpl. intuition lia.
  - simpl. intuition lia.
  - simpl. auto.
  - intros s H2 H3. simpl. intuition lia.
  - intros s H. lia.
Defined.

(** The base record of a site is the chlorine record of [r] only at
    [r]. *)
Lemma record_is_removed (spec : list Z) (r site : Z) :
  Position r -> Position site -> In r spec ->
  negb (String.eqb (if contains site spec then Cl_record site
                    else H_record site) (Cl_record r))
  = negb (site =? r).
Proof.
  intros Hr Hs Hin. f_equal.
  destruct (Z.eqb_spec site r) as [-> | Hne].
  - apply contains_In in Hin. rewrite Hin. apply String.eqb_refl.
  - apply String.eqb_neq. intros E.
    apply (site_record_coords (contains site spec) true) in E.
    apply site_coords_inj in E; auto.
Qed.

Lemma carbons_kept (r : Z) :
  filter (fun record => negb (String.eqb record (Cl_record r))) C_ATOMS
  = C_ATOMS.
Proof.
  apply forallb_filter_id. apply forallb_forall. intros record Hin.
  apply negb_true_iff, String.eqb_neq.
  now apply (carbon_not_site_record record r) in Hin.
Qed.

(** X2. The atom list of an intermediate is the atom list of its base
    isomer without the chlorine record of the removed position: nothing
    else is moved, changed or added. *)
Theorem intermediate_is_base_without_record (spec : list Z) (r : Z) :
  Position r -> In r spec ->
  anion_all_atoms spec r
  = filter (fun record => negb (String.eqb record (Cl_record r)))
           (gjf_all_atoms spec) /\
  radical_all_atoms spec r
  = filter (fun record => negb (String.eqb record (Cl_record r)))
           (gjf_all_atoms spec).
Proof.
  intros Hr Hin.
  assert (H : intermediate_atoms spec r
              = filter (fun record => negb (String.eqb record (Cl_record r)))
                       (gjf_all_atoms spec)).
  { rewrite intermediate_atoms_kept, gjf_all_atoms_sites, filter_app.
    rewrite carbons_kept. f_equal.
    induction sites_Position as [| s l Hs Hl IH]; [reflexivity |].
    cbn [map filter]. rewrite (record_is_removed spec r s Hr Hs Hin).
    destruct (negb (s =? r)); cbn [map]; now rewrite IH. }
  now rewrite anion_all_atoms_spec, radical_all_atoms_spec.
Qed.

Lemma intermediate_is_base_without_record_witness :
  anion_all_atoms [1; 3; 5] 3
  = filter (fun record => negb (String.eqb record (Cl_record 3)))
           (gjf_all_atoms [1; 3; 5]).
Proof.
  assert (Hr : Position 3) by (unfold Position; lia).
  assert (Hin : In 3 [1; 3; 5]) by (simpl; auto).
  exact (proj1 (intermediate_is_base_without_record [1; 3; 5] 3 Hr Hin)).
Defined.

Lemma digit_inj (p q : Z) : one_digit p -> one_digit q ->
                            digit p = digit q -> p = q.
Proof.
  unfold one_digit. intros Hp Hq.
  assert (Ep : p = 0 \/ p = 1 \/ p = 2 \/ p = 3 \/ p = 4 \/ p = 5 \/ p = 6
               \/ p = 7 \/ p = 8 \/ p = 9) by lia.
  assert (Eq : q = 0 \/ q = 1 \/ q = 2 \/ q = 3 \/ q = 4 \/ q = 5 \/ q = 6
               \/ q = 7 \/ q = 8 \/ q = 9) by lia.
  clear Hp Hq.
  repeat (destruct Ep as [-> | Ep]); try subst p;
    repeat (destruct Eq as [-> | Eq]); try subst q;
    intros E; try reflexivity; discriminate E.
Qed.

Lemma position_string_inj (spec1 spec2 : list Z) :
  Forall one_digit spec1 -> Forall one_digit spec2 ->
  gjf_position_string spec1 = gjf_position_string spec2 -> spec1 = spec2.
Proof.
  unfold gjf_position_string. intros H1. revert spec2.
  induction H1 as [| p l Hp Hl IH]; intros spec2 H2 E;
    destruct H2 as [| q l2 Hq Hl2]; cbn [map] in E;
    rewrite ?join_empty_cons, ?str_digit in E by assumption;
    try reflexivity; try discriminate E.
  apply append_same_length in E; [| reflexivity].
  destruct E as [Ehead Erest].
  f_equal; [now apply digit_inj | now apply IH].
Qed.

Lemma base_name_not_absolute (spec : list Z) :
  Forall one_digit spec ->
  startswith (gjf_filename_base spec ++ ".gjf") "/" = false.
Proof.
  unfold gjf_filename_base, gjf_position_string.
  destruct 1 as [| p l Hp Hl]; [reflexivity |].
  cbn [map]. rewrite join_empty_cons, (str_digit p Hp). unfold digit.
  unfold startswith. cbn [String.append String.prefix].
  destruct (ascii_dec "/" (ascii_of_nat (48 + Z.to_nat p))) as [E |];
    [| reflexivity].
  exfalso. unfold one_digit in Hp.
  assert (Ep : p = 0 \/ p = 1 \/ p = 2 \/ p = 3 \/ p = 4 \/ p = 5 \/ p = 6
               \/ p = 7 \/ p = 8 \/ p = 9) by lia.
  repeat (destruct Ep as [-> | Ep]; [discriminate E |]). subst.
  discriminate E.
Qed.

(** X3. Position lists of single digits that differ get different base
    isomer files: the path [generate_gjf_files] returns determines the
    list. *)
Theorem base_paths_differ
        (os : host) (environ : string -> option string)
        (spec1 spec2 : list Z) (path deck1 deck2 : string) :
  Forall one_digit spec1 -> Forall one_digit spec2 ->
  snd (generate_gjf_files os environ spec1) = Ok (path, deck1) ->
  snd (generate_gjf_files os environ spec2) = Ok (path, deck2) ->
  spec1 = spec2.
Proof.
  intros H1 H2 E1 E2. rewrite gjf_call in E1, E2. unfold through in E1, E2.
  destruct (makedirs_refused os (output_dir environ)); [discriminate |].
  destruct (open_refused os _); [discriminate |].
  destruct (open_refused os _); [discriminate |].
  injection E1 as E1 _. injection E2 as E2 _. rewrite <- E2 in E1.
  apply os_path_join_inj in E1; try now apply base_name_not_absolute.
  apply append_cancel_r in E1. unfold gjf_filename_base in E1.
  apply append_cancel_r in E1. now apply position_string_inj.
Qed.

Lemma base_paths_differ_witness :
  [1; 2; 4] = [1; 2; 4].
Proof.
  assert (H : Forall one_digit [1; 2; 4]).
  { unfold one_digit. repeat constructor; lia. }
  exact (base_paths_differ posix_host no_env [1; 2; 4] [1; 2; 4]
           "geometry_input/124ClBz.gjf" (gjf_content_of [1; 2; 4])
           (gjf_content_of [1; 2; 4]) H H eq_refl eq_refl).
Defined.

End GeometryExtras.

(* ================================================================== *)
(** * The module-level run of the geometry generator *)

Section MainRun.

Variable os : host.
Variable environ : string -> option string.

Lemma writes_prints (f : string -> string) (l : list string) :
  writes (map (fun x => Print (f x)) l) = [].
Proof. induction l as [| x l IH]; [reflexivity | exact IH]. Qed.

Lemma writes_summary (files : list string) : writes (summary files) = [].
Proof.
  unfold summary. rewrite !writes_app, writes_prints. reflexivity.
Qed.

Lemma with_summary_writes (st : run_state) :
  writes (output (with_summary st)) = writes (output st).
Proof.
  unfold with_summary. cbn [output].
  now rewrite writes_app, writes_summary, app_nil_r.
Qed.

(** A phase whose calls all return runs to its end. *)
Lemma phase_completes
      (generate : list Z -> list event * pyresult string)
      (decks : list Z -> list (string * string)) :
  forall table,
    (forall spec, In spec table ->
                  writes (fst (generate spec)) = decks spec /\
                  exists path, snd (generate spec) = Ok path) ->
    forall st, exists st',
      intermediates_phase generate table st = (st', None) /\
      List.length (generated_files st')
      = (List.length (generated_files st) + List.length table)%nat /\
      writes (output st')
      = (writes (output st) ++ flat_map decks table)%list.
Proof.
  induction table as [| spec table IH]; intros Hcalls st.
  - exists st. cbn [intermediates_phase flat_map].
    rewrite app_nil_r. repeat split. simpl. lia.
  - cbn [intermediates_phase].
    destruct (Hcalls spec (or_introl eq_refl)) as [Hw [path Hpath]].
    destruct (generate spec) as [events returned].
    cbn [fst snd] in *. subst returned.
    destruct (IH (fun q Hq => Hcalls q (or_intror Hq))
                 {| generated_files := append (generated_files st) path;
                    output := (output st ++ events)%list |})
      as [st' [Hrun [Hlen Hout]]].
    exists st'. split; [exact Hrun |].
    cbn [generated_files output] in *. unfold append in Hlen.
    rewrite length_app in Hlen. cbn [List.length] in *.
    split; [lia |].
    rewrite Hout, writes_app, Hw. cbn [flat_map]. now rewrite <- app_assoc.
Qed.

Lemma accepts_part (dir : string) (paths part : list string) :
  accepts os dir paths -> incl part paths -> accepts os dir part.
Proof.
  intros [Hdir Hopen] Hincl. split; [exact Hdir |].
  intros path Hpath. apply Hopen. now apply Hincl.
Qed.

Lemma flat_map_single {A B : Type} (f : A -> B) (l : list A) :
  flat_map (fun x => [f x]) l = map f l.
Proof. induction l as [| x l IH]; [reflexivity | cbn; now rewrite IH]. Qed.

Lemma main_on_completes (table : list (list Z)) :
  Forall (fun spec => spec <> []) table ->
  accepts os (output_dir environ)
          (map fst (run_decks (output_dir environ) table)) ->
  snd (main_on os environ table) = Ok tt /\
  List.length (generated_files (fst (main_on os environ table)))
  = (3 * List.length table)%nat /\
  writes (output (fst (main_on os environ table)))
  = run_decks (output_dir environ) table.
Proof.
  intros Htable Hacc. rewrite Forall_forall in Htable. unfold main_on.
  set (dir := output_dir environ) in *.
  set (st0 := {| generated_files := []; output := _ |}).
  assert (Hdir : makedirs_refused os dir = None) by (apply Hacc).
  assert (Hbase : forall spec, In spec table ->
            open_refused os (fst (base_entry dir spec)) = None).
  { intros spec Hspec. apply Hacc. apply in_map. unfold run_decks.
    apply in_or_app. left. now apply in_map. }
  assert (Hanion : forall spec, In spec table ->
            accepts os dir (map (fun r => fst (anion_entry dir spec r)) spec)).
  { intros spec Hspec. apply (accepts_part _ _ _ Hacc).
    intros path Hpath. apply in_map_iff in Hpath.
    destruct Hpath as [r [<- Hr]]. apply in_map. unfold run_decks.
    apply in_or_app. right. apply in_or_app. left.
    unfold table_entries. apply in_flat_map. exists spec.
    split; [exact Hspec | now apply in_map]. }
  assert (Hradical : forall spec, In spec table ->
            accepts os dir
                    (map (fun r => fst (radical_entry dir spec r)) spec)).
  { intros spec Hspec. apply (accepts_part _ _ _ Hacc).
    intros path Hpath. apply in_map_iff in Hpath.
    destruct Hpath as [r [<- Hr]]. apply in_map. unfold run_decks.
    apply in_or_app. right. apply in_or_app. right.
    unfold table_entries. apply in_flat_map. exists spec.
    split; [exact Hspec | now apply in_map]. }
  unfold base_phase.
  match goal with
  | |- context [intermediates_phase ?g table st0] =>
      set (generate_base := g);
      destruct (phase_completes generate_base
                  (fun spec => [base_entry dir spec]) table)
        with (st := st0) as [st1 [Hrun1 [Hlen1 Hw1]]]
  end.
  { intros spec Hspec. specialize (Hbase spec Hspec). subst generate_base.
    cbv beta.
    unfold base_entry in Hbase. cbn [fst] in Hbase.
    unfold generate_gjf_files. fold (output_dir environ). fold dir.
    rewrite Hdir, Hbase. cbn [fst snd]. split; [reflexivity | eauto]. }
  rewrite Hrun1.
  destruct (phase_completes (generate_anion_intermediates os environ)
              (fun spec => map (anion_entry dir spec) spec) table)
    with (st := with_summary st1) as [st2 [Hrun2 [Hlen2 Hw2]]].
  { intros spec Hspec. split.
    - exact (anion_writes os environ spec (Hanion spec Hspec)).
    - rewrite (anion_return os environ spec (Hanion spec Hspec)).
      pose proof (Htable spec Hspec). destruct spec; [congruence | eauto]. }
  rewrite Hrun2.
  destruct (phase_completes
              (generate_neutral_radicals_intermediates os environ)
              (fun spec => map (radical_entry dir spec) spec) table)
    with (st := with_summary st2) as [st4 [Hrun4 [Hlen4 Hw4]]].
  { intros spec Hspec. split.
    - exact (radical_writes os environ spec (Hradical spec Hspec)).
    - rewrite (radical_return os environ spec (Hradical spec Hspec)).
      pose proof (Htable spec Hspec). destruct spec; [congruence | eauto]. }
  rewrite Hrun4. cbn [fst snd].
  rewrite with_summary_writes, Hw4, with_summary_writes, Hw2,
    with_summary_writes, Hw1, flat_map_single.
  cbn [with_summary generated_files] in *.
  split; [reflexivity |]. split; [simpl in Hlen1; lia |].
  unfold run_decks, table_entries.
  cbn [st0 output writes flat_map app]. now rewrite <- app_assoc.
Qed.

Lemma table_entries_length (entry : list Z -> Z -> string * string)
      (table : list (list Z)) :
  List.length (table_entries entry table) = List.length (List.concat table).
Proof.
  unfold table_entries. induction table as [| spec t IH]; [reflexivity |].
  cbn [flat_map List.concat]. now rewrite !length_app, length_map, IH.
Qed.

(** X4. When no position list of the table is empty and the operating
    system makes the output directory and opens the files, the
    module-level run ends normally; [generated_files] then holds three
    paths per list, while the files written are one base isomer per list
    and, from each of the two intermediate generators, one deck per
    position of each list. *)
Theorem main_run_completes (table : list (list Z)) :
  Forall (fun spec => spec <> []) table ->
  accepts os (output_dir environ)
          (map fst (run_decks (output_dir environ) table)) ->
  snd (main_on os environ table) = Ok tt /\
  List.length (generated_files (fst (main_on os environ table)))
  = (3 * List.length table)%nat /\
  writes (output (fst (main_on os environ table)))
  = (map (base_entry (output_dir environ)) table
     ++ table_entries (anion_entry (output_dir environ)) table
     ++ table_entries (radical_entry (output_dir environ)) table)%list /\
  List.length (writes (output (fst (main_on os environ table))))
  = (List.length table + 2 * List.length (List.concat table))%nat.
Proof.
  intros Htable Hacc.
  destruct (main_on_completes table Htable Hacc) as [Hret [Hlen Hw]].
  repeat split; try assumption.
  rewrite Hw. unfold run_decks.
  rewrite !length_app, length_map, !table_entries_length. lia.
Qed.

(** X6. When the operating system makes the output directory and opens
    the files, the run of the program on [CHLORINE_POSITIONS] ends
    normally, having written 90 decks and listed 36 paths; some path is
    written twice with different decks, so that a deck written earlier
    is lost: the anion intermediate of (1,2) without 2 and that of (1,3)
    without 3 go to the same file. *)
Theorem main_overwrites_intermediates :
  accepts os (output_dir environ)
          (map fst (run_decks (output_dir environ) CHLORINE_POSITIONS)) ->
  let written := writes (output (fst (main os environ))) in
  snd (main os environ) = Ok tt /\
  List.length written = 90%nat /\
  List.length (generated_files (fst (main os environ))) = 36%nat /\
  exists path deck1 deck2,
    deck1 <> deck2 /\ In (path, deck1) written /\ In (path, deck2) written /\
    (path, deck1) = anion_entry (output_dir environ) [1; 2] 2 /\
    (path, deck2) = anion_entry (output_dir environ) [1; 3] 3.
Proof.
  intros Hacc written. subst written. unfold main.
  assert (Htable : Forall (fun spec : list Z => spec <> []) CHLORINE_POSITIONS).
  { unfold CHLORINE_POSITIONS. repeat constructor; discriminate. }
  destruct (main_on_completes CHLORINE_POSITIONS Htable Hacc)
    as [Hret [Hlen Hw]].
  set (written := writes (output (fst (main_on os environ CHLORINE_POSITIONS))))
    in *.
  clearbody written.
  split; [exact Hret |].
  split; [rewrite Hw; unfold run_decks;
          rewrite !length_app, length_map, !table_entries_length;
          reflexivity |].
  split; [exact Hlen |].
  exists (fst (anion_entry (output_dir environ) [1; 2] 2)),
         (snd (anion_entry (output_dir environ) [1; 2] 2)),
         (snd (anion_entry (output_dir environ) [1; 3] 3)).
  assert (Hin : forall spec removed,
             In spec CHLORINE_POSITIONS -> In removed spec ->
             In (anion_entry (output_dir environ) spec removed) written).
  { intros spec removed Hspec Hremoved. rewrite Hw. unfold run_decks.
    apply in_or_app. right. apply in_or_app. left.
    unfold table_entries. apply in_flat_map. exists spec.
    split; [exact Hspec | now apply in_map]. }
  split; [intros E; vm_compute in E; discriminate |].
  split; [| split; [| split]]; try reflexivity.
  - apply (Hin [1; 2] 2); simpl; auto.
  - apply (Hin [1; 3] 3); simpl; auto.
Qed.

End MainRun.

Lemma main_run_completes_witness :
  snd (main_on posix_host no_env [[1]; [1; 2]]) = Ok tt /\
  List.length (writes (output (fst (main_on posix_host no_env
                                      [[1]; [1; 2]])))) = 8%nat.
Proof.
  assert (H : Forall (fun spec : list Z => spec <> []) [[1]; [1; 2]]).
  { repeat constructor; discriminate. }
  assert (Hacc : accepts posix_host (output_dir no_env)
                   (map fst (run_decks (output_dir no_env) [[1]; [1; 2]]))).
  { split; [reflexivity | intros path _; reflexivity]. }
  pose proof (main_run_completes posix_host no_env [[1]; [1; 2]] H Hacc)
    as [Hret [_ [_ Hcount]]].
  split; [exact Hret | exact Hcount].
Defined.

Lemma main_overwrites_intermediates_witness :
  snd (main posix_host no_env) = Ok tt /\
  List.length (writes (output (fst (main posix_host no_env)))) = 90%nat.
Proof.
  assert (Hacc : accepts posix_host (output_dir no_env)
                   (map fst (run_decks (output_dir no_env)
                                       CHLORINE_POSITIONS))).
  { split; [reflexivity | intros path _; reflexivity]. }
  pose proof (main_overwrites_intermediates posix_host no_env Hacc)
    as [Hret [Hcount _]].
  split; [exact Hret | exact Hcount].
Defined.

(* ================================================================== *)
(** * More on the log scraper *)

Section ScraperExtras.

(** ** Names *)

Lemma lstrip_suffix (chars s : string) : exists a, s = a ++ lstrip chars s.
Proof.
  induction s as [| c s [a IH]]; [now exists "" |].
  cbn [lstrip]. destruct (one_of chars c).
  - exists (String c a). cbn [String.append]. now rewrite <- IH.
  - now exists "".
Qed.

Lemma rstrip_prefix (chars s : string) : exists b, s = rstrip chars s ++ b.
Proof.
  induction s as [| c s [b IH]]; [now exists "" |].
  cbn [rstrip]. destruct (rstrip chars s) as [| d t] eqn:E.
  - destruct (one_of chars c).
    + now exists (String c s).
    + exists s. reflexivity.
  - exists b. cbn [String.append] in *. now rewrite <- IH.
Qed.

Lemma before_last_prefix (c : ascii) (s t : string) :
  before_last c s = Some t -> exists b, s = t ++ b.
Proof.
  revert t. induction s as [| a s IH]; intros t H; [discriminate |].
  cbn [before_last] in H. destruct (before_last c s) as [t' |].
  - inversion H; subst t. destruct (IH t' eq_refl) as [b ->].
    now exists b.
  - destruct (Ascii.eqb a c); [| discriminate]. inversion H.
    now exists (String a s).
Qed.

(** What is left of the stem before it is stripped is a prefix of it. *)
Lemma stem_left_prefix (stem : string) :
  exists b,
    stem = (if str_contains "_" stem then rsplit1_head "_"%char stem
            else stem) ++ b.
Proof.
  destruct (str_contains "_" stem).
  - unfold rsplit1_head.
    destruct (before_last "_" stem) as [t |] eqn:E.
    + exact (before_last_prefix _ _ _ E).
    + exists "". now rewrite append_empty_r.
  - exists "". now rewrite append_empty_r.
Qed.

(** X7. The name derived from a stem is a piece of the stem, and it is
    empty only for the empty stem. *)
Theorem stem_name_within (stem : string) :
  occurs (derive_name_from_stem stem) stem /\
  (derive_name_from_stem stem = "" <-> stem = "").
Proof.
  unfold derive_name_from_stem.
  destruct (stem_left_prefix stem) as [b Hb].
  set (left := if str_contains "_" stem then rsplit1_head "_"%char stem
               else stem) in *.
  destruct (lstrip_suffix " _" left) as [a Ha].
  destruct (rstrip_prefix " _" (lstrip " _" left)) as [c Hc].
  fold (strip " _" left) in Hc.
  destruct (String.eqb_spec (strip " _" left) "") as [E | E].
  - split; [exists "", ""; now rewrite append_empty_r | tauto].
  - split.
    + exists a, (c ++ b). rewrite Hb at 1. rewrite Ha at 1. rewrite Hc at 1.
      now rewrite !append_assoc.
    + split; [contradiction |]. intros ->. exfalso. apply E.
      clear. reflexivity.
Qed.

Lemma rstrip_idempotent (chars s : string) :
  rstrip chars (rstrip chars s) = rstrip chars s.
Proof.
  assert (Hstep : forall c s,
             rstrip chars (String c s)
             = match rstrip chars s with
               | EmptyString => if one_of chars c then EmptyString
                                else String c EmptyString
               | t => String c t
               end) by reflexivity.
  induction s as [| c s IH]; [reflexivity |].
  rewrite Hstep. destruct (rstrip chars s) as [| d t] eqn:E.
  - destruct (one_of chars c) eqn:Ec; [reflexivity |].
    rewrite Hstep. cbn [rstrip]. now rewrite Ec.
  - rewrite Hstep. now rewrite IH.
Qed.

Lemma rstrip_keeps_head (chars s : string) (c : ascii) :
  one_of chars c = false ->
  exists t, rstrip chars (String c s) = String c t.
Proof.
  intros Hc. cbn [rstrip]. destruct (rstrip chars s) as [| d t].
  - rewrite Hc. now exists "".
  - now exists (String d t).
Qed.

Lemma lstrip_head (chars s : string) :
  lstrip chars s = "" \/
  exists c t, lstrip chars s = String c t /\ one_of chars c = false.
Proof.
  induction s as [| c s IH]; [now left |].
  cbn [lstrip]. destruct (one_of chars c) eqn:E; [exact IH |].
  right. now exists c, s.
Qed.

Lemma strip_idempotent (chars s : string) :
  strip chars (strip chars s) = strip chars s.
Proof.
  unfold strip.
  destruct (lstrip_head chars s) as [-> | [c [t [-> Hc]]]]; [reflexivity |].
  destruct (rstrip_keeps_head chars t c Hc) as [t' E].
  rewrite E. cbn [lstrip]. rewrite Hc, <- E. apply rstrip_idempotent.
Qed.

(** X8. Unless the name is the stem itself, it neither starts nor ends
    with a blank or an underscore: stripping it again changes nothing. *)
Theorem stem_name_stripped (stem : string) :
  derive_name_from_stem stem = stem \/
  (strip " _" (derive_name_from_stem stem) = derive_name_from_stem stem /\
   derive_name_from_stem stem <> "").
Proof.
  unfold derive_name_from_stem.
  set (left := if str_contains "_" stem then rsplit1_head "_"%char stem
               else stem).
  destruct (String.eqb_spec (strip " _" left) "") as [E | E].
  - now left.
  - right. split; [apply strip_idempotent | exact E].
Qed.

(** ** Which occurrence decides *)

Lemma absent_char (c : ascii) (t : string) :
  str_contains (String c "") t = false -> all_chars (fun d => d <> c) t.
Proof.
  unfold all_chars. induction t as [| d t IH]; intros H; [constructor |].
  cbn [str_contains String.prefix] in H.
  apply orb_false_elim in H. destruct H as [Hd Ht].
  constructor; [| now apply IH].
  intros ->. destruct (ascii_dec c c); [| congruence].
  destruct t; discriminate Hd.
Qed.

(** A marker whose first character occurs nowhere else in a text occurs
    in it once. *)
Lemma sole_occurrence (c0 : ascii) (M' u v a x : string) :
  all_chars (fun c => c <> c0) M' ->
  all_chars (fun c => c <> c0) u ->
  all_chars (fun c => c <> c0) v ->
  u ++ String c0 M' ++ v = a ++ String c0 M' ++ x ->
  a = u /\ x = v.
Proof.
  intros HM Hu Hv H.
  assert (Hbad : forall y z, ~ all_chars (fun c => c <> c0) (y ++ String c0 z)).
  { intros y z Hall. apply all_chars_append in Hall. destruct Hall as [_ Hall].
    apply all_chars_cons in Hall. now destruct Hall as [Hall _]. }
  destruct (append_eq_append _ _ _ _ H) as [[e [He Hrest]] | [e [He Hrest]]].
  - destruct e as [| d e'].
    + rewrite append_empty_r in He. cbn [String.append] in Hrest.
      injection Hrest as Hx. apply append_cancel_l in Hx. now subst.
    + exfalso. cbn [String.append] in Hrest. injection Hrest as Hd Hx.
      apply (Hbad e' (M' ++ x)). rewrite <- Hx.
      apply all_chars_append. now split.
  - destruct e as [| d e'].
    + rewrite append_empty_r in He. cbn [String.append] in Hrest.
      injection Hrest as Hx. apply append_cancel_l in Hx. now subst.
    + exfalso. cbn [String.append] in Hrest. injection Hrest as Hd Hx.
      rewrite <- Hd in He. apply (Hbad a e'). now rewrite <- He.
Qed.

(** X9. dG comes from the last occurrence of the marker at which the
    pattern matches: occurrences after it that no number follows are
    passed over, they do not make the value [None]. *)
Theorem dG_last_matching_occurrence
        (pre post : string) (m : match_obj) (tok : string) :
  match_here DG_RE (DG_MARKER ++ post) = Some m ->
  group1 m = Some tok ->
  (forall rest a x,
      DG_MARKER ++ post = group0 m ++ rest ->
      rest = a ++ DG_MARKER ++ x ->
      match_here DG_RE (DG_MARKER ++ x) = None) ->
  fst (extract_values (pre ++ DG_MARKER ++ post)) = Some tok.
Proof.
  intros Hm Hg Hlater.
  destruct (marked_match (fun c => c <> "S"%char) _ _ DG_TAIL
              dg_tail_alphabet _ _ Hm) as [w [rest [Hs [_ Hg0]]]].
  change (String "S" "um of electronic and thermal Free Energies=")
    with DG_MARKER in Hs, Hg0.
  assert (Htarget : DG_MARKER ++ post = group0 m ++ rest)
    by now rewrite Hg0, append_assoc.
  destruct (scan_last DG_RE pre (DG_MARKER ++ post) rest m) as [l Hl].
  - intros a c b m'.
    apply (marked_within (fun c => c <> "S"%char) "S"%char _ DG_TAIL
             dg_marker_start_unique dg_tail_alphabet pre post).
    intros a' f e' _ H. apply all_chars_append in H. destruct H as [_ H].
    apply all_chars_cons in H. destruct H as [H _]. now apply H.
  - exact Hm.
  - exact Htarget.
  - rewrite Hg0. discriminate.
  - intros a b Hrest.
    destruct (match_here DG_RE b) as [m' |] eqn:E; [| reflexivity].
    destruct (marked_match (fun c => c <> "S"%char) _ _ DG_TAIL
                dg_tail_alphabet _ _ E) as [w' [s' [Hb _]]].
    change (String "S" "um of electronic and thermal Free Energies=")
      with DG_MARKER in Hb.
    rewrite <- E. subst b. apply (Hlater rest a (w' ++ s') Htarget Hrest).
  - unfold extract_values, findall. cbn [fst]. rewrite Hl, map_app.
    cbn [map]. rewrite Hg.
    destruct (map _ l); reflexivity || (unfold last_item; cbn [app]).
    now rewrite app_comm_cons, last_last.
Qed.

Lemma dG_last_matching_occurrence_witness :
  fst (extract_values
         ("Job" ++ nl ++ DG_MARKER ++ "  -123.456" ++ nl
                ++ DG_MARKER ++ " n/a" ++ nl))
  = Some "-123.456".
Proof.
  apply (dG_last_matching_occurrence ("Job" ++ nl)
           ("  -123.456" ++ nl ++ DG_MARKER ++ " n/a" ++ nl)
           {| group0 := DG_MARKER ++ "  -123.456";
              group1 := Some "-123.456" |}).
  - reflexivity.
  - reflexivity.
  - intros rest a x Hrest Hx.
    change (DG_MARKER ++ "  -123.456" ++ nl ++ DG_MARKER ++ " n/a" ++ nl
            = (DG_MARKER ++ "  -123.456") ++ rest) in Hrest.
    rewrite append_assoc in Hrest. do 2 apply append_cancel_l in Hrest.
    subst rest.
    destruct (sole_occurrence "S"%char
                "um of electronic and thermal Free Energies="
                nl (" n/a" ++ nl) a x dg_marker_start_unique
                (absent_char "S" nl eq_refl)
                (absent_char "S" (" n/a" ++ nl) eq_refl) Hx)
      as [_ ->].
    reflexivity.
Defined.

Lemma digits_first_none {A : Type} (r : regex) (s : string)
      (g : option string) (k : string -> option string -> option A) :
  match s with
  | EmptyString => True
  | String c _ => is_digit c = false
  end ->
  run (Cat (Plus (Cls is_digit)) r) s g k = None.
Proof.
  intros H. rewrite run_Cat, run_Plus. destruct s as [| c s].
  - apply run_Cls_nil.
  - now rewrite run_Cls_cons, H.
Qed.

Lemma number_not_here (s : string) :
  no_digit s -> match_here NUMBER_RE s = None.
Proof.
  intros H. unfold match_here, NUMBER_RE. rewrite run_Cat, run_Opt.
  destruct s as [| c s].
  - rewrite run_Cls_nil. now apply digits_first_none.
  - apply all_chars_cons in H. destruct H as [Hc Hs].
    rewrite run_Cls_cons.
    assert (Htail : forall k' : string -> option string -> option match_obj,
               run (Cat (Plus (Cls is_digit))
                      (Cat (Opt (Cat (Lit ".") (Star (Cls is_digit))))
                         (Opt (Cat (Cls (one_of "Ee"))
                                 (Cat (Opt (Cls (one_of "+-")))
                                    (Plus (Cls is_digit)))))))
                   s None k' = None).
    { intros k'. apply digits_first_none. destruct s as [| d s']; [exact I |].
      apply all_chars_cons in Hs. now destruct Hs. }
    destruct (one_of "+-" c); rewrite ?Htail; now apply digits_first_none.
Qed.

Lemma number_not_found (s : string) :
  no_digit s -> search NUMBER_RE s = None.
Proof.
  induction s as [| c s IH]; intros H.
  - cbn [search]. now rewrite number_not_here.
  - cbn [search]. rewrite (number_not_here _ H).
    apply all_chars_cons in H. now apply IH.
Qed.

(** X10. LUMO does not go back to an earlier line: when the last line
    that holds the marker has no digit after it, the value is [None],
    whatever the lines before it hold. *)
Theorem lumo_never_from_earlier_line (pre line post : string) :
  first_on_line ALPHA_MARKER pre ->
  no_newline line -> at_line_end post ->
  ~ occurs ALPHA_MARKER post ->
  no_digit line ->
  snd (extract_values (pre ++ ALPHA_MARKER ++ line ++ post)) = None.
Proof.
  intros Hfirst Hline Hend Hno Hdigit.
  rewrite (lumo_at_last_line pre line post Hfirst Hline Hend Hno).
  now rewrite (number_not_found line Hdigit).
Qed.

Lemma lumo_never_from_earlier_line_witness :
  snd (extract_values
         (ALPHA_MARKER ++ "  0.5 0.7" ++ nl ++ ALPHA_MARKER ++ " ****" ++ nl))
  = None.
Proof.
  change (snd (extract_values
                 ((ALPHA_MARKER ++ "  0.5 0.7" ++ nl)
                    ++ ALPHA_MARKER ++ " ****" ++ nl)) = None).
  apply (lumo_never_from_earlier_line (ALPHA_MARKER ++ "  0.5 0.7" ++ nl)
           " ****" nl).
  - intros a e Ha He.
    destruct (sole_occurrence "A"%char "lpha virt. eigenvalues --"
                "" ("  0.5 0.7" ++ nl) a e alpha_marker_start_unique
                (absent_char "A" "" eq_refl)
                (absent_char "A" ("  0.5 0.7" ++ nl) eq_refl) Ha) as [_ ->].
    unfold no_newline, all_chars in He. simpl in He.
    repeat match goal with
           | H : Forall _ (_ :: _) |- _ => inversion H; clear H; subst
           end.
    congruence.
  - unfold no_newline, all_chars. simpl.
    repeat (constructor; [discriminate |]). constructor.
  - right. now exists "".
  - apply not_contains_not_occurs. reflexivity.
  - unfold no_digit, all_chars. simpl. repeat constructor.
Defined.

(** ** The values are number tokens *)

Section Progress.

Context {A : Type}.
Variable P : ascii -> Prop.

(** A pattern that cannot match the empty string consumes something. *)
Lemma run_progress (r : regex) :
  over_alphabet P r -> never_empty r = true ->
  forall s g (k : string -> option string -> option A) a,
    run r s g k = Some a -> consumes_some P s k a.
Proof.
  induction r as [p | p | r1 IH1 r2 IH2 | r1 IH1 | r1 IH1 | r1 IH1 | r1 IH1];
    cbn [over_alphabet never_empty]; intros Hr Hne s g k a H;
    try discriminate Hne.
  - rewrite run_Lit in H.
    destruct (strip_prefix p s) as [s' |] eqn:E; [| discriminate].
    apply strip_prefix_Some in E. subst s.
    exists p, s', g. repeat split; auto.
    intros ->. discriminate Hne.
  - destruct s as [| c s']; [discriminate |]. rewrite run_Cls_cons in H.
    destruct (p c) eqn:E; [| discriminate].
    exists (String c ""), s', g. repeat split; auto; [discriminate |].
    apply all_chars_cons. split; [auto | constructor].
  - destruct Hr as [Hr1 Hr2]. rewrite run_Cat in H.
    destruct (never_empty r1) eqn:E1.
    + apply (IH1 Hr1 eq_refl) in H.
      destruct H as [w1 [s1 [g1 [-> [Hw1 [HP1 H]]]]]].
      apply (run_sound P r2 Hr2) in H.
      destruct H as [w2 [s2 [g2 [-> [HP2 H]]]]].
      exists (w1 ++ w2), s2, g2. rewrite append_assoc.
      repeat split; auto.
      * destruct w1; [congruence | discriminate].
      * apply all_chars_append. now split.
    + cbn [orb] in Hne. apply (run_sound P r1 Hr1) in H.
      destruct H as [w1 [s1 [g1 [-> [HP1 H]]]]].
      apply (IH2 Hr2 Hne) in H.
      destruct H as [w2 [s2 [g2 [-> [Hw2 [HP2 H]]]]]].
      exists (w1 ++ w2), s2, g2. rewrite append_assoc.
      repeat split; auto.
      * destruct w1; [exact Hw2 | discriminate].
      * apply all_chars_append. now split.
  - rewrite run_Plus in H. apply (IH1 Hr Hne) in H.
    destruct H as [w1 [s1 [g1 [-> [Hw1 [HP1 H]]]]]].
    apply (star_sound P (run r1) (run_sound P r1 Hr)) in H.
    destruct H as [w2 [s2 [g2 [-> [HP2 H]]]]].
    exists (w1 ++ w2), s2, g2. rewrite append_assoc.
    repeat split; auto.
    + destruct w1; [congruence | discriminate].
    + apply all_chars_append. now split.
  - rewrite run_Grp in H. apply (IH1 Hr Hne) in H.
    destruct H as [w [s' [g' [-> [Hw [HP H]]]]]].
    exists w, s', (Some (consumed (w ++ s') s')). auto.
Qed.

End Progress.

Lemma number_alphabet : over_alphabet number_char NUMBER_RE.
Proof.
  assert (Hsign : forall c, one_of "+-" c = true -> number_char c).
  { intros c H. right. cbn [one_of] in *.
    destruct (Ascii.eqb c "+"), (Ascii.eqb c "-"); try discriminate H;
      reflexivity. }
  assert (Hexp : forall c, one_of "Ee" c = true -> number_char c).
  { intros c H. right. cbn [one_of] in *.
    destruct (Ascii.eqb c "E"), (Ascii.eqb c "e"); try discriminate H;
      rewrite ?orb_true_r; reflexivity. }
  assert (Hdigit : forall c, is_digit c = true -> number_char c)
    by (intros c H; now left).
  cbn [over_alphabet NUMBER_RE]. repeat split; auto.
  unfold all_chars. simpl. constructor; [| constructor].
  right. reflexivity.
Qed.

(** A match of the number pattern: what it consumes is a token. *)
Lemma number_token {A : Type} (s : string) (g : option string)
      (k : string -> option string -> option A) (a : A) :
  run NUMBER_RE s g k = Some a ->
  exists w s' g',
    s = w ++ s' /\ w <> "" /\ all_chars number_char w /\ k s' g' = Some a.
Proof.
  apply (run_progress number_char NUMBER_RE number_alphabet eq_refl).
Qed.

Lemma dg_match_token (b : string) (m : match_obj) :
  match_here DG_RE b = Some m ->
  exists tok,
    group1 m = Some tok /\ tok <> "" /\ all_chars number_char tok.
Proof.
  unfold match_here, DG_RE, DG_TAIL. rewrite run_Cat, run_Lit.
  destruct (strip_prefix DG_MARKER b) as [s1 |]; [| discriminate].
  rewrite run_Cat. intros H.
  apply (run_sound (fun _ => True) (Star (Cls is_space))) in H;
    [| now cbn].
  destruct H as [w [s2 [g2 [_ [_ H]]]]].
  rewrite run_Grp in H. apply number_token in H.
  destruct H as [tok [s3 [g3 [-> [Hne [Htok H]]]]]].
  inversion H. rewrite consumed_append. cbn [group1]. eauto.
Qed.

Lemma scan_matches (r : regex) (s : string) :
  forall skip m, In m (scan r s skip) ->
                 exists a b, s = a ++ b /\ match_here r b = Some m.
Proof.
  induction s as [| c s IH]; intros skip m Hin.
  - destruct skip; cbn [scan] in Hin; [| contradiction].
    destruct (match_here r "") as [m0 |] eqn:E; [| contradiction].
    destruct Hin as [<- | []]. now exists "", "".
  - assert (Htail : forall skip', In m (scan r s skip') ->
               exists a b, String c s = a ++ b /\ match_here r b = Some m).
    { intros skip' H. destruct (IH skip' m H) as [a [b [-> Hb]]].
      now exists (String c a), b. }
    destruct skip; cbn [scan] in Hin; [| now apply (Htail skip)].
    destruct (match_here r (String c s)) as [m0 |] eqn:E.
    + destruct Hin as [<- | Hin]; [now exists "", (String c s) |].
      now apply (Htail _ Hin).
    + now apply (Htail _ Hin).
Qed.

Lemma search_matches (r : regex) (s : string) (m : match_obj) :
  search r s = Some m ->
  exists a b, s = a ++ b /\ match_here r b = Some m.
Proof.
  induction s as [| c s IH]; cbn [search].
  - destruct (match_here r "") eqn:E; [| discriminate].
    intros H. inversion H; subst. now exists "", "".
  - destruct (match_here r (String c s)) eqn:E.
    + intros H. inversion H; subst. now exists "", (String c s).
    + intros H. destruct (IH H) as [a [b [-> Hb]]].
      now exists (String c a), b.
Qed.

Lemma last_item_In {B : Type} (d : B) (l : list B) :
  l <> [] -> In (last_item l d) l.
Proof.
  intros Hl. unfold last_item.
  destruct (@exists_last B l Hl) as [l' [y E]].
  rewrite E, last_last. apply in_or_app. right. now left.
Qed.

Lemma last_reported_In {B : Type} (d x : B) (l : list B) :
  match l with
  | [] => None
  | _ :: _ => Some (last_item l d)
  end = Some x ->
  In x l.
Proof.
  intros H.
  assert (Hl : l <> []) by (intros ->; discriminate H).
  pose proof (last_item_In d l Hl) as Hin.
  destruct l as [| y l]; [discriminate |].
  congruence.
Qed.

(** X11. Every value the scraper reports, dG or LUMO, is a token that
    is not empty and made only of digits, signs, the dot and the
    exponent letters. *)
Theorem scraped_values_are_tokens (text tok : string) :
  fst (extract_values text) = Some tok \/
  snd (extract_values text) = Some tok ->
  tok <> "" /\ all_chars number_char tok.
Proof.
  unfold extract_values. cbn [fst snd]. intros [H | H].
  - apply last_reported_In in H. unfold findall in H.
    apply in_map_iff in H. destruct H as [m [Hm Hin]].
    destruct (scan_matches _ _ _ _ Hin) as [a [b [_ Hb]]].
    destruct (dg_match_token b m Hb) as [t [Hg [Hne Ht]]].
    rewrite Hg in Hm. now subst t.
  - destruct (finditer ALPHA_LINE_RE text) as [| m0 l]; [discriminate |].
    destruct (search NUMBER_RE _) as [nm |] eqn:E; [| discriminate].
    inversion H as [Htok]. clear H.
    destruct (search_matches _ _ _ E) as [a [b [_ Hb]]].
    unfold match_here in Hb. apply number_token in Hb.
    destruct Hb as [w [s' [g' [-> [Hne [Hw Hb]]]]]].
    inversion Hb. cbn [group0]. now rewrite consumed_append.
Qed.

Lemma scraped_values_are_tokens_witness :
  "-1.5E+03" <> "" /\ all_chars number_char "-1.5E+03".
Proof.
  apply (scraped_values_are_tokens (DG_MARKER ++ " -1.5E+03 Eh") "-1.5E+03").
  left. reflexivity.
Defined.

End ScraperExtras.

(* ================================================================== *)
(** * The frequency generator *)

Section SplitExt.

Lemma substring_skip (a b : string) (n m : nat) :
  String.substring (String.length a + n) m (a ++ b) = String.substring n m b.
Proof. induction a as [| c a IH]; [reflexivity | exact IH]. Qed.

Lemma substring_whole (s : string) :
  String.substring 0 (String.length s) s = s.
Proof.
  rewrite <- (append_empty_r s) at 2. apply substring_all.
Qed.

Lemma rfind_char_absent (c : ascii) (s : string) :
  all_chars (fun d => d <> c) s -> rfind_char c s = None.
Proof.
  induction s as [| a s IH]; intros H; [reflexivity |].
  apply all_chars_cons in H. destruct H as [Ha Hs].
  cbn [rfind_char]. rewrite (IH Hs).
  destruct (Ascii.eqb_spec a c); [contradiction | reflexivity].
Qed.

Lemma rfind_char_last (c : ascii) (b e : string) :
  all_chars (fun d => d <> c) e ->
  rfind_char c (b ++ String c e) = Some (String.length b).
Proof.
  intros He. induction b as [| a b IH].
  - cbn [String.append rfind_char String.length].
    now rewrite (rfind_char_absent c e He), Ascii.eqb_refl.
  - cbn [String.append rfind_char String.length]. now rewrite IH.
Qed.

(** The loop that skips leading dots finds a character of the name. *)
Lemma name_before_dot_found (base : string) :
  ~ only_dots base ->
  forall pre rest,
    name_before_dot (String.length base) (pre ++ base ++ rest)
                    (Z.of_nat (String.length pre))
                    (Z.of_nat (String.length pre + String.length base))
    = true.
Proof.
  induction base as [| c base IH]; intros Hname pre rest.
  - exfalso. apply Hname. constructor.
  - cbn [String.length name_before_dot].
    assert (Hlt : (Z.of_nat (String.length pre)
                   <? Z.of_nat (String.length pre + S (String.length base)))
                  = true) by (apply Z.ltb_lt; lia).
    rewrite Hlt. unfold slice.
    replace (Z.of_nat (String.length pre) + 1 - Z.of_nat (String.length pre))
      with 1 by lia.
    rewrite Nat2Z.id.
    rewrite <- (Nat.add_0_r (String.length pre)) at 1.
    rewrite substring_skip.
    change (String.substring 0 (Z.to_nat 1) (String c base ++ rest))
      with (String c (String.substring 0 0 (base ++ rest))).
    replace (String.substring 0 0 (base ++ rest)) with EmptyString
      by (now destruct (base ++ rest)).
    destruct (String.eqb_spec (String c "") ".") as [E | E]; [| reflexivity].
    cbn [negb]. injection E as ->.
    assert (Hbase : ~ only_dots base).
    { intros H. apply Hname. apply all_chars_cons. now split. }
    specialize (IH Hbase (pre ++ ".") rest).
    rewrite append_assoc, length_append in IH. cbn [String.length] in IH.
    cbn [String.append] in IH.
    replace (Z.of_nat (String.length pre) + 1)
      with (Z.of_nat (String.length pre + 1)) by lia.
    replace (String.length pre + S (String.length base))%nat
      with (String.length pre + 1 + String.length base)%nat by lia.
    exact IH.
Qed.

(** [splitext] takes a last extension off a file name. *)
Lemma splitext_ext (base e : string) :
  no_slash base -> ~ only_dots base -> all_chars plain_char e ->
  splitext (base ++ "." ++ e) = (base, "." ++ e).
Proof.
  intros Hslash Hname He. unfold splitext, rfind.
  assert (He_dot : all_chars (fun d => d <> "."%char) e).
  { unfold all_chars in *. eapply Forall_impl; [| exact He].
    now intros a [Ha _]. }
  assert (He_slash : all_chars (fun d => d <> "/"%char) e).
  { unfold all_chars in *. eapply Forall_impl; [| exact He].
    now intros a [_ Ha]. }
  rewrite (rfind_char_absent "/" (base ++ "." ++ e)).
  2:{ apply all_chars_append. split; [exact Hslash |].
      apply all_chars_cons. split; [discriminate | exact He_slash]. }
  change (base ++ "." ++ e) with (base ++ String "." e).
  rewrite (rfind_char_last "." base e He_dot).
  assert (Hgt : (Z.of_nat (String.length base) >? -1) = true)
    by (apply Z.gtb_lt; lia).
  rewrite Hgt. cbn [andb].
  replace (Z.of_nat (String.length base) - (-1 + 1))
    with (Z.of_nat (String.length base)) by lia.
  rewrite Nat2Z.id.
  pose proof (name_before_dot_found base Hname "" (String "." e)) as Hfound.
  cbn [String.append String.length Nat.add] in Hfound.
  change (-1 + 1) with 0. change (Z.of_nat 0) with 0 in Hfound.
  rewrite Hfound. unfold slice. f_equal.
  - rewrite Z.sub_0_r, Nat2Z.id. apply substring_all.
  - rewrite Nat2Z.id.
    rewrite <- (Nat.add_0_r (String.length base)) at 1.
    rewrite substring_skip, length_append.
    replace (Z.to_nat (Z.of_nat (String.length base
                                 + String.length (String "." e))
                       - Z.of_nat (String.length base)))
      with (String.length (String "." e)) by lia.
    apply substring_whole.
Qed.

End SplitExt.

(** ** The listing is sorted *)

Section Sorting.

Lemma nat_of_ascii_inj (a b : ascii) :
  nat_of_ascii a = nat_of_ascii b -> a = b.
Proof.
  intros H. rewrite <- (ascii_nat_embedding a), <- (ascii_nat_embedding b).
  now rewrite H.
Qed.

Lemma str_le_total (s1 s2 : string) :
  str_le s1 s2 = true \/ str_le s2 s1 = true.
Proof.
  revert s2. induction s1 as [| a s1 IH]; intros [| b s2]; cbn [str_le]; auto.
  destruct (Nat.ltb_spec (nat_of_ascii a) (nat_of_ascii b)); auto.
  destruct (Nat.ltb_spec (nat_of_ascii b) (nat_of_ascii a)); auto.
  destruct (Nat.eqb_spec (nat_of_ascii a) (nat_of_ascii b)); [| lia].
  destruct (Nat.eqb_spec (nat_of_ascii b) (nat_of_ascii a)); [| lia].
  apply IH.
Qed.

Lemma str_le_antisym (s1 s2 : string) :
  str_le s1 s2 = true -> str_le s2 s1 = true -> s1 = s2.
Proof.
  revert s2. induction s1 as [| a s1 IH]; intros [| b s2]; cbn [str_le];
    try discriminate; auto.
  destruct (Nat.ltb_spec (nat_of_ascii a) (nat_of_ascii b));
    destruct (Nat.ltb_spec (nat_of_ascii b) (nat_of_ascii a));
    destruct (Nat.eqb_spec (nat_of_ascii a) (nat_of_ascii b));
    destruct (Nat.eqb_spec (nat_of_ascii b) (nat_of_ascii a));
    try lia; try discriminate.
  intros H1 H2. f_equal; [now apply nat_of_ascii_inj | now apply IH].
Qed.

Lemma str_le_trans (s1 s2 s3 : string) :
  str_le s1 s2 = true -> str_le s2 s3 = true -> str_le s1 s3 = true.
Proof.
  revert s2 s3.
  induction s1 as [| a s1 IH]; intros [| b s2] [| c s3]; cbn [str_le];
    try discriminate; auto.
  destruct (Nat.ltb_spec (nat_of_ascii a) (nat_of_ascii b));
    destruct (Nat.ltb_spec (nat_of_ascii b) (nat_of_ascii c));
    destruct (Nat.ltb_spec (nat_of_ascii a) (nat_of_ascii c));
    destruct (Nat.eqb_spec (nat_of_ascii a) (nat_of_ascii b));
    destruct (Nat.eqb_spec (nat_of_ascii b) (nat_of_ascii c));
    destruct (Nat.eqb_spec (nat_of_ascii a) (nat_of_ascii c));
    try lia; try discriminate; auto.
  apply IH.
Qed.

Lemma str_le_false (s1 s2 : string) :
  str_le s1 s2 = false -> str_le s2 s1 = true.
Proof.
  intros H. destruct (str_le_total s1 s2) as [E | E]; [congruence | exact E].
Qed.

(** Two insertions give the same list in either order. *)
Lemma insert_sorted_comm (x y : string) (l : list string) :
  insert_sorted x (insert_sorted y l) = insert_sorted y (insert_sorted x l).
Proof.
  induction l as [| h t IH]; cbn [insert_sorted].
  - destruct (str_le x y) eqn:Exy, (str_le y x) eqn:Eyx;
      try reflexivity.
    + now rewrite (str_le_antisym x y Exy Eyx).
    + apply str_le_false in Exy. congruence.
  - destruct (str_le y h) eqn:Eyh, (str_le x h) eqn:Exh;
      cbn [insert_sorted]; rewrite ?Exh, ?Eyh.
    + destruct (str_le x y) eqn:Exy, (str_le y x) eqn:Eyx;
        try reflexivity.
      * now rewrite (str_le_antisym x y Exy Eyx).
      * apply str_le_false in Exy. congruence.
    + destruct (str_le x y) eqn:Exy; [| reflexivity].
      rewrite (str_le_trans x y h Exy Eyh) in Exh. discriminate.
    + destruct (str_le y x) eqn:Eyx; [| reflexivity].
      rewrite (str_le_trans y x h Eyx Exh) in Eyh. discriminate.
    + now rewrite IH.
Qed.

(** [sorted] depends on the names listed, not on their order. *)
Lemma sorted_permutation (l1 l2 : list string) :
  Permutation l1 l2 -> sorted l1 = sorted l2.
Proof.
  induction 1 as [| x l1 l2 _ IH | x y l | l1 l2 l3 _ IH1 _ IH2];
    cbn [sorted].
  - reflexivity.
  - now rewrite IH.
  - apply insert_sorted_comm.
  - now rewrite IH1.
Qed.

Lemma insert_sorted_perm (x : string) (l : list string) :
  Permutation (insert_sorted x l) (x :: l).
Proof.
  induction l as [| h t IH]; cbn [insert_sorted]; [reflexivity |].
  destruct (str_le x h); [reflexivity |].
  rewrite IH. apply perm_swap.
Qed.

Lemma sorted_perm (l : list string) : Permutation (sorted l) l.
Proof.
  induction l as [| x l IH]; cbn [sorted]; [reflexivity |].
  rewrite insert_sorted_perm. now constructor.
Qed.

End Sorting.

(** ** One run of the frequency generator *)

Section FrequencyRun.

(** What the loop has done after the entries [l]: the count has grown
    by the number of entries written, and the decks written are theirs,
    in order. *)
Lemma frequency_fold (fs : filesystem) (l : list string) :
  forall n ev,
  exists more,
    fold_left (frequency_iteration fs) l (n, ev)
    = (n + Z.of_nat (List.length (filter (written fs) l)),
       (ev ++ more)%list)
    /\ writes more = map frequency_entry (filter (written fs) l).
Proof.
  induction l as [| x l IH]; intros n ev.
  - exists []. cbn [fold_left filter List.length map].
    rewrite app_nil_r, Z.add_0_r. now split.
  - cbn [fold_left filter].
    remember (written fs x) as w eqn:Hx. unfold written in Hx.
    unfold frequency_iteration at 2.
    destruct (isdir fs (os_path_join GEOMETRY_COMPLETED_DIR x)).
    + cbn [negb andb] in Hx. subst w. apply IH.
    + cbn [negb andb] in Hx.
      destruct (frequency_entry x) as [path deck] eqn:Ex. cbn [fst] in Hx.
      destruct (open_error fs path) as [e |]; subst w.
      * destruct (IH n (ev ++ [Print ("ERROR: Could not write '" ++ path
                                       ++ "': " ++ e)])%list)
          as [more [Hfold Hw]].
        exists (Print ("ERROR: Could not write '" ++ path ++ "': " ++ e)
                  :: more).
        rewrite Hfold, <- app_assoc. now split.
      * destruct (IH (n + 1)
                     (ev ++ [WriteFile path deck;
                             Print (check_mark ++ " Generated: " ++ path)])%list)
          as [more [Hfold Hw]].
        exists (WriteFile path deck
                  :: Print (check_mark ++ " Generated: " ++ path) :: more).
        rewrite Hfold, <- app_assoc. cbn [List.length map].
        split; [f_equal; lia |].
        cbn [writes flat_map List.app]. fold (writes more).
        now rewrite Hw, Ex.
Qed.

Lemma frequency_iteration_ext (fs1 fs2 : filesystem) :
  (forall p, isdir fs1 p = isdir fs2 p) ->
  (forall p, open_error fs1 p = open_error fs2 p) ->
  forall l st,
    fold_left (frequency_iteration fs1) l st
    = fold_left (frequency_iteration fs2) l st.
Proof.
  intros Hdir Hopen. induction l as [| x l IH]; intros st; [reflexivity |].
  cbn [fold_left]. rewrite IH. f_equal.
  unfold frequency_iteration. destruct st as [n ev].
  rewrite Hdir. destruct (isdir fs2 _); [reflexivity |].
  destruct (frequency_entry x) as [path deck]. now rewrite Hopen.
Qed.

(** X12. The order in which the operating system lists the directory
    does not matter: two runs on file systems that answer alike, but
    list the same entries in different orders, do the same. *)
Theorem listing_order_irrelevant
        (fs1 fs2 : filesystem) (files1 files2 : list string) :
  (forall d, makedirs_error fs1 d = makedirs_error fs2 d) ->
  (forall p, isdir fs1 p = isdir fs2 p) ->
  (forall p, open_error fs1 p = open_error fs2 p) ->
  listdir fs1 GEOMETRY_COMPLETED_DIR = inl files1 ->
  listdir fs2 GEOMETRY_COMPLETED_DIR = inl files2 ->
  Permutation files1 files2 ->
  generate_frequency_files fs1 = generate_frequency_files fs2.
Proof.
  intros Hmk Hdir Hopen H1 H2 Hperm. unfold generate_frequency_files.
  rewrite Hmk, Hdir, H1, H2.
  destruct (makedirs_error fs2 FREQUENCY_OUTPUT_DIR); [reflexivity |].
  destruct (isdir fs2 GEOMETRY_COMPLETED_DIR); [| reflexivity].
  cbn [negb].
  destruct files1 as [| x1 l1], files2 as [| x2 l2]; try reflexivity.
  - apply Permutation_nil in Hperm. discriminate Hperm.
  - apply Permutation_sym, Permutation_nil in Hperm. discriminate Hperm.
  - unfold frequency_loop.
    rewrite (sorted_permutation _ _ Hperm).
    now rewrite (frequency_iteration_ext fs1 fs2 Hdir Hopen).
Qed.

Lemma listing_order_irrelevant_witness :
  generate_frequency_files (example_fs ["13ClBz.gjf"; "12ClBz.gjf"] [] [])
  = generate_frequency_files (example_fs ["12ClBz.gjf"; "13ClBz.gjf"] [] []).
Proof.
  apply (listing_order_irrelevant
           (example_fs ["13ClBz.gjf"; "12ClBz.gjf"] [] [])
           (example_fs ["12ClBz.gjf"; "13ClBz.gjf"] [] [])
           ["13ClBz.gjf"; "12ClBz.gjf"] ["12ClBz.gjf"; "13ClBz.gjf"]);
    try reflexivity.
  apply perm_swap.
Defined.

(** X13. When the directory is listed and is not empty, the run ends
    normally; the decks it writes are those of the listed entries that
    are no directories and whose output file opens, in sorted order; the
    count of the summary line is the number of decks written, which is
    at most the number of entries. *)
Theorem frequency_count_is_writes (fs : filesystem) (files : list string) :
  makedirs_error fs FREQUENCY_OUTPUT_DIR = None ->
  isdir fs GEOMETRY_COMPLETED_DIR = true ->
  listdir fs GEOMETRY_COMPLETED_DIR = inl files ->
  files <> [] ->
  let run := generate_frequency_files fs in
  let decks := writes (fst run) in
  snd run = None /\
  decks = map frequency_entry (filter (written fs) (sorted files)) /\
  In (Print ("Successfully generated " ++ str (len decks)
             ++ " frequency input file(s).")) (fst run) /\
  (List.length decks <= List.length files)%nat.
Proof.
  intros Hmk Hdir Hls Hfiles run decks. subst decks run.
  unfold generate_frequency_files. rewrite Hmk, Hdir, Hls. cbn [negb].
  destruct files as [| x l]; [congruence |]. clear Hfiles.
  set (files := x :: l). unfold frequency_loop.
  destruct (frequency_fold fs (sorted files) 0 [MakeDirs FREQUENCY_OUTPUT_DIR])
    as [more [Hfold Hw]].
  rewrite Hfold. cbn [fst snd].
  set (kept := filter (written fs) (sorted files)) in *.
  assert (Hdecks : writes (([MakeDirs FREQUENCY_OUTPUT_DIR] ++ more)
                           ++ [Print (repeat_str "-" 60);
                               Print ("Successfully generated "
                                      ++ str (0 + Z.of_nat (List.length kept))
                                      ++ " frequency input file(s).");
                               Print ("Files saved to: "
                                      ++ FREQUENCY_OUTPUT_DIR ++ "/");
                               Print (repeat_str "-" 60)])%list
                   = map frequency_entry kept).
  { rewrite !writes_app, Hw. cbn [writes flat_map List.app].
    now rewrite app_nil_r. }
  rewrite Hdecks. split; [reflexivity |]. split; [reflexivity |]. split.
  - apply in_or_app. right. right. left.
    unfold len. now rewrite length_map, Z.add_0_l.
  - rewrite length_map. subst kept.
    rewrite <- (Permutation_length (sorted_perm files)).
    apply filter_length_le.
Qed.

Lemma frequency_count_is_writes_witness :
  (List.length
     (writes (fst (generate_frequency_files
                     (example_fs ["13ClBz.log"; "sub"; "12ClBz.gjf"] ["sub"]
                                 ["frequency_inputs/13ClBz_OptFreq.gjf"]))))
   <= 3)%nat.
Proof.
  refine (proj2 (proj2 (proj2
            (frequency_count_is_writes
               (example_fs ["13ClBz.log"; "sub"; "12ClBz.gjf"] ["sub"]
                           ["frequency_inputs/13ClBz_OptFreq.gjf"])
               ["13ClBz.log"; "sub"; "12ClBz.gjf"] _ _ _ _))));
    try reflexivity.
  discriminate.
Defined.

(** X14. Entries that differ in their last extension only get one
    output file: the same path and the same deck, under the output
    directory. *)
Theorem one_output_per_base_name (base e1 e2 : string) :
  no_slash base -> ~ only_dots base ->
  all_chars plain_char e1 -> all_chars plain_char e2 ->
  frequency_entry (base ++ "." ++ e1) = frequency_entry (base ++ "." ++ e2) /\
  fst (frequency_entry (base ++ "." ++ e1))
  = FREQUENCY_OUTPUT_DIR ++ "/" ++ base ++ "_OptFreq.gjf".
Proof.
  intros Hslash Hname He1 He2. unfold frequency_entry.
  rewrite !splitext_ext by assumption. cbn [fst]. split; [reflexivity |].
  unfold os_path_join.
  assert (Hrel : startswith (base ++ "_OptFreq.gjf") "/" = false).
  { destruct base as [| c base]; [reflexivity |].
    apply all_chars_cons in Hslash. destruct Hslash as [Hc _].
    unfold startswith. cbn [String.append String.prefix].
    destruct (ascii_dec "/" c); [congruence | reflexivity]. }
  rewrite Hrel. reflexivity.
Qed.

Lemma one_output_per_base_name_witness :
  frequency_entry "12ClBz.gjf" = frequency_entry "12ClBz.log".
Proof.
  refine (proj1 (one_output_per_base_name "12ClBz" "gjf" "log" _ _ _ _)).
  - unfold no_slash, all_chars. simpl.
    repeat (constructor; [discriminate |]). constructor.
  - unfold only_dots, all_chars. simpl. intros H. inversion H. discriminate.
  - unfold all_chars, plain_char. simpl.
    repeat (constructor; [split; discriminate |]). constructor.
  - unfold all_chars, plain_char. simpl.
    repeat (constructor; [split; discriminate |]). constructor.
Defined.

(** The decks of a run, whatever the operating system answers. *)
Lemma frequency_writes (fs : filesystem) :
  writes (fst (generate_frequency_files fs))
  = match makedirs_error fs FREQUENCY_OUTPUT_DIR,
          isdir fs GEOMETRY_COMPLETED_DIR,
          listdir fs GEOMETRY_COMPLETED_DIR with
    | None, true, inl files =>
        map frequency_entry (filter (written fs) (sorted files))
    | _, _, _ => []
    end.
Proof.
  unfold generate_frequency_files.
  destruct (makedirs_error fs FREQUENCY_OUTPUT_DIR); [reflexivity |].
  destruct (isdir fs GEOMETRY_COMPLETED_DIR); [| reflexivity]. cbn [negb].
  destruct (listdir fs GEOMETRY_COMPLETED_DIR) as [files | e];
    [| reflexivity].
  destruct files as [| x l]; [reflexivity |].
  unfold frequency_loop.
  destruct (frequency_fold fs (sorted (x :: l)) 0
              [MakeDirs FREQUENCY_OUTPUT_DIR]) as [more [Hfold Hw]].
  rewrite Hfold. cbn [fst snd]. rewrite !writes_app, Hw.
  cbn [writes flat_map List.app]. now rewrite app_nil_r.
Qed.

(** X15. A deck is written only after the output directory has been
    made, and only for an entry that the input directory lists, that is
    no directory, and whose output file opens; the deck and its path are
    those of that entry. *)
Theorem deck_only_for_listed_file (fs : filesystem) (path deck : string) :
  In (path, deck) (writes (fst (generate_frequency_files fs))) ->
  (exists rest,
      fst (generate_frequency_files fs)
      = MakeDirs FREQUENCY_OUTPUT_DIR :: rest) /\
  isdir fs GEOMETRY_COMPLETED_DIR = true /\
  exists files filename,
    listdir fs GEOMETRY_COMPLETED_DIR = inl files /\
    In filename files /\
    isdir fs (os_path_join GEOMETRY_COMPLETED_DIR filename) = false /\
    open_error fs path = None /\
    frequency_entry filename = (path, deck).
Proof.
  intros Hin. rewrite frequency_writes in Hin.
  destruct (makedirs_error fs FREQUENCY_OUTPUT_DIR) eqn:Hmk; [contradiction |].
  destruct (isdir fs GEOMETRY_COMPLETED_DIR) eqn:Hdir; [| contradiction].
  destruct (listdir fs GEOMETRY_COMPLETED_DIR) as [files | e] eqn:Hls;
    [| contradiction].
  split; [| split; [reflexivity |]].
  - unfold generate_frequency_files. rewrite Hmk, Hdir, Hls. cbn [negb].
    destruct files as [| x l]; [contradiction |].
    unfold frequency_loop.
    destruct (frequency_fold fs (sorted (x :: l)) 0
                [MakeDirs FREQUENCY_OUTPUT_DIR]) as [more [Hfold _]].
    rewrite Hfold. cbn [fst snd List.app]. eauto.
  - apply in_map_iff in Hin. destruct Hin as [filename [Hentry Hkept]].
    apply filter_In in Hkept. destruct Hkept as [Hlisted Hw].
    exists files, filename. split; [reflexivity |].
    split; [exact (Permutation_in _ (sorted_perm files) Hlisted) |].
    unfold written in Hw. apply andb_prop in Hw. destruct Hw as [Hd Ho].
    rewrite Hentry in Ho. cbn [fst] in Ho.
    split; [now apply negb_true_iff in Hd |].
    split; [now destruct (open_error fs path) | exact Hentry].
Qed.

Lemma deck_only_for_listed_file_witness :
  exists files filename,
    listdir (example_fs ["12ClBz.gjf"] [] []) GEOMETRY_COMPLETED_DIR
    = inl files /\
    In filename files /\
    isdir (example_fs ["12ClBz.gjf"] [] [])
          (os_path_join GEOMETRY_COMPLETED_DIR filename) = false /\
    open_error (example_fs ["12ClBz.gjf"] [] [])
               "frequency_inputs/12ClBz_OptFreq.gjf" = None /\
    frequency_entry filename
    = ("frequency_inputs/12ClBz_OptFreq.gjf",
       snd (frequency_entry "12ClBz.gjf")).
Proof.
  refine (proj2 (proj2 (deck_only_for_listed_file
                          (example_fs ["12ClBz.gjf"] [] [])
                          "frequency_inputs/12ClBz_OptFreq.gjf"
                          (snd (frequency_entry "12ClBz.gjf")) _))).
  left. reflexivity.
Defined.

End FrequencyRun.

(* ================================================================== *)
(** * From the geometry decks to the scraped names *)

Section Pipeline.

Lemma plain_no_slash (s : string) : all_chars plain_char s -> no_slash s.
Proof.
  unfold no_slash, all_chars. intros H. eapply Forall_impl; [| exact H].
  now intros c [_ Hc].
Qed.

Lemma not_only_dots (a b : string) (c : ascii) :
  c <> "."%char -> ~ only_dots (a ++ String c b).
Proof.
  intros Hc H. apply all_chars_append in H. destruct H as [_ H].
  apply all_chars_cons in H. now destruct H.
Qed.

Lemma digit_plain (p : Z) : one_digit p -> all_chars plain_char (digit p).
Proof.
  unfold one_digit. intros Hp.
  assert (Ep : p = 0 \/ p = 1 \/ p = 2 \/ p = 3 \/ p = 4 \/ p = 5 \/ p = 6
               \/ p = 7 \/ p = 8 \/ p = 9) by lia.
  assert (Hplain : forall c : ascii,
             c <> "."%char -> c <> "/"%char ->
             all_chars plain_char (String c "")).
  { intros c H1 H2. apply all_chars_cons. split; [now split | constructor]. }
  repeat (destruct Ep as [-> | Ep]; [apply Hplain; discriminate |]).
  subst. apply Hplain; discriminate.
Qed.

Lemma position_string_plain (spec : list Z) :
  Forall one_digit spec -> all_chars plain_char (gjf_position_string spec).
Proof.
  unfold gjf_position_string.
  induction 1 as [| p l Hp Hl IH]; [constructor |].
  cbn [map]. rewrite join_empty_cons, (str_digit p Hp).
  apply all_chars_append. split; [now apply digit_plain | exact IH].
Qed.

Lemma suffix_plain (s : string) :
  forallb (fun c => negb (Ascii.eqb c ".") && negb (Ascii.eqb c "/"))
          (list_ascii_of_string s) = true ->
  all_chars plain_char s.
Proof.
  unfold all_chars. intros H. rewrite forallb_forall in H.
  apply Forall_forall. intros c Hc. specialize (H c Hc).
  apply andb_prop in H. destruct H as [H1 H2]. split.
  - intros ->. discriminate H1.
  - intros ->. discriminate H2.
Qed.

Lemma base_name_plain (spec : list Z) :
  Forall one_digit spec ->
  no_slash (gjf_filename_base spec) /\ ~ only_dots (gjf_filename_base spec).
Proof.
  intros H. unfold gjf_filename_base. split.
  - apply plain_no_slash, all_chars_append.
    split; [now apply position_string_plain | now apply suffix_plain].
  - apply (not_only_dots _ "lBz" "C"). discriminate.
Qed.

Lemma name_mark_plain (spec : list Z) (removed site : Z) :
  Position site -> all_chars plain_char (name_mark spec removed site).
Proof.
  intros H. unfold name_mark.
  destruct (contains site spec); [| constructor].
  destruct (site =? removed); [now apply suffix_plain |].
  apply digit_plain. unfold Position in H. unfold one_digit. lia.
Qed.

Lemma intermediate_name_plain (spec : list Z) (removed : Z) :
  all_chars plain_char (intermediate_name spec removed).
Proof.
  unfold intermediate_name.
  fold (join "" (map (name_mark spec removed) sites)).
  induction sites_Position as [| s l Hs Hl IH]; [constructor |].
  cbn [map]. rewrite join_empty_cons. apply all_chars_append.
  split; [now apply name_mark_plain | exact IH].
Qed.

Lemma intermediate_file_plain (st : ElectronicState) (spec : list Z)
      (removed : Z) :
  no_slash (intermediate_name spec removed ++ state_suffix st) /\
  ~ only_dots (intermediate_name spec removed ++ state_suffix st).
Proof.
  split.
  - apply plain_no_slash, all_chars_append.
    split; [apply intermediate_name_plain |].
    destruct st; now apply suffix_plain.
  - destruct st; [apply (not_only_dots _ "lBzAnionIntermediate" "C")
                 | apply (not_only_dots _ "lBzNeutralRadical" "C")];
      discriminate.
Qed.

(** The checkpoint line of a geometry deck, and the line of a
    frequency deck that reads a checkpoint. *)
Lemma header_checkpoint (name title charge multiplicity rest : string) :
  occurs (nl ++ "%chk=" ++ (GEOMETRY_CHK_DIR ++ "/" ++ name ++ ".chk") ++ nl)
         (GAUSSIAN_HEADER name title charge multiplicity ++ rest).
Proof.
  exists ("%mem=8GB" ++ nl ++ "%nprocshare=4"),
    ("# opt am1" ++ nl ++ nl ++ title ++ nl ++ nl ++ charge ++ " "
     ++ multiplicity ++ nl ++ rest).
  unfold GAUSSIAN_HEADER, GEOMETRY_CHK_DIR, nl.
  repeat first [rewrite append_assoc | progress cbn [String.append]].
  reflexivity.
Qed.

Lemma frequency_header_checkpoint (name : string) :
  occurs (nl ++ "%oldchk=" ++ (GEOMETRY_CHK_DIR ++ "/" ++ name ++ ".chk")
             ++ nl)
         (FREQUENCY_HEADER GEOMETRY_CHK_DIR FREQUENCY_CHK_DIR name).
Proof.
  exists ("%mem=8GB" ++ nl ++ "%nprocshare=4"),
    ("%chk=" ++ FREQUENCY_CHK_DIR ++ "/" ++ name ++ "_Freq.chk" ++ nl ++
     "# opt freq 6-311++g(d,p) guess=read geom=allcheck m062x" ++ nl ++
     nl ++ name ++ nl ++ nl).
  unfold FREQUENCY_HEADER, GEOMETRY_CHK_DIR, nl.
  repeat first [rewrite append_assoc | progress cbn [String.append]].
  reflexivity.
Qed.

(** X16. The frequency deck made from the file of a base isomer reads
    the checkpoint that the geometry deck of that isomer writes; path
    and deck are those [generate_gjf_files] returns, unless an [OSError]
    ends the call. *)
Theorem frequency_reads_geometry_checkpoint
        (os : host) (environ : string -> option string) (spec : list Z) :
  Forall one_digit spec ->
  let name := gjf_filename_base spec in
  let chk := GEOMETRY_CHK_DIR ++ "/" ++ name ++ ".chk" in
  let path := os_path_join (output_dir environ) (name ++ ".gjf") in
  snd (generate_gjf_files os environ spec)
  = through os (output_dir environ) path (path, gjf_content_of spec) /\
  occurs (nl ++ "%chk=" ++ chk ++ nl) (gjf_content_of spec) /\
  occurs (nl ++ "%oldchk=" ++ chk ++ nl)
         (snd (frequency_entry (name ++ ".gjf"))).
Proof.
  intros Hspec name chk path. subst path chk name.
  destruct (base_name_plain spec Hspec) as [Hslash Hname].
  split; [apply gjf_call |]. split.
  - unfold gjf_content_of. apply header_checkpoint.
  - unfold frequency_entry.
    change (gjf_filename_base spec ++ ".gjf")
      with (gjf_filename_base spec ++ "." ++ "gjf").
    rewrite (splitext_ext _ "gjf" Hslash Hname) by (now apply suffix_plain).
    cbn [fst snd]. apply frequency_header_checkpoint.
Qed.

Lemma frequency_reads_geometry_checkpoint_witness :
  occurs (nl ++ "%oldchk=" ++ "geometry_chks/135ClBz.chk" ++ nl)
         (snd (frequency_entry "135ClBz.gjf")).
Proof.
  assert (H : Forall one_digit [1; 3; 5]).
  { unfold one_digit. repeat constructor; lia. }
  exact (proj2 (proj2 (frequency_reads_geometry_checkpoint posix_host no_env
                         [1; 3; 5] H))).
Defined.

(** X17. The same for the intermediates of either state, whatever the
    position list and the removed position are. *)
Theorem frequency_reads_intermediate_checkpoint
        (dir : string) (spec : list Z) (removed : Z) :
  let anion := anion_pattern spec removed ++ "ClBzAnionIntermediate" in
  let radical := radical_pattern spec removed ++ "ClBzNeutralRadical" in
  let chk := fun name => GEOMETRY_CHK_DIR ++ "/" ++ name ++ ".chk" in
  (fst (anion_entry dir spec removed) = os_path_join dir (anion ++ ".gjf") /\
   occurs (nl ++ "%chk=" ++ chk anion ++ nl)
          (snd (anion_entry dir spec removed)) /\
   occurs (nl ++ "%oldchk=" ++ chk anion ++ nl)
          (snd (frequency_entry (anion ++ ".gjf")))) /\
  (fst (radical_entry dir spec removed)
   = os_path_join dir (radical ++ ".gjf") /\
   occurs (nl ++ "%chk=" ++ chk radical ++ nl)
          (snd (radical_entry dir spec removed)) /\
   occurs (nl ++ "%oldchk=" ++ chk radical ++ nl)
          (snd (frequency_entry (radical ++ ".gjf")))).
Proof.
  intros anion radical chk. subst anion radical chk. cbv beta.
  rewrite anion_pattern_spec, radical_pattern_spec.
  destruct (intermediate_file_plain Anion spec removed) as [Ha1 Ha2].
  destruct (intermediate_file_plain NeutralRadical spec removed)
    as [Hr1 Hr2].
  cbn [state_suffix] in *.
  split; (split; [| split]).
  - unfold anion_entry. now rewrite anion_pattern_spec.
  - unfold anion_entry. cbn [snd]. rewrite anion_pattern_spec.
    apply header_checkpoint.
  - unfold frequency_entry.
    change ((intermediate_name spec removed ++ "ClBzAnionIntermediate")
              ++ ".gjf")
      with ((intermediate_name spec removed ++ "ClBzAnionIntermediate")
              ++ "." ++ "gjf").
    rewrite (splitext_ext _ "gjf" Ha1 Ha2) by (now apply suffix_plain).
    cbn [fst snd]. apply frequency_header_checkpoint.
  - unfold radical_entry. now rewrite radical_pattern_spec.
  - unfold radical_entry. cbn [snd]. rewrite radical_pattern_spec.
    apply header_checkpoint.
  - unfold frequency_entry.
    change ((intermediate_name spec removed ++ "ClBzNeutralRadical")
              ++ ".gjf")
      with ((intermediate_name spec removed ++ "ClBzNeutralRadical")
              ++ "." ++ "gjf").
    rewrite (splitext_ext _ "gjf" Hr1 Hr2) by (now apply suffix_plain).
    cbn [fst snd]. apply frequency_header_checkpoint.
Qed.

(** ** The names the scraper gives back *)

Lemma derive_name_cut (head tail : string) :
  str_contains "_" tail = false ->
  derive_name_from_stem (head ++ "_" ++ tail)
  = if String.eqb (strip " _" head) "" then head ++ "_" ++ tail
    else strip " _" head.
Proof.
  intros Htail. unfold derive_name_from_stem, rsplit1_head.
  cbn [String.append].
  now rewrite contains_char_split, (before_last_split _ _ _ Htail).
Qed.

Lemma rstrip_end (chars a : string) (c : ascii) :
  one_of chars c = false ->
  rstrip chars (a ++ String c "") = a ++ String c "".
Proof.
  intros Hc. induction a as [| x a IH].
  - cbn [String.append rstrip]. now rewrite Hc.
  - cbn [String.append rstrip]. rewrite IH.
    now destruct a.
Qed.

Lemma digit_not_stripped (p : Z) (rest : string) :
  one_digit p -> lstrip " _" (digit p ++ rest) = digit p ++ rest.
Proof.
  unfold one_digit. intros Hp.
  assert (Ep : p = 0 \/ p = 1 \/ p = 2 \/ p = 3 \/ p = 4 \/ p = 5 \/ p = 6
               \/ p = 7 \/ p = 8 \/ p = 9) by lia.
  repeat (destruct Ep as [-> | Ep]; [reflexivity |]). now subst.
Qed.

(** X18. The name of a base isomer comes back from the scraper: the
    frequency deck of [name.gjf] goes to [name_OptFreq.gjf], and from
    the stem [name_OptFreq] the scraper derives [name]. *)
Theorem base_name_survives_pipeline (spec : list Z) :
  Forall one_digit spec ->
  let name := gjf_filename_base spec in
  fst (frequency_entry (name ++ ".gjf"))
  = os_path_join FREQUENCY_OUTPUT_DIR ((name ++ "_OptFreq") ++ ".gjf") /\
  derive_name_from_stem (name ++ "_OptFreq") = name.
Proof.
  intros Hspec name. subst name.
  destruct (base_name_plain spec Hspec) as [Hslash Hname]. split.
  - unfold frequency_entry.
    change (gjf_filename_base spec ++ ".gjf")
      with (gjf_filename_base spec ++ "." ++ "gjf").
    rewrite (splitext_ext _ "gjf" Hslash Hname) by (now apply suffix_plain).
    cbn [fst]. now rewrite append_assoc.
  - change (gjf_filename_base spec ++ "_OptFreq")
      with (gjf_filename_base spec ++ "_" ++ "OptFreq").
    rewrite derive_name_cut by reflexivity.
    assert (Hstrip : strip " _" (gjf_filename_base spec)
                     = gjf_filename_base spec).
    { unfold strip, gjf_filename_base, gjf_position_string.
      assert (Hl : lstrip " _" (join "" (map str spec) ++ "ClBz")
                   = join "" (map str spec) ++ "ClBz").
      { destruct Hspec as [| p l Hp Hl]; [reflexivity |].
        cbn [map]. rewrite join_empty_cons, (str_digit p Hp), append_assoc.
        now apply digit_not_stripped. }
      rewrite Hl.
      change (join "" (map str spec) ++ "ClBz")
        with (join "" (map str spec) ++ "ClB" ++ String "z" "").
      rewrite <- append_assoc. now apply rstrip_end. }
    rewrite Hstrip.
    destruct (String.eqb_spec (gjf_filename_base spec) "") as [E | _];
      [| reflexivity].
    exfalso. apply Hname. rewrite E. constructor.
Qed.

Lemma base_name_survives_pipeline_witness :
  derive_name_from_stem ("1245ClBz" ++ "_OptFreq") = "1245ClBz".
Proof.
  assert (H : Forall one_digit [1; 2; 4; 5]).
  { unfold one_digit. repeat constructor; lia. }
  exact (proj2 (base_name_survives_pipeline [1; 2; 4; 5] H)).
Defined.

Lemma least_listed_decided (spec : list Z) (removed : Z) :
  least_listed spec removed <-> least_listedb spec removed = true.
Proof.
  unfold least_listed, least_listedb.
  rewrite !andb_true_iff, forallb_forall, existsb_exists, contains_In.
  split.
  - intros [Hin [Hpos Hle]]. split; [split; [exact Hin |] |].
    + exists removed. split; [now apply Position_sites | apply Z.eqb_refl].
    + intros i Hi. destruct (contains i spec) eqn:E; [| reflexivity].
      cbn [negb orb]. apply Z.leb_le. apply Hle.
      * now apply contains_In.
      * now apply Position_sites.
  - intros [[Hin [x [Hx Ex]]] Hle]. apply Z.eqb_eq in Ex. subst x.
    split; [exact Hin |]. split; [now apply Position_sites |].
    intros p Hp Hpos. apply Position_sites in Hpos.
    specialize (Hle p Hpos). apply contains_In in Hp. rewrite Hp in Hle.
    cbn [negb orb] in Hle. now apply Z.leb_le.
Qed.

(** What the scraper derives from the stem of an intermediate, for the
    two suffixes. *)
Lemma scraped_intermediate (spec : list Z) (removed : Z) (suffix : string) :
  suffix = "ClBzAnionIntermediate" \/ suffix = "ClBzNeutralRadical" ->
  intermediate_name spec removed ++ suffix
  = (if least_listedb spec removed then "_" else "")
      ++ derive_name_from_stem
           ((intermediate_name spec removed ++ suffix) ++ "_OptFreq").
Proof.
  intros Hsuffix.
  unfold least_listedb, intermediate_name, name_mark, sites.
  cbn [map forallb existsb].
  assert (Hr : removed = 1 \/ removed = 2 \/ removed = 3 \/ removed = 4
               \/ removed = 5 \/ removed = 6 \/ ~ (1 <= removed <= 6))
    by lia.
  destruct Hr as [-> | [-> | [-> | [-> | [-> | [-> | Hout]]]]]].
  1-6: destruct (contains 1 spec), (contains 2 spec), (contains 3 spec),
         (contains 4 spec), (contains 5 spec), (contains 6 spec);
       destruct Hsuffix as [-> | ->]; vm_compute; reflexivity.
  assert (E1 : (1 =? removed) = false) by (apply Z.eqb_neq; lia).
  assert (E2 : (2 =? removed) = false) by (apply Z.eqb_neq; lia).
  assert (E3 : (3 =? removed) = false) by (apply Z.eqb_neq; lia).
  assert (E4 : (4 =? removed) = false) by (apply Z.eqb_neq; lia).
  assert (E5 : (5 =? removed) = false) by (apply Z.eqb_neq; lia).
  assert (E6 : (6 =? removed) = false) by (apply Z.eqb_neq; lia).
  rewrite !(Z.eqb_sym removed), E1, E2, E3, E4, E5, E6.
  cbn [orb]. rewrite andb_false_r. cbn [andb].
  destruct (contains 1 spec), (contains 2 spec), (contains 3 spec),
    (contains 4 spec), (contains 5 spec), (contains 6 spec);
    destruct Hsuffix as [-> | ->]; vm_compute; reflexivity.
Qed.

(** X19. The name of an intermediate comes back from the scraper
    without its placeholder when the removed position is the least one
    listed, since the name then starts with the placeholder; otherwise
    it comes back whole.  This holds for the files of both states. *)
Theorem intermediate_name_loses_leading_placeholder
        (spec : list Z) (removed : Z) :
  let anion := anion_pattern spec removed ++ "ClBzAnionIntermediate" in
  let radical := radical_pattern spec removed ++ "ClBzNeutralRadical" in
  (least_listed spec removed ->
   anion = "_" ++ derive_name_from_stem (anion ++ "_OptFreq") /\
   radical = "_" ++ derive_name_from_stem (radical ++ "_OptFreq")) /\
  (~ least_listed spec removed ->
   derive_name_from_stem (anion ++ "_OptFreq") = anion /\
   derive_name_from_stem (radical ++ "_OptFreq") = radical).
Proof.
  intros anion radical. subst anion radical.
  rewrite anion_pattern_spec, radical_pattern_spec.
  pose proof (scraped_intermediate spec removed "ClBzAnionIntermediate"
                (or_introl eq_refl)) as Ha.
  pose proof (scraped_intermediate spec removed "ClBzNeutralRadical"
                (or_intror eq_refl)) as Hr.
  rewrite least_listed_decided.
  destruct (least_listedb spec removed).
  - split; [intros _; now split | intros H; now contradiction H].
  - split; [discriminate |]. intros _.
    cbn [String.append] in Ha, Hr. now split.
Qed.

Lemma intermediate_name_loses_leading_placeholder_witness :
  "_2ClBzAnionIntermediate"
  = "_" ++ derive_name_from_stem ("_2ClBzAnionIntermediate" ++ "_OptFreq").
Proof.
  assert (H : least_listed [1; 2] 1).
  { apply least_listed_decided. reflexivity. }
  exact (proj1 (proj1 (intermediate_name_loses_leading_placeholder [1; 2] 1)
                      H)).
Defined.

End Pipeline.
